(** * ChessMaster: rules engine, search and FEN serialisation of [script.js]

    A shallow embedding of the chess core of [src/script.js]: the board and
    the game state it keeps in global variables, the move generator
    ([getPseudoLegalMoves]), the attack detector ([isSquareAttacked]), the
    legality filter ([isMoveSafe], [getLegalMoves]), the move executor
    ([makeMove], [handlePromotionChoice]), the evaluator ([evaluateBoard]),
    the alpha-beta search ([minimax]), the difficulty policy
    ([fallbackAIMove]) and the FEN writer ([boardToFEN]).

    Row and column numbers are JavaScript numbers that only ever hold small
    integers; they are [Z] here, because the code computes [r - 1], [c - 3]
    and the like before it tests them with [isValidSquare].  The global
    variables of the script are the fields of one record, [GameState], that
    every function reading them takes as an argument and every function
    writing them returns. *)

From Stdlib Require Import String Ascii.
From Stdlib Require Import ZArith List Bool Lia.
From Stdlib Require Import QArith Qround.
From Stdlib Require Import Sorted Permutation.
From Stdlib Require Import Orders OrdersTac.
From Stdlib Require Import Numbers.DecimalString.
Import ListNotations.

Open Scope Z_scope.

(* ================================================================== *)
(** * Data model *)
(* ================================================================== *)

(** The side: the strings ["white"] / ["black"] of [turn] and [color], whose
    first letters ["w"] / ["b"] prefix the piece codes. *)
Inductive Color : Set := White | Black.

(** The second letter of a piece code: p, n, b, r, q, k. *)
Inductive PieceType : Set := Pawn | Knight | Bishop | Rook | Queen | King.

(** A piece code such as ["wp"] or ["bk"]. *)
Record Piece : Set := mkPiece { pcolor : Color; ptype : PieceType }.

(** A cell of the grid: a piece code, or [null]. *)
Definition Cell : Set := option Piece.

(** [board]: an array of 8 rows of 8 cells, row 0 being black's back rank.
    Every board of the script has this shape: [initGame] builds one, and the
    executors copy it and write to its cells.  A list of another shape
    stands for no board of the script; [getSq] reads it as if it were
    padded with empty cells. *)
Definition Board : Set := list (list Cell).

(** [{ r, c }] *)
Record Square : Set := mkSquare { row : Z; col : Z }.

(** The [special] tag of a move; [null] is [None]. *)
Inductive Special : Set := DoublePush | EnPassant | CastleKs | CastleQs.

(** [{ from, to, special }] *)
Record Move : Set := mkMove { mfrom : Square; mto : Square; special : option Special }.

Record SideRights : Set := mkSideRights { kingSide : bool; queenSide : bool }.

Record CastlingRights : Set := mkCastlingRights { white : SideRights; black : SideRights }.

(** [capturedPieces = { w: [], b: [] }] *)
Record Captured : Set := mkCaptured { cap_w : list Piece; cap_b : list Piece }.

Inductive GameMode : Set := Pvp | Solo.

(** The global variables of the script that the rules engine reads and
    writes.  The variables of the presentation layer ([selectedSquare],
    [grabbedPiece], [hintSquares], the Stockfish worker) are not part of it. *)
Record GameState : Set := mkGameState {
  board : Board;
  turn : Color;
  gameMode : GameMode;
  capturedPieces : Captured;
  moveCount : Z;
  halfMoveClock : Z;
  castlingRights : CastlingRights;
  enPassantTarget : option Square;
  pendingPromotion : option Move
}.

Definition Color_eqb (a b : Color) : bool :=
  match a, b with
  | White, White | Black, Black => true
  | _, _ => false
  end.

Definition PieceType_eqb (a b : PieceType) : bool :=
  match a, b with
  | Pawn, Pawn | Knight, Knight | Bishop, Bishop
  | Rook, Rook | Queen, Queen | King, King => true
  | _, _ => false
  end.

(** [cell === prefix + letter] *)
Definition cellIs (x : Cell) (col : Color) (t : PieceType) : bool :=
  match x with
  | Some p => Color_eqb (pcolor p) col && PieceType_eqb (ptype p) t
  | None => false
  end.

(** [cell && cell.startsWith(prefix)] *)
Definition cellHasColor (x : Cell) (col : Color) : bool :=
  match x with
  | Some p => Color_eqb (pcolor p) col
  | None => false
  end.

(** [!cell] *)
Definition cellEmpty (x : Cell) : bool :=
  match x with
  | Some _ => false
  | None => true
  end.

(* ------------------------------------------------------------------ *)
(** ** Reading and writing the grid *)

Definition isValidSquare (r c : Z) : bool :=
  (0 <=? r) && (r <? 8) && (0 <=? c) && (c <? 8).

(** [boardState[r][c]].  The row index is within the grid at every read of
    the script.  The column index is not: the castling probes of
    [getPseudoLegalMoves] read [board[r][c + 2]] and [board[r][c - 3]]
    unguarded, and JavaScript answers [undefined] outside the row, which is
    as falsy as [null]: [None]. *)
Definition getSq (b : Board) (r c : Z) : Cell :=
  if (r <? 0) || (c <? 0) then None
  else nth (Z.to_nat c) (nth (Z.to_nat r) b []) None.

Fixpoint updNth {A : Type} (n : nat) (f : A -> A) (l : list A) : list A :=
  match l, n with
  | [], _ => []
  | x :: xs, O => f x :: xs
  | x :: xs, S k => x :: updNth k f xs
  end.

(** [boardState[r][c] = v].  The model keeps the grid and nothing else: a
    write to a column outside the row (the landing square of a castling
    candidate of a king that is not on the e-file) lands in JavaScript in a
    slot beside the grid and leaves the grid as it is; the loops of
    [findKing], [isSquareAttacked], [evaluateBoard] and [boardToFEN] stay on
    the grid and never see such a slot. *)
Definition setSq (b : Board) (r c : Z) (v : Cell) : Board :=
  if (r <? 0) || (c <? 0) then b
  else updNth (Z.to_nat r) (updNth (Z.to_nat c) (fun _ => v)) b.

Definition range8 : list Z := [0; 1; 2; 3; 4; 5; 6; 7].

(** The squares in the order of the nested loops
    [for (r = 0; r < 8; r++) for (c = 0; c < 8; c++)]. *)
Definition allSquares : list Square :=
  flat_map (fun r => map (fun c => mkSquare r c) range8) range8.

(* ================================================================== *)
(** * Move generator: [getPseudoLegalMoves] *)
(* ================================================================== *)

Definition enemyOf (color : Color) : Color :=
  match color with White => Black | Black => White end.

(** [const direction = color === "w" ? -1 : 1] *)
Definition direction (color : Color) : Z :=
  match color with White => -1 | Black => 1 end.

(** [castlingRights[color === "w" ? "white" : "black"]] *)
Definition rightsOf (cr : CastlingRights) (color : Color) : SideRights :=
  match color with White => white cr | Black => black cr end.

(** The [side] argument of [canCastle]: ["kingSide"] or ["queenSide"]. *)
Inductive Side : Set := KingSide | QueenSide.

Definition canCastle (st : GameState) (color : Color) (side : Side) : bool :=
  match side with
  | KingSide => kingSide (rightsOf (castlingRights st) color)
  | QueenSide => queenSide (rightsOf (castlingRights st) color)
  end.

Definition knightOffsets : list (Z * Z) :=
  [(-2, -1); (-2, 1); (-1, -2); (-1, 2); (1, -2); (1, 2); (2, -1); (2, 1)].

(** The pairs [(dr, dc)] of the king's double loop, [(0, 0)] skipped. *)
Definition kingOffsets : list (Z * Z) :=
  [(-1, -1); (-1, 0); (-1, 1); (0, -1); (0, 1); (1, -1); (1, 0); (1, 1)].

Definition rookDirs : list (Z * Z) := [(0, 1); (0, -1); (1, 0); (-1, 0)].
Definition bishopDirs : list (Z * Z) := [(1, 1); (1, -1); (-1, 1); (-1, -1)].

Section Generator.
Variable st : GameState.
Variables r c : Z.

(** [addMove(tr, tc, isCapture, special)]; [isCapture] is not stored. *)
Definition addMove (tr tc : Z) (sp : option Special) : Move :=
  mkMove (mkSquare r c) (mkSquare tr tc) sp.

(** The body of the [while (isValidSquare(tr, tc))] loop of a sliding
    piece.  A ray leaves the grid after at most 7 steps, so the loop is
    unrolled with a counter; [slide_8_enough] shows that 8 turns are as
    good as any number. *)
Fixpoint slide (fuel : nat) (enemyColor : Color) (tr tc dr dc : Z) : list Move :=
  match fuel with
  | O => []
  | S fuel' =>
      if isValidSquare tr tc then
        match getSq (board st) tr tc with
        | None => addMove tr tc None :: slide fuel' enemyColor (tr + dr) (tc + dc) dr dc
        | Some p =>
            if Color_eqb (pcolor p) enemyColor then [addMove tr tc None] else []
        end
      else []
  end.

Definition pawnMoves (color : Color) : list Move :=
  let enemyColor := enemyOf color in
  let d := direction color in
  let forward :=
    if isValidSquare (r + d) c && cellEmpty (getSq (board st) (r + d) c) then
      addMove (r + d) c None ::
      (if (Color_eqb color White && (r =? 6)) || (Color_eqb color Black && (r =? 1)) then
         if isValidSquare (r + d * 2) c && cellEmpty (getSq (board st) (r + d * 2) c)
         then [addMove (r + d * 2) c (Some DoublePush)]
         else []
       else [])
    else [] in
  let diagonal (t : Z * Z) :=
    let '(tr, tc) := t in
    if isValidSquare tr tc then
      (if cellHasColor (getSq (board st) tr tc) enemyColor
       then [addMove tr tc None] else [])
      ++
      (match enPassantTarget st with
       | Some ep =>
           if (tr =? row ep) && (tc =? col ep)
           then [addMove tr tc (Some EnPassant)] else []
       | None => []
       end)
    else [] in
  forward ++ flat_map diagonal [(r + d, c - 1); (r + d, c + 1)].

(** The knight's and the king's step onto an empty or enemy-held square. *)
Definition stepMoves (enemyColor : Color) (offsets : list (Z * Z)) : list Move :=
  flat_map
    (fun o : Z * Z =>
       let tr := r + fst o in
       let tc := c + snd o in
       if isValidSquare tr tc then
         let target := getSq (board st) tr tc in
         if cellEmpty target || cellHasColor target enemyColor
         then [addMove tr tc None] else []
       else [])
    offsets.

Definition castleMoves (color : Color) : list Move :=
  (if canCastle st color KingSide then
     if cellEmpty (getSq (board st) r (c + 1)) && cellEmpty (getSq (board st) r (c + 2))
     then [addMove r (c + 2) (Some CastleKs)] else []
   else [])
  ++
  (if canCastle st color QueenSide then
     if cellEmpty (getSq (board st) r (c - 1)) && cellEmpty (getSq (board st) r (c - 2))
        && cellEmpty (getSq (board st) r (c - 3))
     then [addMove r (c - 2) (Some CastleQs)] else []
   else []).

Definition slidingDirs (t : PieceType) : list (Z * Z) :=
  (match t with Rook | Queen => rookDirs | _ => [] end)
  ++ (match t with Bishop | Queen => bishopDirs | _ => [] end).

Definition getPseudoLegalMoves (piece : Piece) : list Move :=
  let color := pcolor piece in
  let enemyColor := enemyOf color in
  match ptype piece with
  | Pawn => pawnMoves color
  | Knight => stepMoves enemyColor knightOffsets
  | King => stepMoves enemyColor kingOffsets ++ castleMoves color
  | t =>
      flat_map
        (fun d : Z * Z =>
           slide 8 enemyColor (r + fst d) (c + snd d) (fst d) (snd d))
        (slidingDirs t)
  end.
End Generator.

(* ================================================================== *)
(** * Attack detector: [isSquareAttacked] and [findKing] *)
(* ================================================================== *)

(** One ray of the sliding loop of [isSquareAttacked]; [orth] is [i < 4].
    The [while] loop is unrolled with a counter, as in [slide]
    ([rayAttacked_8_enough]). *)
Fixpoint rayAttacked (fuel : nat) (b : Board) (enemyPrefix : Color) (orth : bool)
         (tr tc dr dc : Z) : bool :=
  match fuel with
  | O => false
  | S fuel' =>
      if isValidSquare tr tc then
        match getSq b tr tc with
        | Some p =>
            if Color_eqb (pcolor p) enemyPrefix then
              match ptype p with
              | Queen => true
              | Rook => orth
              | Bishop => negb orth
              | _ => false
              end
            else false
        | None => rayAttacked fuel' b enemyPrefix orth (tr + dr) (tc + dc) dr dc
        end
      else false
  end.

Definition isSquareAttacked (r c : Z) (defendingColor : Color) (boardState : Board) : bool :=
  let enemyPrefix := enemyOf defendingColor in
  let attackRow := match defendingColor with White => r - 1 | Black => r + 1 end in
  (* Pawn attacks *)
  (isValidSquare attackRow (c - 1) && cellIs (getSq boardState attackRow (c - 1)) enemyPrefix Pawn)
  || (isValidSquare attackRow (c + 1) && cellIs (getSq boardState attackRow (c + 1)) enemyPrefix Pawn)
  (* Knight attacks *)
  || existsb
       (fun o : Z * Z =>
          isValidSquare (r + fst o) (c + snd o)
          && cellIs (getSq boardState (r + fst o) (c + snd o)) enemyPrefix Knight)
       knightOffsets
  (* Sliding *)
  || existsb
       (fun d : Z * Z =>
          rayAttacked 8 boardState enemyPrefix true (r + fst d) (c + snd d) (fst d) (snd d))
       rookDirs
  || existsb
       (fun d : Z * Z =>
          rayAttacked 8 boardState enemyPrefix false (r + fst d) (c + snd d) (fst d) (snd d))
       bishopDirs
  (* King *)
  || existsb
       (fun o : Z * Z =>
          isValidSquare (r + fst o) (c + snd o)
          && cellIs (getSq boardState (r + fst o) (c + snd o)) enemyPrefix King)
       kingOffsets.

(** [findKing(boardState, color)]: the first square, rows first, that holds
    [color]'s king; [{ r: 0, c: 0 }] when there is none. *)
Definition findKing (boardState : Board) (color : Color) : Square :=
  match find (fun s => cellIs (getSq boardState (row s) (col s)) color King) allSquares with
  | Some s => s
  | None => mkSquare 0 0
  end.

(* ================================================================== *)
(** * Legality filter: [isMoveSafe] and [getLegalMoves] *)
(* ================================================================== *)

Definition isSpecial (m : Move) (s : Special) : bool :=
  match special m, s with
  | Some DoublePush, DoublePush | Some EnPassant, EnPassant
  | Some CastleKs, CastleKs | Some CastleQs, CastleQs => true
  | _, _ => false
  end.

(** The scratch copy [tempBoard] of [isMoveSafe] once the move is played on
    it: the en-passant victim cleared, the piece put down on [to], [from]
    cleared. *)
Definition simulateMove (b : Board) (move : Move) : Board :=
  let fromPiece := getSq b (row (mfrom move)) (col (mfrom move)) in
  let t1 :=
    if isSpecial move EnPassant
    then setSq b (row (mfrom move)) (col (mto move)) None
    else b in
  let t2 := setSq t1 (row (mto move)) (col (mto move)) fromPiece in
  setSq t2 (row (mfrom move)) (col (mfrom move)) None.

(** The square [(kRow, kCol)] that [isMoveSafe] hands to the attack
    detector: the landing square when the king itself moves, else the square
    [findKing] reports on the scratch copy. *)
Definition kingSquareAfter (b : Board) (move : Move) (color : Color) : Square :=
  match getSq b (row (mfrom move)) (col (mfrom move)) with
  | Some p =>
      match ptype p with
      | King => mto move
      | _ => findKing (simulateMove b move) color
      end
  | None => findKing (simulateMove b move) color
  end.

(** The two pre-move tests of a castling move, on the global [board]. *)
Definition castlePathSafe (b : Board) (move : Move) (color : Color) : bool :=
  let fr := row (mfrom move) in
  let fc := col (mfrom move) in
  (if isSpecial move CastleKs
   then negb (isSquareAttacked fr fc color b) && negb (isSquareAttacked fr (fc + 1) color b)
   else true)
  &&
  (if isSpecial move CastleQs
   then negb (isSquareAttacked fr fc color b) && negb (isSquareAttacked fr (fc - 1) color b)
   else true).

(** [isMoveSafe(move, color)].  With no piece on [move.from] the script
    stops with a TypeError at [fromPiece[1]]; [getLegalMoves] and [minimax]
    never get there ([pseudo_from_occupied]), and the model answers [false]. *)
Definition isMoveSafe (st : GameState) (move : Move) (color : Color) : bool :=
  match getSq (board st) (row (mfrom move)) (col (mfrom move)) with
  | None => false
  | Some _ =>
      let tempBoard := simulateMove (board st) move in
      let k := kingSquareAfter (board st) move color in
      castlePathSafe (board st) move color
      && negb (isSquareAttacked (row k) (col k) color tempBoard)
  end.

(** The moves of the piece on one square that pass the filter: the body of
    the double loop of [getLegalMoves] (and of the gathering loop of
    [minimax]). *)
Definition legalFrom (st : GameState) (color : Color) (s : Square) : list Move :=
  match getSq (board st) (row s) (col s) with
  | Some piece =>
      if Color_eqb (pcolor piece) color
      then filter (fun move => isMoveSafe st move color)
                  (getPseudoLegalMoves st (row s) (col s) piece)
      else []
  | None => []
  end.

Definition getLegalMoves (st : GameState) (color : Color) : list Move :=
  flat_map (legalFrom st color) allSquares.

(* ================================================================== *)
(** * The opening position: [initGame] *)
(* ================================================================== *)

Definition bp (t : PieceType) : Cell := Some (mkPiece Black t).
Definition wp (t : PieceType) : Cell := Some (mkPiece White t).

Definition emptyRow : list Cell := repeat None 8.

Definition emptyBoard : Board := repeat emptyRow 8.

Definition initialBoard : Board :=
  [ map bp [Rook; Knight; Bishop; Queen; King; Bishop; Knight; Rook];
    repeat (bp Pawn) 8;
    emptyRow; emptyRow; emptyRow; emptyRow;
    repeat (wp Pawn) 8;
    map wp [Rook; Knight; Bishop; Queen; King; Bishop; Knight; Rook] ].

Definition allRights : CastlingRights :=
  mkCastlingRights (mkSideRights true true) (mkSideRights true true).

(** The state [initGame] sets up; [gameMode] is left as it is. *)
Definition initGame (mode : GameMode) : GameState :=
  mkGameState initialBoard White mode (mkCaptured [] []) 1 0 allRights None None.

(* ================================================================== *)
(** * Move executor: [makeMove] and [handlePromotionChoice] *)
(* ================================================================== *)

(** What a call does: it returns (here with the globals it leaves), or it
    stops with an exception.  The only exception the script can raise is the
    TypeError of reading a letter of [null]; it has no [throw] of its own. *)
Inductive JsError : Set := TypeError.

Inductive Outcome (A : Type) : Type :=
| Returned (a : A)
| Thrown (e : JsError).

Arguments Returned {A} a.
Arguments Thrown {A} e.

Definition set_board (b : Board) (st : GameState) : GameState :=
  mkGameState b (turn st) (gameMode st) (capturedPieces st) (moveCount st)
              (halfMoveClock st) (castlingRights st) (enPassantTarget st)
              (pendingPromotion st).

Definition set_castlingRights (cr : CastlingRights) (st : GameState) : GameState :=
  mkGameState (board st) (turn st) (gameMode st) (capturedPieces st) (moveCount st)
              (halfMoveClock st) cr (enPassantTarget st) (pendingPromotion st).

Definition set_enPassantTarget (ep : option Square) (st : GameState) : GameState :=
  mkGameState (board st) (turn st) (gameMode st) (capturedPieces st) (moveCount st)
              (halfMoveClock st) (castlingRights st) ep (pendingPromotion st).

Definition set_pendingPromotion (p : option Move) (st : GameState) : GameState :=
  mkGameState (board st) (turn st) (gameMode st) (capturedPieces st) (moveCount st)
              (halfMoveClock st) (castlingRights st) (enPassantTarget st) p.

(** [trackCapture(piece)]: a captured piece is pushed on the list of its own
    colour; [null] is ignored. *)
Definition trackCapture (piece : Cell) (cp : Captured) : Captured :=
  match piece with
  | None => cp
  | Some p =>
      match pcolor p with
      | White => mkCaptured (cap_w cp ++ [p]) (cap_b cp)
      | Black => mkCaptured (cap_w cp) (cap_b cp ++ [p])
      end
  end.

(** [cr[color].kingSide = false] and [cr[color].queenSide = false], each
    under its own flag. *)
Definition revoke (cr : CastlingRights) (color : Color) (ks qs : bool) : CastlingRights :=
  let upd (s : SideRights) :=
    mkSideRights (if ks then false else kingSide s) (if qs then false else queenSide s) in
  match color with
  | White => mkCastlingRights (upd (white cr)) (black cr)
  | Black => mkCastlingRights (white cr) (upd (black cr))
  end.

(** The two [if]s that update castling rights after a move of [fromPiece]
    from column [fc]; the same lines stand in [makeMove] and in [minimax]. *)
Definition updateRights (cr : CastlingRights) (color : Color) (t : PieceType) (fc : Z)
  : CastlingRights :=
  let cr1 := match t with King => revoke cr color true true | _ => cr end in
  match t with
  | Rook => revoke (revoke cr1 color false (fc =? 0)) color (fc =? 7) false
  | _ => cr1
  end.

(** The rook's half of a castling move, as every executor of the script
    writes it, with the columns 5, 7, 3 and 0 as constants. *)
Definition relocateRook (b : Board) (move : Move) : Board :=
  let rw := row (mfrom move) in
  let b1 :=
    if isSpecial move CastleKs
    then setSq (setSq b rw 5 (getSq b rw 7)) rw 7 None
    else b in
  if isSpecial move CastleQs
  then setSq (setSq b1 rw 3 (getSq b1 rw 0)) rw 0 None
  else b1.

(** [{ r: (move.from.r + move.to.r) / 2, c: move.from.c }] on a double push;
    the sum is even there, so the division is exact. *)
Definition epAfter (move : Move) : option Square :=
  if isSpecial move DoublePush
  then Some (mkSquare ((row (mfrom move) + row (mto move)) / 2) (col (mfrom move)))
  else None.

(** [makeMove] from "Update Castling Rights" to "Switch Turn". *)
Definition commitMove (move : Move) (fromPiece : Piece) (promotionChoice : option PieceType)
           (st : GameState) : GameState :=
  let fr := row (mfrom move) in
  let fc := col (mfrom move) in
  let tr := row (mto move) in
  let tc := col (mto move) in
  let cr := updateRights (castlingRights st) (turn st) (ptype fromPiece) fc in
  let targetPiece := getSq (board st) tr tc in
  let cp1 := trackCapture targetPiece (capturedPieces st) in
  let b1 := setSq (setSq (board st) tr tc (Some fromPiece)) fr fc None in
  let cp2 := if isSpecial move EnPassant then trackCapture (getSq b1 fr tc) cp1 else cp1 in
  let b2 := if isSpecial move EnPassant then setSq b1 fr tc None else b1 in
  let b3 := relocateRook b2 move in
  let b4 :=
    match promotionChoice with
    | Some t => setSq b3 tr tc (Some (mkPiece (turn st) t))
    | None => b3
    end in
  let moveCount1 := match turn st with White => moveCount st + 1 | Black => moveCount st end in
  let halfMoveClock1 :=
    if PieceType_eqb (ptype fromPiece) Pawn || negb (cellEmpty targetPiece)
    then 0 else halfMoveClock st + 1 in
  mkGameState b4 (enemyOf (turn st)) (gameMode st) cp2 moveCount1 halfMoveClock1
              cr (epAfter move) (pendingPromotion st).

(** Does [makeMove] stop at "Check for Promotion (Human)"? *)
Definition needsPromotionChoice (move : Move) (fromPiece : Piece)
           (promotionChoice : option PieceType) : bool :=
  match promotionChoice with
  | Some _ => false
  | None =>
      PieceType_eqb (ptype fromPiece) Pawn
      && ((row (mto move) =? 0) || (row (mto move) =? 7))
  end.

Definition autoPromotes (st : GameState) : bool :=
  match gameMode st, turn st with
  | Solo, Black => true
  | _, _ => false
  end.

(** [makeMove(move, promotionChoice = null)], up to the call of
    [animateMove], whose callback redraws the board and belongs to the
    presentation layer. *)
Definition makeMove (move : Move) (promotionChoice : option PieceType) (st : GameState)
  : Outcome GameState :=
  match getSq (board st) (row (mfrom move)) (col (mfrom move)) with
  | None => Thrown TypeError
  | Some fromPiece =>
      if needsPromotionChoice move fromPiece promotionChoice then
        if autoPromotes st
        then Returned (commitMove move fromPiece (Some Queen) st)
        else Returned (set_pendingPromotion (Some move) st)
      else Returned (commitMove move fromPiece promotionChoice st)
  end.

(** [handlePromotionChoice(type)] *)
Definition handlePromotionChoice (type : PieceType) (st : GameState) : Outcome GameState :=
  match pendingPromotion st with
  | Some move =>
      match makeMove move (Some type) st with
      | Returned st' => Returned (set_pendingPromotion None st')
      | Thrown e => Thrown e
      end
  | None => Returned st
  end.

(* ================================================================== *)
(** * Evaluator: [evaluateBoard] *)
(* ================================================================== *)

Definition PIECE_VALUES (t : PieceType) : Z :=
  match t with
  | Pawn => 100 | Knight => 320 | Bishop => 330
  | Rook => 500 | Queen => 900 | King => 20000
  end.

Definition PST (t : PieceType) : list (list Z) :=
  match t with
  | Pawn =>
      [ [0; 0; 0; 0; 0; 0; 0; 0];
        [50; 50; 50; 50; 50; 50; 50; 50];
        [10; 10; 20; 30; 30; 20; 10; 10];
        [5; 5; 10; 25; 25; 10; 5; 5];
        [0; 0; 0; 20; 20; 0; 0; 0];
        [5; -5; -10; 0; 0; -10; -5; 5];
        [5; 10; 10; -20; -20; 10; 10; 5];
        [0; 0; 0; 0; 0; 0; 0; 0] ]
  | Knight =>
      [ [-50; -40; -30; -30; -30; -30; -40; -50];
        [-40; -20; 0; 0; 0; 0; -20; -40];
        [-30; 0; 10; 15; 15; 10; 0; -30];
        [-30; 5; 15; 20; 20; 15; 5; -30];
        [-30; 0; 15; 20; 20; 15; 0; -30];
        [-30; 5; 10; 15; 15; 10; 5; -30];
        [-40; -20; 0; 5; 5; 0; -20; -40];
        [-50; -40; -30; -30; -30; -30; -40; -50] ]
  | Bishop =>
      [ [-20; -10; -10; -10; -10; -10; -10; -20];
        [-10; 0; 0; 0; 0; 0; 0; -10];
        [-10; 0; 10; 10; 10; 10; 0; -10];
        [-10; 5; 5; 10; 10; 5; 5; -10];
        [-10; 0; 5; 10; 10; 5; 0; -10];
        [-10; 10; 10; 10; 10; 10; 10; -10];
        [-10; 5; 0; 0; 0; 0; 5; -10];
        [-20; -10; -10; -10; -10; -10; -10; -20] ]
  | Rook =>
      [ [0; 0; 0; 0; 0; 0; 0; 0];
        [5; 10; 10; 10; 10; 10; 10; 5];
        [-5; 0; 0; 0; 0; 0; 0; -5];
        [-5; 0; 0; 0; 0; 0; 0; -5];
        [-5; 0; 0; 0; 0; 0; 0; -5];
        [-5; 0; 0; 0; 0; 0; 0; -5];
        [-5; 0; 0; 0; 0; 0; 0; -5];
        [0; 0; 0; 5; 5; 0; 0; 0] ]
  | Queen =>
      [ [-20; -10; -10; -5; -5; -10; -10; -20];
        [-10; 0; 0; 0; 0; 0; 0; -10];
        [-10; 0; 5; 5; 5; 5; 0; -10];
        [-5; 0; 5; 5; 5; 5; 0; -5];
        [0; 0; 5; 5; 5; 5; 0; -5];
        [-10; 5; 5; 5; 5; 5; 0; -10];
        [-10; 0; 5; 0; 0; 0; 0; -10];
        [-20; -10; -10; -5; -5; -10; -10; -20] ]
  | King =>
      [ [-30; -40; -40; -50; -50; -40; -40; -30];
        [-30; -40; -40; -50; -50; -40; -40; -30];
        [-30; -40; -40; -50; -50; -40; -40; -30];
        [-30; -40; -40; -50; -50; -40; -40; -30];
        [-20; -30; -30; -40; -40; -30; -30; -20];
        [-10; -20; -20; -20; -20; -20; -20; -10];
        [20; 20; 0; 0; 0; 0; 20; 20];
        [20; 30; 10; 0; 0; 10; 30; 20] ]
  end.

(** [PST[type][r][c]], read only with [r] and [c] of the grid. *)
Definition pstAt (t : PieceType) (r c : Z) : Z :=
  nth (Z.to_nat c) (nth (Z.to_nat r) (PST t) []) 0.

(** The body of the inner loop of [evaluateBoard]: [score] after the cell
    at [(r, c)]. *)
Definition evalCell (boardState : Board) (r : Z) (score : Z) (c : Z) : Z :=
  match getSq boardState r c with
  | None => score
  | Some piece =>
      let type := ptype piece in
      let val := PIECE_VALUES type in
      let pstVal :=
        match pcolor piece with
        | Black => pstAt type r c
        | White => pstAt type (7 - r) c
        end in
      match pcolor piece with
      | Black => score + (val + pstVal)
      | White => score - (val + pstVal)
      end
  end.

Definition evaluateBoard (boardState : Board) : Z :=
  fold_left
    (fun score r => fold_left (evalCell boardState r) range8 score)
    range8 0.

(* ================================================================== *)
(** * Search engine: [minimax] *)
(* ================================================================== *)

(** The numbers of the search: integer scores, and the [-Infinity] and
    [Infinity] that the bounds and the running best start from. *)
Inductive Num : Set := NegInf | Fin (z : Z) | PosInf.

(** [x <= y] *)
Definition numLeb (x y : Num) : bool :=
  match x, y with
  | NegInf, _ => true
  | _, PosInf => true
  | Fin a, Fin b => a <=? b
  | _, _ => false
  end.

(** [Math.max(x, y)] and [Math.min(x, y)] *)
Definition numMax (x y : Num) : Num := if numLeb x y then y else x.
Definition numMin (x y : Num) : Num := if numLeb x y then x else y.

(** The position a search node hands to its child: the block "Execute move
    on newBoard" of [minimax], on copies of the node's board and rights.
    The moves of the loop start on an occupied square ([pseudo_from_occupied]);
    on an empty one the script would stop with a TypeError at [fromPiece[1]]. *)
Definition searchBoard (boardState : Board) (move : Move) : Board :=
  let fr := row (mfrom move) in
  let fc := col (mfrom move) in
  let tr := row (mto move) in
  let tc := col (mto move) in
  let fromPiece := getSq boardState fr fc in
  let b1 := setSq (setSq boardState tr tc fromPiece) fr fc None in
  let b2 := if isSpecial move EnPassant then setSq b1 fr tc None else b1 in
  let b3 := relocateRook b2 move in
  (* Auto-promote to queen for AI *)
  match fromPiece with
  | Some p =>
      if PieceType_eqb (ptype p) Pawn && ((tr =? 0) || (tr =? 7))
      then setSq b3 tr tc (Some (mkPiece (pcolor p) Queen))
      else b3
  | None => b3
  end.

Definition searchRights (boardState : Board) (castleR : CastlingRights) (color : Color)
           (move : Move) : CastlingRights :=
  match getSq boardState (row (mfrom move)) (col (mfrom move)) with
  | Some p => updateRights castleR color (ptype p) (col (mfrom move))
  | None => castleR
  end.

(** The search's view of the globals while it gathers moves:
    [board = boardState; castlingRights = castleR; enPassantTarget = epTarget]. *)
Definition swapIn (boardState : Board) (castleR : CastlingRights) (epTarget : option Square)
           (st : GameState) : GameState :=
  set_enPassantTarget epTarget (set_castlingRights castleR (set_board boardState st)).

Section SearchLoops.
(** The recursive call of [minimax] one level down, given the child's
    board, bounds, rights and en-passant target. *)
Variable child : Board -> Num -> Num -> CastlingRights -> option Square
                 -> GameState -> Num * GameState.
Variable boardState : Board.
Variable castleR : CastlingRights.
Variable color : Color.

(** [for (const move of moves)] of the maximizing side, with its [break]. *)
Fixpoint loopMax (moves : list Move) (maxEval alpha beta : Num) (st : GameState)
  : Num * GameState :=
  match moves with
  | [] => (maxEval, st)
  | move :: rest =>
      let '(evalScore, st1) :=
        child (searchBoard boardState move) alpha beta
              (searchRights boardState castleR color move) (epAfter move) st in
      let maxEval1 := numMax maxEval evalScore in
      let alpha1 := numMax alpha evalScore in
      if numLeb beta alpha1 then (maxEval1, st1)
      else loopMax rest maxEval1 alpha1 beta st1
  end.

(** The same loop of the minimizing side. *)
Fixpoint loopMin (moves : list Move) (minEval alpha beta : Num) (st : GameState)
  : Num * GameState :=
  match moves with
  | [] => (minEval, st)
  | move :: rest =>
      let '(evalScore, st1) :=
        child (searchBoard boardState move) alpha beta
              (searchRights boardState castleR color move) (epAfter move) st in
      let minEval1 := numMin minEval evalScore in
      let beta1 := numMin beta evalScore in
      if numLeb beta1 alpha then (minEval1, st1)
      else loopMin rest minEval1 alpha beta1 st1
  end.
End SearchLoops.

(** [minimax(boardState, depth, alpha, beta, isMaximizing, currentTurn,
    castleR, epTarget)].  [depth] is a count of plies, a natural number at
    every call of the script.  The function reads and writes the globals, so
    it takes the state and returns it beside the score. *)
Fixpoint minimax (depth : nat) (boardState : Board) (alpha beta : Num)
         (isMaximizing : bool) (currentTurn : Color)
         (castleR : CastlingRights) (epTarget : option Square)
         (st : GameState) {struct depth} : Num * GameState :=
  match depth with
  | O => (Fin (evaluateBoard boardState), st)
  | S depth' =>
      let color := if isMaximizing then Black else White in
      (* Gather pseudo-legal moves for this color *)
      let savedBoard := board st in
      let savedCR := castlingRights st in
      let savedEP := enPassantTarget st in
      let st1 := swapIn boardState castleR epTarget st in
      let moves := getLegalMoves st1 color in
      let st2 := swapIn savedBoard savedCR savedEP st1 in
      match moves with
      | [] =>
          let kPos := findKing boardState color in
          if isSquareAttacked (row kPos) (col kPos) color boardState then
            (Fin (if isMaximizing
                  then -99999 + (3 - Z.of_nat depth)
                  else 99999 - (3 - Z.of_nat depth)), st2)
          else (Fin 0, st2)
      | _ :: _ =>
          if isMaximizing then
            loopMax
              (fun b a be cr ep s => minimax depth' b a be false (enemyOf color) cr ep s)
              boardState castleR color moves NegInf alpha beta st2
          else
            loopMin
              (fun b a be cr ep s => minimax depth' b a be true (enemyOf color) cr ep s)
              boardState castleR color moves PosInf alpha beta st2
      end
  end.

(* ================================================================== *)
(** * Difficulty policy: [ELO_CONFIG] and [fallbackAIMove] *)
(* ================================================================== *)

(** An entry of [ELO_CONFIG].  [blunderRate] and the draws of
    [Math.random()] are doubles in the script; the model takes a double as
    the rational it is: a decimal literal of the script is the double
    nearest to it, [0.3] being [5404319552844595 / 2^54]. *)
Record Config : Set := mkConfig { depth : nat; blunderRate : Q; name : string }.

(** The doubles that the literals [0.3], [0.2], [0.08] and [0.03] denote;
    [0.5] and [0.0] are exact. *)
Definition double_0_3 : Q := 5404319552844595 # 18014398509481984.
Definition double_0_2 : Q := 3602879701896397 # 18014398509481984.
Definition double_0_08 : Q := 5764607523034235 # 72057594037927936.
Definition double_0_03 : Q := 1080863910568919 # 36028797018963968.

Definition ELO_CONFIG (elo : Z) : option Config :=
  if elo =? 250 then Some (mkConfig 1 (1 # 2) "Martin")
  else if elo =? 500 then Some (mkConfig 1 double_0_3 "Elena")
  else if elo =? 800 then Some (mkConfig 2 double_0_2 "Danny")
  else if elo =? 1100 then Some (mkConfig 2 double_0_08 "Isabel")
  else if elo =? 1400 then Some (mkConfig 3 double_0_03 "Li")
  else if elo =? 1800 then Some (mkConfig 3 0 "Magnus")
  else None.

(** [const config = ELO_CONFIG[aiElo] || ELO_CONFIG[800]] of [makeAIMove],
    the one caller of [fallbackAIMove]. *)
Definition configFor (aiElo : Z) : Config :=
  match ELO_CONFIG aiElo with
  | Some config => config
  | None => mkConfig 2 double_0_2 "Danny"
  end.

(** [{ move: m, score }] *)
Record ScoredMove : Set := mkScored { sm_move : Move; sm_score : Num }.

(** The callback of [moves.map] in [fallbackAIMove], for each move in turn:
    the move is played on a copy of the global board (no rights are revoked
    on the copy of [castlingRights] here) and scored by [minimax] for white,
    the minimizing side, with the full window. *)
Fixpoint scoreMoves (d : nat) (moves : list Move) (st : GameState)
  : list ScoredMove * GameState :=
  match moves with
  | [] => ([], st)
  | m :: rest =>
      let '(score, st1) :=
        minimax d (searchBoard (board st) m) NegInf PosInf false White
                (castlingRights st) (epAfter m) st in
      let '(scored, st2) := scoreMoves d rest st1 in
      (mkScored m score :: scored, st2)
  end.

(** The sign of [x - y]; [Infinity - Infinity] is [NaN], which a sort
    comparator's caller treats as 0. *)
Definition diffSign (x y : Num) : comparison :=
  match x, y with
  | Fin a, Fin b => a ?= b
  | PosInf, PosInf | NegInf, NegInf => Eq
  | PosInf, _ | _, NegInf => Gt
  | NegInf, _ | _, PosInf => Lt
  end.

(** [(a, b) => b.score - a.score] *)
Definition byScoreDesc (a b : ScoredMove) : comparison :=
  diffSign (sm_score b) (sm_score a).

(** [Array.prototype.sort] is stable: of two entries the comparator does not
    tell apart, the one that came first stays first.  [insertScored] puts an
    entry that came before every entry of a sorted list in its place. *)
Fixpoint insertScored (x : ScoredMove) (l : list ScoredMove) : list ScoredMove :=
  match l with
  | [] => [x]
  | y :: ys =>
      match byScoreDesc x y with
      | Gt => y :: insertScored x ys
      | _ => x :: y :: ys
      end
  end.

Definition sortScored (l : list ScoredMove) : list ScoredMove :=
  fold_right insertScored [] l.

(** [x - 10] *)
Definition numMinus10 (x : Num) : Num :=
  match x with
  | Fin z => Fin (z - 10)
  | other => other
  end.

(** [Math.random() < rate]: the comparison of two doubles is the comparison
    of the rationals they are. *)
Definition Qltb (x y : Q) : bool := negb (Qle_bool y x).

(** Is the rational [u] a double of [[0, 2^53)]?  In lowest terms it is
    then [m / 2^k] with [0 <= m < 2^53] and [k <= 1074]; every value of
    [Math.random()] is one. *)
Definition isDouble (u : Q) : bool :=
  let r := Qred u in
  let k := Z.log2 (Zpos (Qden r)) in
  (Zpos (Qden r) =? 2 ^ k) && (k <=? 1074) && (0 <=? Qnum r) && (Qnum r <? 2 ^ 53).

(** The integer with 53 significant bits nearest to [M], the even one of
    two equally near: the rounding of the double arithmetic. *)
Definition roundMantissa (M : Z) : Z :=
  if M <? 2 ^ 53 then M
  else
    let s := Z.log2 M - 52 in
    let q := M / 2 ^ s in
    let r := M mod 2 ^ s in
    let half := 2 ^ (s - 1) in
    (if r <? half then q
     else if half <? r then q + 1
     else if Z.even q then q else q + 1) * 2 ^ s.

(** [Math.random() * list.length]: the product of the double [u = m / 2^k]
    and the integer [n], rounded to the nearest double.  The exact product
    is [m * n / 2^k]; with [m * n < 2^53] it is a double itself, and
    otherwise its numerator is rounded to 53 significant bits.  A rational
    that is no double, which [Math.random()] never returns, is multiplied as
    it is. *)
Definition timesLength (u : Q) (n : Z) : Q :=
  if isDouble u
  then roundMantissa (Qnum (Qred u) * n) # Qden (Qred u)
  else u * inject_Z n.

(** [2^-53]: the rounding moves a number by no more than this part of it. *)
Definition roundingUnit : Q := 1 # 9007199254740992.

(** [list[Math.floor(Math.random() * list.length)]]; [None] is the
    [undefined] of an index outside the list. *)
Definition pickAt {A : Type} (l : list A) (u : Q) : option A :=
  let i := Qfloor (timesLength u (Z.of_nat (length l))) in
  if i <? 0 then None else nth_error l (Z.to_nat i).

(** The entry of the sorted list that [fallbackAIMove] settles on, given the
    two draws it makes: the one compared with [blunderRate], then the one
    that indexes the chosen sublist. *)
Definition chooseScored (config : Config) (scoredMoves : list ScoredMove) (u1 u2 : Q)
  : option ScoredMove :=
  if Qltb u1 (blunderRate config) && (1 <? length scoredMoves)%nat then
    let bottomHalf := skipn (length scoredMoves / 2)%nat scoredMoves in
    pickAt bottomHalf u2
  else
    match scoredMoves with
    | [] => None
    | best :: _ =>
        let bestScore := sm_score best in
        let topMoves :=
          filter (fun m => numLeb (numMinus10 bestScore) (sm_score m)) scoredMoves in
        pickAt topMoves u2
    end.

(** [scoredMoves] after the sort, and the globals after the scoring.  Every
    config of [ELO_CONFIG] has a depth of at least 1; [config.depth - 1] is
    then the natural number [depth config - 1]. *)
Definition scoredSorted (config : Config) (st : GameState) : list ScoredMove * GameState :=
  let '(scored, st1) := scoreMoves (depth config - 1) (getLegalMoves st Black) st in
  (sortScored scored, st1).

(** [chosenMove], when there is a legal move. *)
Definition chosenMove (config : Config) (u1 u2 : Q) (st : GameState) : option Move :=
  option_map sm_move (chooseScored config (fst (scoredSorted config st)) u1 u2).

(** [fallbackAIMove(config)] with the two draws of [Math.random()] it makes. *)
Definition fallbackAIMove (config : Config) (u1 u2 : Q) (st : GameState)
  : Outcome GameState :=
  match getLegalMoves st Black with
  | [] => Returned st
  | _ :: _ =>
      match chosenMove config u1 u2 st with
      | Some m => makeMove m None (snd (scoredSorted config st))
      | None => Thrown TypeError
      end
  end.

(* ================================================================== *)
(** * Position serialisation: [boardToFEN] *)
(* ================================================================== *)

(** A number appended to a string: its decimal digits, the counters of a
    game being integers far below [2^53]. *)
Definition numStr (z : Z) : string := NilZero.string_of_int (Z.to_int z).

(** [pieceMap[piece[1]]] *)
Definition pieceLetter (t : PieceType) : ascii :=
  match t with
  | Pawn => "p" | Rook => "r" | Knight => "n"
  | Bishop => "b" | Queen => "q" | King => "k"
  end%char.

(** [ch.toUpperCase()] on a one-letter string. *)
Definition toUpperCase (ch : ascii) : ascii :=
  let n := nat_of_ascii ch in
  if ((97 <=? n) && (n <=? 122))%nat then ascii_of_nat (n - 32) else ch.

Definition str1 (ch : ascii) : string := String ch EmptyString.

(** The body of the inner loop of [boardToFEN] on the pair of [fen] and
    [emptyCount]. *)
Definition fenCell (b : Board) (r : Z) (acc : string * Z) (c : Z) : string * Z :=
  let '(fen, emptyCount) := acc in
  match getSq b r c with
  | None => (fen, emptyCount + 1)
  | Some piece =>
      let '(fen1, emptyCount1) :=
        if 0 <? emptyCount then (append fen (numStr emptyCount), 0) else (fen, emptyCount) in
      let ch := pieceLetter (ptype piece) in
      (append fen1 (str1 (match pcolor piece with White => toUpperCase ch | Black => ch end)),
       emptyCount1)
  end.

(** The body of the outer loop. *)
Definition fenRow (b : Board) (fen : string) (r : Z) : string :=
  let '(fen1, emptyCount) := fold_left (fenCell b r) range8 (fen, 0) in
  let fen2 := if 0 <? emptyCount then append fen1 (numStr emptyCount) else fen1 in
  if r <? 7 then append fen2 "/" else fen2.

Definition castlingToken (cr : CastlingRights) : string :=
  let castling := EmptyString in
  let castling := if kingSide (white cr) then append castling "K" else castling in
  let castling := if queenSide (white cr) then append castling "Q" else castling in
  let castling := if kingSide (black cr) then append castling "k" else castling in
  let castling := if queenSide (black cr) then append castling "q" else castling in
  (* castling || "-" *)
  match castling with
  | EmptyString => "-"%string
  | _ => castling
  end.

(** [String.fromCharCode(97 + c)], for the character codes below 256; the
    columns of an en-passant target give ["a"] to ["h"]. *)
Definition fromCharCode (n : Z) : ascii := ascii_of_nat (Z.to_nat n).

Definition boardToFEN (st : GameState) : string :=
  let fen := fold_left (fenRow (board st)) range8 EmptyString in
  (* Active color *)
  let fen := append fen (append " " (match turn st with White => "w" | Black => "b" end)) in
  (* Castling availability *)
  let fen := append fen (append " " (castlingToken (castlingRights st))) in
  (* En passant target square *)
  let fen :=
    match enPassantTarget st with
    | Some ep =>
        let file := str1 (fromCharCode (97 + col ep)) in
        let rank := 8 - row ep in
        append fen (append (append " " file) (numStr rank))
    | None => append fen " -"
    end in
  (* Half-move clock and full move number *)
  let fen := append fen (append " " (numStr (halfMoveClock st))) in
  append fen (append " " (numStr (Z.max 1 (moveCount st)))).

(* ------------------------------------------------------------------ *)
(** ** The line as the interface describes it *)

(** A rank is a sequence of runs of empty squares and of pieces. *)
Inductive FenToken : Set :=
| Empties (n : Z)
| Occupied (p : Piece).

(** The cells of a rank grouped into maximal runs of empty squares. *)
Fixpoint rankTokens (cells : list Cell) : list FenToken :=
  match cells with
  | [] => []
  | Some p :: rest => Occupied p :: rankTokens rest
  | None :: rest =>
      match rankTokens rest with
      | Empties n :: ts => Empties (n + 1) :: ts
      | ts => Empties 1 :: ts
      end
  end.

(** A run is written as its length, a piece as its letter: upper case for
    white, lower case for black. *)
Definition tokenText (t : FenToken) : string :=
  match t with
  | Empties n => numStr n
  | Occupied p =>
      match pcolor p, ptype p with
      | White, Pawn => "P" | White, Rook => "R" | White, Knight => "N"
      | White, Bishop => "B" | White, Queen => "Q" | White, King => "K"
      | Black, Pawn => "p" | Black, Rook => "r" | Black, Knight => "n"
      | Black, Bishop => "b" | Black, Queen => "q" | Black, King => "k"
      end%string
  end.

Definition rankText (b : Board) (r : Z) : string :=
  String.concat EmptyString (map tokenText (rankTokens (map (getSq b r) range8))).

Definition placementField (b : Board) : string :=
  String.concat "/" (map (rankText b) range8).

Definition sideField (t : Color) : string :=
  match t with White => "w" | Black => "b" end.

(** The letters of [KQkq] whose right is held, or ["-"] when none is. *)
Definition castlingField (cr : CastlingRights) : string :=
  let held :=
    filter fst
      [ (kingSide (white cr), "K"%char); (queenSide (white cr), "Q"%char);
        (kingSide (black cr), "k"%char); (queenSide (black cr), "q"%char) ] in
  match held with
  | [] => "-"%string
  | _ => string_of_list_ascii (map snd held)
  end.

(** File letter (['a' + column]) and rank digit ([8 - row]), or ["-"]. *)
Definition enPassantField (ep : option Square) : string :=
  match ep with
  | Some s => String (ascii_of_nat (Z.to_nat (Z.of_nat (nat_of_ascii "a") + col s)))
                     (numStr (8 - row s))
  | None => "-"%string
  end.

(** The six fields, in their order, separated by single spaces. *)
Definition fenFields (st : GameState) : list string :=
  [ placementField (board st);
    sideField (turn st);
    castlingField (castlingRights st);
    enPassantField (enPassantTarget st);
    numStr (halfMoveClock st);
    numStr (Z.max 1 (moveCount st)) ].

Definition fenLine (st : GameState) : string := String.concat " " (fenFields st).

(* ================================================================== *)
(** * Definitions used to state the properties *)
(* ================================================================== *)

(** A move that starts on [(r, c)]. *)
Definition startsAt (r c : Z) (m : Move) : Prop := mfrom m = mkSquare r c.

(** A move from [(r, c)] that is no castling move. *)
Definition plainFrom (r c : Z) (m : Move) : Prop :=
  startsAt r c m /\ special m <> Some CastleKs /\ special m <> Some CastleQs.

Definition notEnPassant (m : Move) : Prop := special m <> Some EnPassant.

(** Is [(r, c)] a slot of the grid as it is stored? *)
Definition inGrid (b : Board) (r c : Z) : bool :=
  (0 <=? r) && (0 <=? c)
  && (Z.to_nat r <? length b)%nat
  && (Z.to_nat c <? length (nth (Z.to_nat r) b []))%nat.

(** The squares of the grid that hold [color]'s king. *)
Definition kingSquares (b : Board) (color : Color) : list Square :=
  filter (fun s => cellIs (getSq b (row s) (col s)) color King) allSquares.

Definition e2e4 : Move := mkMove (mkSquare 6 4) (mkSquare 4 4) (Some DoublePush).
Definition e7e5 : Move := mkMove (mkSquare 1 4) (mkSquare 3 4) (Some DoublePush).

(** The column the king passes over. *)
Definition transitCol (m : Move) : Z :=
  if isSpecial m CastleKs then col (mfrom m) + 1 else col (mfrom m) - 1.

(** A position in which white may castle on the king's side: the opening
    position without white's king's bishop and king's knight. *)
Definition castleBoard : Board :=
  setSq (setSq initialBoard 7 5 None) 7 6 None.

Definition castleState : GameState := set_board castleBoard (initGame Pvp).

Definition whiteCastlesKs : Move := mkMove (mkSquare 7 4) (mkSquare 7 6) (Some CastleKs).

(** White's e-pawn one step from row 0, black's king out of its way. *)
Definition promotionBoard : Board :=
  setSq (setSq (setSq initialBoard 1 4 (wp Pawn)) 0 4 None) 0 3 (bp King).

Definition promotionState : GameState := set_board promotionBoard (initGame Pvp).

Definition e7e8 : Move := mkMove (mkSquare 1 4) (mkSquare 0 4) None.

(** The material value of a piece type, as the interface lists them. *)
Definition materialValue (t : PieceType) : Z :=
  match t with
  | Pawn => 100
  | Knight => 320
  | Bishop => 330
  | Rook => 500
  | Queen => 900
  | King => 20000
  end.

(** The tables are read as they stand for black, the computer's side, and
    with the row mirrored for white. *)
Definition tableRow (side : Color) (r : Z) : Z :=
  match side with
  | Black => r
  | White => 7 - r
  end.

(** Positive for the computer's side, negative for its opponent. *)
Definition sideSign (side : Color) : Z :=
  match side with
  | Black => 1
  | White => -1
  end.

Definition occupied (b : Board) (s : Square) : bool :=
  negb (cellEmpty (getSq b (row s) (col s))).

(** What the piece on a square adds to the score. *)
Definition pieceTerm (b : Board) (s : Square) : Z :=
  match getSq b (row s) (col s) with
  | Some p =>
      sideSign (pcolor p)
      * (materialValue (ptype p) + pstAt (ptype p) (tableRow (pcolor p) (row s)) (col s))
  | None => 0
  end.

Definition sumZ (l : list Z) : Z := fold_right Z.add 0 l.

Definition materialAndPosition (b : Board) : Z :=
  sumZ (map (pieceTerm b) (filter (occupied b) allSquares)).

Definition noRights : CastlingRights :=
  mkCastlingRights (mkSideRights false false) (mkSideRights false false).

(** White's king on a1 mated by the queen on b2 that the king on c3 guards. *)
Definition mateBoard : Board :=
  setSq (setSq (setSq emptyBoard 7 0 (wp King)) 6 1 (bp Queen)) 5 2 (bp King).

(** The same king on a1 with the queen on b3: no check, and no move. *)
Definition stalemateBoard : Board :=
  setSq (setSq (setSq emptyBoard 7 0 (wp King)) 5 1 (bp Queen)) 0 7 (bp King).


(** The default tier. *)
Definition danny : Config := configFor 800.

(** The tokens of a rank that is entered with [cnt] empty squares counted. *)
Definition withRun (cnt : Z) (ts : list FenToken) : list FenToken :=
  if cnt =? 0 then ts
  else match ts with
       | Empties n :: ts' => Empties (n + cnt) :: ts'
       | _ => Empties cnt :: ts
       end.

Definition tokensText (ts : list FenToken) : string :=
  String.concat EmptyString (map tokenText ts).

(** The inner loop of [boardToFEN] on the cells themselves. *)
Definition fenStep (acc : string * Z) (x : Cell) : string * Z :=
  let '(fen, emptyCount) := acc in
  match x with
  | None => (fen, emptyCount + 1)
  | Some piece =>
      let '(fen1, emptyCount1) :=
        if 0 <? emptyCount then (append fen (numStr emptyCount), 0) else (fen, emptyCount) in
      let ch := pieceLetter (ptype piece) in
      (append fen1 (str1 (match pcolor piece with White => toUpperCase ch | Black => ch end)),
       emptyCount1)
  end.

Definition flush (acc : string * Z) : string :=
  let '(fen, emptyCount) := acc in
  if 0 <? emptyCount then append fen (numStr emptyCount) else fen.

Definition lineChar (ch : ascii) : bool := negb (Ascii.eqb ch "010"%char).

(** No character of the string is a line feed. *)
Definition singleLine (s : string) : bool := forallb lineChar (list_ascii_of_string s).

(** A run of empty squares of a rank of [n] cells counts between 1 and [n]
    squares: on the grid, one digit from 1 to 8. *)
Definition runWithin (n : Z) (t : FenToken) : Prop :=
  match t with
  | Empties k => 1 <= k <= n
  | Occupied _ => True
  end.

(** White's e-pawn on e5, black to move: the position before 1... d5. *)
Definition enPassantState : GameState :=
  mkGameState (setSq (setSq initialBoard 6 4 None) 3 4 (wp Pawn))
              Black Pvp (mkCaptured [] []) 3 0 allRights None None.

Definition d7d5 : Move := mkMove (mkSquare 1 3) (mkSquare 3 3) (Some DoublePush).
Definition e5d6 : Move := mkMove (mkSquare 3 4) (mkSquare 2 3) (Some EnPassant).

(* ================================================================== *)
(** * Further functions of the script *)
(* ================================================================== *)

(** ** The built-in branch of [getHint] *)

(** [score > bestScore], or [score < bestScore] read from right to left. *)
Definition numLtb (x y : Num) : bool := negb (numLeb y x).

(** The loop [for (const m of moves)] of the [else] branch of [getHint]:
    every move is played on a copy of the board (no rights are revoked on
    the copy of [castlingRights]) and scored by [minimax] at depth 3 with
    the full window for the other side; the first move of the best score is
    kept. *)
Fixpoint hintLoop (isBlack : bool) (moves : list Move) (bestMove : Move) (bestScore : Num)
         (st : GameState) : Move * Num * GameState :=
  match moves with
  | [] => (bestMove, bestScore, st)
  | m :: rest =>
      let '(score, st1) :=
        minimax 3 (searchBoard (board st) m) NegInf PosInf
                (if isBlack then false else true)
                (if isBlack then White else Black)
                (castlingRights st) (epAfter m) st in
      if isBlack then
        if numLtb bestScore score
        then hintLoop isBlack rest m score st1
        else hintLoop isBlack rest bestMove bestScore st1
      else
        if numLtb score bestScore
        then hintLoop isBlack rest m score st1
        else hintLoop isBlack rest bestMove bestScore st1
  end.

(** The [else] branch of [getHint], taken when Stockfish is not in use: the
    move whose squares are highlighted, [None] when the side to move has no
    legal move, and the globals after the search. *)
Definition getHintBuiltin (st : GameState) : option Move * GameState :=
  match getLegalMoves st (turn st) with
  | [] => (None, st)
  | (first :: _) as moves =>
      let isBlack := Color_eqb (turn st) Black in
      let '(bestMove, _, st1) :=
        hintLoop isBlack moves first (if isBlack then NegInf else PosInf) st in
      (Some bestMove, st1)
  end.

(** ** [uciToCoords] and the answer of the engine in [makeAIMove] *)

(** A number that may be [NaN]: [None]. *)
Definition JsNum : Set := option Z.

(** [uciMove.charCodeAt(i)]: [NaN] beyond the end of the string. *)
Definition charCodeAt (s : string) (i : nat) : JsNum :=
  option_map (fun ch => Z.of_nat (nat_of_ascii ch)) (String.get i s).

(** [parseInt(uciMove[i])] on a single character: its value when it is a
    decimal digit, [NaN] otherwise and beyond the end of the string. *)
Definition parseIntAt (s : string) (i : nat) : JsNum :=
  match String.get i s with
  | Some ch =>
      let n := nat_of_ascii ch in
      if ((48 <=? n) && (n <=? 57))%nat then Some (Z.of_nat n - 48) else None
  | None => None
  end.

(** [{ from: { r, c }, to: { r, c }, promotion }] *)
Record Coords : Set := mkCoords {
  fromR : JsNum; fromC : JsNum; toR : JsNum; toC : JsNum;
  promotion : option ascii
}.

Definition uciToCoords (uciMove : string) : Coords :=
  mkCoords
    (option_map (fun n => 8 - n) (parseIntAt uciMove 1))
    (option_map (fun n => n - 97) (charCodeAt uciMove 0))
    (option_map (fun n => 8 - n) (parseIntAt uciMove 3))
    (option_map (fun n => n - 97) (charCodeAt uciMove 2))
    (if (4 <? String.length uciMove)%nat then String.get 4 uciMove else None).

(** [x === y] of a number of a move and a number that may be [NaN]. *)
Definition jsEq (x : Z) (y : JsNum) : bool :=
  match y with
  | Some z => x =? z
  | None => false
  end.

(** The predicate of [legalMoves.find] in [makeAIMove]. *)
Definition sameSquares (coords : Coords) (m : Move) : bool :=
  jsEq (row (mfrom m)) (fromR coords) && jsEq (col (mfrom m)) (fromC coords)
  && jsEq (row (mto m)) (toR coords) && jsEq (col (mto m)) (toC coords).

(** What the handler of the engine's answer in [makeAIMove] goes on to call:
    [makeMove(move, coords.promotion)] (or [makeMove(move)] without a
    promotion letter), or [fallbackAIMove(config)]. *)
Inductive OracleDecision : Set :=
| Play (move : Move) (promo : option ascii)
| Fallback.

(** The [then] handler of [makeAIMove] with its [catch]: an answer without a
    move ([uciMove] undefined, [None]) stops [uciToCoords] with a TypeError,
    which the [catch] turns into the fallback. *)
Definition oracleDecision (uciMove : option string) (st : GameState) : OracleDecision :=
  match uciMove with
  | None => Fallback
  | Some uci =>
      let coords := uciToCoords uci in
      match find (sameSquares coords) (getLegalMoves st Black) with
      | Some move => Play move (promotion coords)
      | None => Fallback
      end
  end.

(** ** The check for the end of the game in [makeMove] *)

Inductive GameStatus : Set :=
| InProgress
| Checkmate (winner : Color)
| Stalemate.

(** "Check Game Over" in the callback that [makeMove] hands to
    [animateMove]: what it finds for the side whose turn it has become. *)
Definition checkGameOver (st : GameState) : GameStatus :=
  match getLegalMoves st (turn st) with
  | [] =>
      let k := findKing (board st) (turn st) in
      if isSquareAttacked (row k) (col k) (turn st) (board st)
      then Checkmate (enemyOf (turn st))
      else Stalemate
  | _ :: _ => InProgress
  end.

(** ** [handleSquareClick] *)

(** The predicate of [legalMoves.find] in [handleSquareClick]: the move
    from the selected square to the clicked one. *)
Definition fromTo (sel : Square) (r c : Z) (m : Move) : bool :=
  (row (mfrom m) =? row sel) && (col (mfrom m) =? col sel)
  && (row (mto m) =? r) && (col (mto m) =? c).

(** [selectSquare(row, col)]: the square becomes the selected one, and the
    landing square of every legal move of the side to move that starts on
    it gets a highlight.  [renderBoard] draws the squares [sq-r-c] of the
    grid and no others, so [document.getElementById] answers [null] for a
    landing square beside the grid, and [targetSq.appendChild] then stops
    with a TypeError. *)
Definition selectSquare (r c : Z) (st : GameState) : Outcome (option Square) :=
  let moves := getLegalMoves st (turn st) in
  let pieceMoves :=
    filter (fun m => (row (mfrom m) =? r) && (col (mfrom m) =? c)) moves in
  if forallb (fun m => isValidSquare (row (mto m)) (col (mto m))) pieceMoves
  then Returned (Some (mkSquare r c))
  else Thrown TypeError.

(** The two places of [handleSquareClick] that look at the clicked cell:
    [selectSquare] is called when it holds a piece of the side to move. *)
Definition selectOwn (r c : Z) (st : GameState) : Outcome (option Square * GameState) :=
  if cellHasColor (getSq (board st) r c) (turn st) then
    match selectSquare r c st with
    | Returned sel => Returned (sel, st)
    | Thrown e => Thrown e
    end
  else Returned (None, st).

(** [handleSquareClick(e)] for a click on the square [(r, c)] of the
    rendered board, with the globals [isGameOver] and [selectedSquare] of
    the presentation layer: the selection and the globals it leaves.  With
    no selection a click on another cell than a piece of the side to move
    leaves [selectedSquare] as it is, which is [null]. *)
Definition handleSquareClick (isGameOver : bool) (selectedSquare : option Square)
           (r c : Z) (st : GameState) : Outcome (option Square * GameState) :=
  if isGameOver then Returned (selectedSquare, st)
  else
    match selectedSquare with
    | Some sel =>
        if (row sel =? r) && (col sel =? c) then Returned (None, st)
        else
          match find (fromTo sel r c) (getLegalMoves st (turn st)) with
          | Some move =>
              match makeMove move None st with
              | Returned st' => Returned (None, st')
              | Thrown e => Thrown e
              end
          | None => selectOwn r c st
          end
    | None => selectOwn r c st
    end.

(* ================================================================== *)
(** * Definitions used to state further properties *)
(* ================================================================== *)

Definition maxOf (l : list Num) : Num := fold_right numMax NegInf l.
Definition minOf (l : list Num) : Num := fold_right numMin PosInf l.

(** The search of [minimax] without its bounds: every move of every node is
    tried, and a node takes the greatest (the maximizing side) or the least
    (the minimizing side) of its children's values.  Leaves and nodes
    without a legal move are valued as in [minimax]. *)
Fixpoint exhaustive (depth : nat) (boardState : Board) (isMaximizing : bool)
         (castleR : CastlingRights) (epTarget : option Square) : Num :=
  match depth with
  | O => Fin (evaluateBoard boardState)
  | S depth' =>
      let color := if isMaximizing then Black else White in
      let moves := getLegalMoves (swapIn boardState castleR epTarget (initGame Pvp)) color in
      match moves with
      | [] =>
          let kPos := findKing boardState color in
          if isSquareAttacked (row kPos) (col kPos) color boardState then
            Fin (if isMaximizing
                 then -99999 + (3 - Z.of_nat depth)
                 else 99999 - (3 - Z.of_nat depth))
          else Fin 0
      | _ :: _ =>
          let child move :=
            exhaustive depth' (searchBoard boardState move) (negb isMaximizing)
                       (searchRights boardState castleR color move) (epAfter move) in
          if isMaximizing then maxOf (map child moves) else minOf (map child moves)
      end
  end.

(** What a score [r] returned for the window [(alpha, beta)] tells about the
    value [v] of the exhaustive search: at or below [alpha] it is an upper
    bound, at or above [beta] a lower bound, and strictly between them it is
    the value. *)
Definition withinWindow (alpha beta r v : Num) : Prop :=
  (numLeb r alpha = true -> numLeb v r = true)
  /\ (numLeb beta r = true -> numLeb r v = true)
  /\ (numLeb r alpha = false -> numLeb beta r = false -> r = v).

(** The value [getHint] scores a move with. *)
Definition hintValue (st : GameState) (m : Move) : Num :=
  fst (minimax 3 (searchBoard (board st) m) NegInf PosInf
               (negb (Color_eqb (turn st) Black)) (enemyOf (turn st))
               (castlingRights st) (epAfter m) st).

(** The other side's piece of the same type. *)
Definition swapSide (x : Cell) : Cell :=
  option_map (fun p => mkPiece (enemyOf (pcolor p)) (ptype p)) x.

(** The board seen from the other side: rows in reverse order, colours
    exchanged. *)
Definition mirrorBoard (b : Board) : Board := map (map swapSide) (rev b).

(** The squares a committed move may write to: its two squares, the square
    of the pawn taken en passant, and the two squares of the rook's half of
    castling. *)
Definition touchedSquares (m : Move) : list (Z * Z) :=
  let fr := row (mfrom m) in
  [ (fr, col (mfrom m)); (row (mto m), col (mto m)) ]
  ++ (if isSpecial m EnPassant then [ (fr, col (mto m)) ] else [])
  ++ (if isSpecial m CastleKs then [ (fr, 5); (fr, 7) ] else [])
  ++ (if isSpecial m CastleQs then [ (fr, 3); (fr, 0) ] else []).

(** The name [boardToFEN] writes for a square: file letter and rank. *)
Definition squareName (s : Square) : string :=
  append (str1 (fromCharCode (97 + col s))) (numStr (8 - row s)).

(** [cr'] holds no right that [cr] does not hold. *)
Definition rightsWithin (cr' cr : CastlingRights) : Prop :=
  forall color,
    (kingSide (rightsOf cr' color) = true -> kingSide (rightsOf cr color) = true)
    /\ (queenSide (rightsOf cr' color) = true -> queenSide (rightsOf cr color) = true).

(** Each list of captured pieces holds pieces of its own colour only. *)
Definition ledgerSorted (cp : Captured) : Prop :=
  Forall (fun p => pcolor p = White) (cap_w cp)
  /\ Forall (fun p => pcolor p = Black) (cap_b cp).

(** [cp'] is [cp] with pieces added at the end of its lists. *)
Definition ledgerExtends (cp' cp : Captured) : Prop :=
  (exists more, cap_w cp' = cap_w cp ++ more)
  /\ (exists more, cap_b cp' = cap_b cp ++ more).

(** The square [k] steps from [(r, c)] in the direction [d]. *)
Definition stepFrom (r c : Z) (d : Z * Z) (k : Z) : Z * Z :=
  (r + k * fst d, c + k * snd d).

(** The cell a move lands on, before the move. *)
Definition targetOf (st : GameState) (m : Move) : Cell :=
  getSq (board st) (row (mto m)) (col (mto m)).

(** A move that lands on the board and, unless it captures en passant, not
    on a piece of [color]. *)
Definition landsWell (st : GameState) (color : Color) (m : Move) : Prop :=
  isValidSquare (row (mto m)) (col (mto m)) = true
  /\ (special m <> Some EnPassant -> cellHasColor (targetOf st m) color = false).

Definition isCastle (m : Move) : Prop :=
  special m = Some CastleKs \/ special m = Some CastleQs.

(** The squares at the steps [1] to [k - 1] from [(r, c)] in the direction
    [d] are empty squares of the board. *)
Definition clearPath (b : Board) (r c : Z) (d : Z * Z) (k : Z) : Prop :=
  forall j, 1 <= j < k ->
    isValidSquare (fst (stepFrom r c d j)) (snd (stepFrom r c d j)) = true
    /\ getSq b (fst (stepFrom r c d j)) (snd (stepFrom r c d j)) = None.

(** 1 for a piece, 0 for an empty cell. *)
Definition occ (x : Cell) : Z := if cellEmpty x then 0 else 1.

(** The number of pieces on the squares of the board. *)
Definition pieceCount (b : Board) : Z :=
  sumZ (map (fun s => occ (getSq b (row s) (col s))) allSquares).

(** The number of pieces on the two lists of captured pieces. *)
Definition ledgerSize (cp : Captured) : Z :=
  Z.of_nat (length (cap_w cp)) + Z.of_nat (length (cap_b cp)).

(** Does the grid as it is stored have a slot for every square of the
    board? *)
Definition fullGrid (b : Board) : bool :=
  forallb (fun s => inGrid b (row s) (col s)) allSquares.

Definition sameSquare (r c : Z) (s : Square) : bool := (row s =? r) && (col s =? c).

(** ** Reading a FEN line back *)

(** The pieces of [s] between the occurrences of [sep]. *)
Fixpoint splitOn (sep : ascii) (s : string) : list string :=
  match s with
  | EmptyString => [EmptyString]
  | String ch rest =>
      if Ascii.eqb ch sep then EmptyString :: splitOn sep rest
      else match splitOn sep rest with
           | x :: xs => String ch x :: xs
           | [] => [String ch EmptyString]
           end
  end.

(** The [n]-th of the fields of a line that single spaces separate. *)
Definition fenField (n : nat) (line : string) : string :=
  nth n (splitOn " " line) EmptyString.

(** The cells a character of the placement field stands for: a piece for
    its letter, a run of empty cells for a digit. *)
Definition readCell (ch : ascii) : list Cell :=
  match ch with
  | "p" => [bp Pawn] | "r" => [bp Rook] | "n" => [bp Knight]
  | "b" => [bp Bishop] | "q" => [bp Queen] | "k" => [bp King]
  | "P" => [wp Pawn] | "R" => [wp Rook] | "N" => [wp Knight]
  | "B" => [wp Bishop] | "Q" => [wp Queen] | "K" => [wp King]
  | "1" => repeat None 1 | "2" => repeat None 2 | "3" => repeat None 3
  | "4" => repeat None 4 | "5" => repeat None 5 | "6" => repeat None 6
  | "7" => repeat None 7 | "8" => repeat None 8
  | _ => []
  end%char.

Definition readRank (s : string) : list Cell :=
  flat_map readCell (list_ascii_of_string s).

Definition readPlacement (field : string) : Board :=
  map readRank (splitOn "/" field).

Definition readSide (field : string) : option Color :=
  if String.eqb field "w" then Some White
  else if String.eqb field "b" then Some Black
  else None.

Definition hasLetter (ch : ascii) (s : string) : bool :=
  existsb (Ascii.eqb ch) (list_ascii_of_string s).

Definition readRights (field : string) : CastlingRights :=
  mkCastlingRights
    (mkSideRights (hasLetter "K" field) (hasLetter "Q" field))
    (mkSideRights (hasLetter "k" field) (hasLetter "q" field)).

(** Eight rows of eight cells. *)
Definition eightByEight (b : Board) : bool :=
  (length b =? 8)%nat && forallb (fun cells => (length cells =? 8)%nat) b.

(** No character of [s] is [sep]. *)
Definition freeOf (sep : ascii) (s : string) : bool :=
  forallb (fun ch => negb (Ascii.eqb ch sep)) (list_ascii_of_string s).

(** The cells a token of a rank stands for. *)
Definition expand (t : FenToken) : list Cell :=
  match t with
  | Empties n => repeat None (Z.to_nat n)
  | Occupied p => [Some p]
  end.

(** ** The positions of a game *)

(** The square a king starts the game on. *)
Definition homeSquare (color : Color) : Square :=
  match color with White => mkSquare 7 4 | Black => mkSquare 0 4 end.

Definition holdsRight (cr : CastlingRights) (color : Color) : bool :=
  kingSide (rightsOf cr color) || queenSide (rightsOf cr color).

(** A side that holds a castling right has no king off the square its king
    starts on. *)
Definition kingsAtHome (st : GameState) : Prop :=
  forall color s,
    holdsRight (castlingRights st) color = true ->
    In s allSquares ->
    getSq (board st) (row s) (col s) = Some (mkPiece color King) ->
    s = homeSquare color.

(** The positions that play reaches from the opening position: by
    [makeMove] on a legal move of the side to move, with or without a
    promotion choice, and by [handlePromotionChoice] on a pending legal move
    of the side to move.  The promotion dialog offers queen, rook, bishop
    and knight. *)
Inductive Reachable : GameState -> Prop :=
| reach_init (mode : GameMode) : Reachable (initGame mode)
| reach_move (st st' : GameState) (m : Move) (promotionChoice : option PieceType) :
    Reachable st ->
    In m (getLegalMoves st (turn st)) ->
    promotionChoice <> Some King ->
    makeMove m promotionChoice st = Returned st' ->
    Reachable st'
| reach_promotion (st st' : GameState) (m : Move) (type : PieceType) :
    Reachable st ->
    pendingPromotion st = Some m ->
    In m (getLegalMoves st (turn st)) ->
    type <> King ->
    handlePromotionChoice type st = Returned st' ->
    Reachable st'.

(** What holds of every position of a game. *)
Definition wellFormed (st : GameState) : Prop :=
  eightByEight (board st) = true
  /\ kingsAtHome st
  /\ pieceCount (board st) + ledgerSize (capturedPieces st) = 32
  /\ ledgerSorted (capturedPieces st)
  /\ 1 <= moveCount st
  /\ 0 <= halfMoveClock st.

(** ** A game that ends with the two kings side by side *)

Definition Special_eqb (a b : option Special) : bool :=
  match a, b with
  | None, None => true
  | Some DoublePush, Some DoublePush | Some EnPassant, Some EnPassant
  | Some CastleKs, Some CastleKs | Some CastleQs, Some CastleQs => true
  | _, _ => false
  end.

Definition Move_eqb (a b : Move) : bool :=
  (row (mfrom a) =? row (mfrom b)) && (col (mfrom a) =? col (mfrom b))
  && (row (mto a) =? row (mto b)) && (col (mto a) =? col (mto b))
  && Special_eqb (special a) (special b).

(** The moves of a line are played by [makeMove], one after the other, each
    being a legal move of the side to move; [None] when one of them is not
    or when [makeMove] does not return. *)
Fixpoint playLine (line : list Move) (st : GameState) : option GameState :=
  match line with
  | [] => Some st
  | m :: rest =>
      if existsb (Move_eqb m) (getLegalMoves st (turn st)) then
        match makeMove m None st with
        | Returned st' => playLine rest st'
        | Thrown _ => None
        end
      else None
  end.

Definition plainMove (r c r' c' : Z) : Move := mkMove (mkSquare r c) (mkSquare r' c') None.

(** 1. b3 e5 2. Nc3 Ke7 3. d3 Kd6 4. Bd2 Kc5 5. e3 Kb4 6. Qe2 Ka3 7. h3 Kb2
    8. g3 Kxa1: black's king has taken the rook on a1, white's king has not
    moved and the squares between it and the corner are empty. *)
Definition cornerLine : list Move :=
  [ plainMove 6 1 5 1; mkMove (mkSquare 1 4) (mkSquare 3 4) (Some DoublePush);
    plainMove 7 1 5 2; plainMove 0 4 1 4;
    plainMove 6 3 5 3; plainMove 1 4 2 3;
    plainMove 7 2 6 3; plainMove 2 3 3 2;
    plainMove 6 4 5 4; plainMove 3 2 4 1;
    plainMove 7 3 6 4; plainMove 4 1 5 0;
    plainMove 6 7 5 7; plainMove 5 0 6 1;
    plainMove 6 6 5 6; plainMove 6 1 7 0 ].

(** 9. O-O-O *)
Definition longCastle : Move := mkMove (mkSquare 7 4) (mkSquare 7 2) (Some CastleQs).

(** ** A king beside its home square *)

(** White's king on g1 with both castling rights, as no game has it. *)
Definition strayKingBoard : Board :=
  setSq (setSq emptyBoard 7 6 (wp King)) 0 4 (bp King).

(** The double [0.3333333333333333]: the one next below 1/3. *)
Definition double_third : Q := 6004799503160661 # 18014398509481984.

(* ================================================================== *)
(** * Properties of the move generator and of the legality filter *)
(* ================================================================== *)

Ltac in_list := repeat (first [left; reflexivity | right]).

Lemma Color_eqb_eq (a b : Color) : Color_eqb a b = true <-> a = b.
Proof. destruct a, b; simpl; split; congruence. Qed.

Lemma PieceType_eqb_eq (a b : PieceType) : PieceType_eqb a b = true <-> a = b.
Proof. destruct a, b; simpl; split; congruence. Qed.

Lemma cellIs_spec (x : Cell) (col : Color) (t : PieceType) :
  cellIs x col t = true <-> x = Some (mkPiece col t).
Proof.
  destruct x as [[pc pt]|]; simpl.
  - rewrite andb_true_iff, Color_eqb_eq, PieceType_eqb_eq. split.
    + intros [-> ->]. reflexivity.
    + intros H. inversion H. auto.
  - split; discriminate.
Qed.

Lemma isSpecial_spec (m : Move) (s : Special) :
  isSpecial m s = true <-> special m = Some s.
Proof.
  unfold isSpecial. destruct (special m) as [[]|], s; split; congruence.
Qed.

Lemma isValidSquare_spec (r c : Z) :
  isValidSquare r c = true <-> (0 <= r < 8 /\ 0 <= c < 8).
Proof.
  unfold isValidSquare. rewrite !andb_true_iff, !Z.leb_le, !Z.ltb_lt. lia.
Qed.

(** Eight steps along any of the eight directions lead from a square of the
    grid to a square off it. *)
Lemma eighth_step_off_grid (tr tc dr dc : Z) :
  In (dr, dc) (rookDirs ++ bishopDirs) ->
  isValidSquare tr tc = true ->
  isValidSquare (tr + Z.of_nat 8 * dr) (tc + Z.of_nat 8 * dc) = false.
Proof.
  intros Hd Hv. apply isValidSquare_spec in Hv.
  apply not_true_is_false. rewrite isValidSquare_spec.
  simpl in Hd.
  repeat (destruct Hd as [Hd|Hd]; [inversion Hd; subst; clear Hd; lia|]).
  contradiction.
Qed.

(** The counter of [slide] is never the reason the loop stops: once the
    square [n] steps ahead is off the grid, [n] turns do what any greater
    number of turns does. *)
Lemma slide_fuel (st : GameState) (r c : Z) (enemyColor : Color) (dr dc : Z) :
  forall (n extra : nat) (tr tc : Z),
    isValidSquare (tr + Z.of_nat n * dr) (tc + Z.of_nat n * dc) = false ->
    slide st r c (n + extra) enemyColor tr tc dr dc
    = slide st r c n enemyColor tr tc dr dc.
Proof.
  induction n as [|n IH]; intros extra tr tc Hout.
  - simpl in Hout. rewrite !Z.add_0_r in Hout.
    destruct extra; simpl; [reflexivity | now rewrite Hout].
  - change (S n + extra)%nat with (S (n + extra)).
    cbn [slide]. destruct (isValidSquare tr tc); [|reflexivity].
    destruct (getSq (board st) tr tc); [reflexivity|].
    f_equal. apply IH.
    replace (tr + dr + Z.of_nat n * dr) with (tr + Z.of_nat (S n) * dr) by lia.
    replace (tc + dc + Z.of_nat n * dc) with (tc + Z.of_nat (S n) * dc) by lia.
    exact Hout.
Qed.

(** The rays of [getPseudoLegalMoves] are the whole [while] loops. *)
Lemma slide_8_enough (st : GameState) (r c : Z) (enemyColor : Color) (dr dc : Z) :
  In (dr, dc) (rookDirs ++ bishopDirs) ->
  forall (extra : nat) (tr tc : Z),
    slide st r c (8 + extra) enemyColor tr tc dr dc
    = slide st r c 8 enemyColor tr tc dr dc.
Proof.
  intros Hd extra tr tc.
  destruct (isValidSquare tr tc) eqn:Hv.
  - apply slide_fuel. apply eighth_step_off_grid; assumption.
  - change (8 + extra)%nat with (S (7 + extra)). cbn [slide]. rewrite Hv. reflexivity.
Qed.

Lemma rayAttacked_fuel (b : Board) (enemyPrefix : Color) (orth : bool) (dr dc : Z) :
  forall (n extra : nat) (tr tc : Z),
    isValidSquare (tr + Z.of_nat n * dr) (tc + Z.of_nat n * dc) = false ->
    rayAttacked (n + extra) b enemyPrefix orth tr tc dr dc
    = rayAttacked n b enemyPrefix orth tr tc dr dc.
Proof.
  induction n as [|n IH]; intros extra tr tc Hout.
  - simpl in Hout. rewrite !Z.add_0_r in Hout.
    destruct extra; simpl; [reflexivity | now rewrite Hout].
  - change (S n + extra)%nat with (S (n + extra)).
    cbn [rayAttacked]. destruct (isValidSquare tr tc); [|reflexivity].
    destruct (getSq b tr tc); [reflexivity|].
    apply IH.
    replace (tr + dr + Z.of_nat n * dr) with (tr + Z.of_nat (S n) * dr) by lia.
    replace (tc + dc + Z.of_nat n * dc) with (tc + Z.of_nat (S n) * dc) by lia.
    exact Hout.
Qed.

(** The rays of [isSquareAttacked] are the whole [while] loops, wherever
    they start. *)
Lemma rayAttacked_8_enough (b : Board) (enemyPrefix : Color) (orth : bool) (dr dc : Z) :
  In (dr, dc) (rookDirs ++ bishopDirs) ->
  forall (extra : nat) (tr tc : Z),
    rayAttacked (8 + extra) b enemyPrefix orth tr tc dr dc
    = rayAttacked 8 b enemyPrefix orth tr tc dr dc.
Proof.
  intros Hd extra tr tc.
  destruct (isValidSquare tr tc) eqn:Hv.
  - apply rayAttacked_fuel. apply eighth_step_off_grid; assumption.
  - change (8 + extra)%nat with (S (7 + extra)). cbn [rayAttacked]. rewrite Hv. reflexivity.
Qed.

Section GeneratorFacts.
Variable st : GameState.
Variables r c : Z.

Lemma slide_plain (fuel : nat) (enemyColor : Color) (dr dc : Z) :
  forall tr tc, Forall (plainFrom r c) (slide st r c fuel enemyColor tr tc dr dc).
Proof.
  induction fuel as [|fuel IH]; intros tr tc; simpl; [constructor|].
  destruct (isValidSquare tr tc); [|constructor].
  destruct (getSq (board st) tr tc) as [p|].
  - destruct (Color_eqb (pcolor p) enemyColor); repeat constructor; simpl; congruence.
  - constructor; [|apply IH]. repeat split; simpl; congruence.
Qed.

Lemma stepMoves_plain (enemyColor : Color) (offsets : list (Z * Z)) :
  Forall (plainFrom r c) (stepMoves st r c enemyColor offsets).
Proof.
  unfold stepMoves. induction offsets as [|o os IH]; simpl; [constructor|].
  apply Forall_app; split; [|exact IH].
  destruct (isValidSquare (r + fst o) (c + snd o)); [|constructor].
  destruct (cellEmpty _ || cellHasColor _ _); repeat constructor; simpl; congruence.
Qed.

Lemma pawnMoves_plain (color : Color) : Forall (plainFrom r c) (pawnMoves st r c color).
Proof.
  unfold pawnMoves. apply Forall_app; split.
  - destruct (isValidSquare (r + direction color) c && _); [|constructor].
    constructor; [repeat split; simpl; congruence|].
    destruct (_ || _); [|constructor].
    destruct (_ && _); repeat constructor; simpl; congruence.
  - simpl. rewrite app_nil_r.
    apply Forall_app; split.
    + destruct (isValidSquare _ _); [|constructor].
      apply Forall_app; split.
      * destruct (cellHasColor _ _); repeat constructor; simpl; congruence.
      * destruct (enPassantTarget st) as [ep|]; [|constructor].
        destruct (_ && _); repeat constructor; simpl; congruence.
    + destruct (isValidSquare _ _); [|constructor].
      apply Forall_app; split.
      * destruct (cellHasColor _ _); repeat constructor; simpl; congruence.
      * destruct (enPassantTarget st) as [ep|]; [|constructor].
        destruct (_ && _); repeat constructor; simpl; congruence.
Qed.

Lemma sliding_plain (enemyColor : Color) (t : PieceType) :
  Forall (plainFrom r c)
    (flat_map
       (fun d : Z * Z =>
          slide st r c 8 enemyColor (r + fst d) (c + snd d) (fst d) (snd d))
       (slidingDirs t)).
Proof.
  induction (slidingDirs t) as [|d ds IH]; cbn [flat_map]; [constructor|].
  apply Forall_app; split; [apply slide_plain | exact IH].
Qed.

(** Every generated move starts on the square it was generated for. *)
Lemma pseudo_from (piece : Piece) (m : Move) :
  In m (getPseudoLegalMoves st r c piece) -> mfrom m = mkSquare r c.
Proof.
  unfold getPseudoLegalMoves. intros Hin.
  assert (Hk : Forall (startsAt r c) (castleMoves st r c (pcolor piece))).
  { unfold castleMoves. apply Forall_app; split.
    - destruct (canCastle _ _ KingSide); [|constructor].
      destruct (_ && _); repeat constructor.
    - destruct (canCastle _ _ QueenSide); [|constructor].
      destruct (_ && _); repeat constructor. }
  pose proof (sliding_plain (enemyOf (pcolor piece))) as Hs.
  destruct (ptype piece) eqn:Ht.
  - eapply Forall_forall in Hin; [|apply pawnMoves_plain]. apply Hin.
  - eapply Forall_forall in Hin; [|apply stepMoves_plain]. apply Hin.
  - eapply Forall_forall in Hin; [|apply (Hs Bishop)]. apply Hin.
  - eapply Forall_forall in Hin; [|apply (Hs Rook)]. apply Hin.
  - eapply Forall_forall in Hin; [|apply (Hs Queen)]. apply Hin.
  - apply in_app_or in Hin as [Hin|Hin].
    + eapply Forall_forall in Hin; [|apply stepMoves_plain]. apply Hin.
    + eapply Forall_forall in Hin; [|exact Hk]. exact Hin.
Qed.

(** A castling move is generated for a king only, two columns aside. *)
Lemma pseudo_castle (piece : Piece) (m : Move) :
  In m (getPseudoLegalMoves st r c piece) ->
  special m = Some CastleKs \/ special m = Some CastleQs ->
  ptype piece = King
  /\ mto m = mkSquare r (if isSpecial m CastleKs then c + 2 else c - 2).
Proof.
  unfold getPseudoLegalMoves. intros Hin Hsp.
  pose proof (sliding_plain (enemyOf (pcolor piece))) as Hs.
  assert (Hno : (plainFrom r c) m -> False).
  { intros (_ & H1 & H2). destruct Hsp; contradiction. }
  destruct (ptype piece) eqn:Ht.
  - exfalso. apply Hno. eapply Forall_forall in Hin; [|apply pawnMoves_plain]. apply Hin.
  - exfalso. apply Hno. eapply Forall_forall in Hin; [|apply stepMoves_plain]. apply Hin.
  - exfalso. apply Hno. eapply Forall_forall in Hin; [|apply (Hs Bishop)]. apply Hin.
  - exfalso. apply Hno. eapply Forall_forall in Hin; [|apply (Hs Rook)]. apply Hin.
  - exfalso. apply Hno. eapply Forall_forall in Hin; [|apply (Hs Queen)]. apply Hin.
  - split; [reflexivity|].
    apply in_app_or in Hin as [Hin|Hin].
    + exfalso. apply Hno. eapply Forall_forall in Hin; [|apply stepMoves_plain]. apply Hin.
    + unfold castleMoves in Hin. apply in_app_or in Hin as [Hin|Hin].
      * destruct (canCastle _ _ KingSide); [|contradiction].
        destruct (_ && _); [|contradiction].
        destruct Hin as [<-|[]]. reflexivity.
      * destruct (canCastle _ _ QueenSide); [|contradiction].
        destruct (_ && _); [|contradiction].
        destruct Hin as [<-|[]]. reflexivity.
Qed.

Lemma slide_notEp (fuel : nat) (enemyColor : Color) (dr dc : Z) :
  forall tr tc, Forall notEnPassant (slide st r c fuel enemyColor tr tc dr dc).
Proof.
  induction fuel as [|fuel IH]; intros tr tc; simpl; [constructor|].
  destruct (isValidSquare tr tc); [|constructor].
  destruct (getSq (board st) tr tc) as [p|].
  - destruct (Color_eqb (pcolor p) enemyColor); repeat constructor. discriminate.
  - constructor; [discriminate | apply IH].
Qed.

Lemma stepMoves_notEp (enemyColor : Color) (offsets : list (Z * Z)) :
  Forall notEnPassant (stepMoves st r c enemyColor offsets).
Proof.
  unfold stepMoves. induction offsets as [|o os IH]; simpl; [constructor|].
  apply Forall_app; split; [|exact IH].
  destruct (isValidSquare (r + fst o) (c + snd o)); [|constructor].
  destruct (cellEmpty _ || cellHasColor _ _); repeat constructor. discriminate.
Qed.

(** An en-passant capture is generated for a pawn only, one row ahead and
    one column aside. *)
Lemma pseudo_enpassant (piece : Piece) (m : Move) :
  In m (getPseudoLegalMoves st r c piece) ->
  special m = Some EnPassant ->
  ptype piece = Pawn
  /\ row (mto m) = r + direction (pcolor piece)
  /\ (col (mto m) = c - 1 \/ col (mto m) = c + 1).
Proof.
  unfold getPseudoLegalMoves. intros Hin Hsp.
  assert (Hs : forall t, Forall notEnPassant
            (flat_map (fun d : Z * Z =>
               slide st r c 8 (enemyOf (pcolor piece)) (r + fst d) (c + snd d) (fst d) (snd d))
               (slidingDirs t))).
  { intros t. induction (slidingDirs t) as [|d ds IH]; cbn [flat_map]; [constructor|].
    apply Forall_app; split; [apply slide_notEp | exact IH]. }
  destruct (ptype piece) eqn:Ht.
  - split; [reflexivity|]. unfold pawnMoves in Hin.
    apply in_app_or in Hin as [Hin|Hin].
    + exfalso. destruct (isValidSquare (r + direction (pcolor piece)) c && _);
        [|contradiction].
      destruct Hin as [<-|Hin]; [discriminate|].
      destruct (_ || _); [|contradiction].
      destruct (_ && _); [|contradiction].
      destruct Hin as [<-|[]]. discriminate.
    + cbn [flat_map] in Hin. rewrite app_nil_r in Hin.
      apply in_app_or in Hin as [Hin|Hin].
      * destruct (isValidSquare _ _); [|contradiction].
        apply in_app_or in Hin as [Hin|Hin].
        { destruct (cellHasColor _ _); [|contradiction].
          destruct Hin as [<-|[]]. discriminate. }
        destruct (enPassantTarget st) as [ep|]; [|contradiction].
        destruct (_ && _); [|contradiction].
        destruct Hin as [<-|[]]. simpl. auto.
      * destruct (isValidSquare _ _); [|contradiction].
        apply in_app_or in Hin as [Hin|Hin].
        { destruct (cellHasColor _ _); [|contradiction].
          destruct Hin as [<-|[]]. discriminate. }
        destruct (enPassantTarget st) as [ep|]; [|contradiction].
        destruct (_ && _); [|contradiction].
        destruct Hin as [<-|[]]. simpl. auto.
  - exfalso. eapply Forall_forall in Hin; [|apply stepMoves_notEp]. apply Hin, Hsp.
  - exfalso. eapply Forall_forall in Hin; [|apply (Hs Bishop)]. apply Hin, Hsp.
  - exfalso. eapply Forall_forall in Hin; [|apply (Hs Rook)]. apply Hin, Hsp.
  - exfalso. eapply Forall_forall in Hin; [|apply (Hs Queen)]. apply Hin, Hsp.
  - exfalso. apply in_app_or in Hin as [Hin|Hin].
    + eapply Forall_forall in Hin; [|apply stepMoves_notEp]. apply Hin, Hsp.
    + unfold castleMoves in Hin. apply in_app_or in Hin as [Hin|Hin].
      * destruct (canCastle _ _ KingSide); [|contradiction].
        destruct (_ && _); [|contradiction].
        destruct Hin as [<-|[]]. discriminate.
      * destruct (canCastle _ _ QueenSide); [|contradiction].
        destruct (_ && _); [|contradiction].
        destruct Hin as [<-|[]]. discriminate.
Qed.
End GeneratorFacts.

(** Each side has 20 legal moves in the opening position. *)
Example opening_move_count :
  length (getLegalMoves (initGame Pvp) White) = 20%nat
  /\ length (getLegalMoves (initGame Pvp) Black) = 20%nat.
Proof. split; reflexivity. Qed.

(** What it takes to be in the legal-move set. *)
Lemma getLegalMoves_In (st : GameState) (color : Color) (m : Move) :
  In m (getLegalMoves st color) <->
  exists s piece,
    In s allSquares
    /\ getSq (board st) (row s) (col s) = Some piece
    /\ pcolor piece = color
    /\ In m (getPseudoLegalMoves st (row s) (col s) piece)
    /\ isMoveSafe st m color = true.
Proof.
  unfold getLegalMoves. rewrite in_flat_map. split.
  - intros (s & Hs & Hin). unfold legalFrom in Hin.
    destruct (getSq (board st) (row s) (col s)) as [piece|] eqn:Hp; [|contradiction].
    destruct (Color_eqb (pcolor piece) color) eqn:Hc; [|contradiction].
    apply filter_In in Hin as [Hin Hsafe].
    exists s, piece. apply Color_eqb_eq in Hc. auto.
  - intros (s & piece & Hs & Hp & Hc & Hin & Hsafe).
    exists s. split; [exact Hs|]. unfold legalFrom. rewrite Hp.
    apply Color_eqb_eq in Hc. rewrite Hc. apply filter_In. auto.
Qed.

(** The filter never meets the TypeError of [isMoveSafe]: the moves it is
    given start on the occupied square they were generated for. *)
Lemma pseudo_from_occupied (st : GameState) (s : Square) (piece : Piece) (m : Move) :
  getSq (board st) (row s) (col s) = Some piece ->
  In m (getPseudoLegalMoves st (row s) (col s) piece) ->
  getSq (board st) (row (mfrom m)) (col (mfrom m)) = Some piece.
Proof.
  intros Hp Hin. apply pseudo_from in Hin. rewrite Hin. exact Hp.
Qed.

(** What [isMoveSafe] answers for a move that starts on an occupied square. *)
Lemma isMoveSafe_true (st : GameState) (m : Move) (color : Color) :
  isMoveSafe st m color = true ->
  castlePathSafe (board st) m color = true
  /\ isSquareAttacked (row (kingSquareAfter (board st) m color))
                      (col (kingSquareAfter (board st) m color))
                      color (simulateMove (board st) m) = false.
Proof.
  unfold isMoveSafe.
  destruct (getSq (board st) (row (mfrom m)) (col (mfrom m))); [|discriminate].
  intros H. apply andb_true_iff in H as [H1 H2].
  apply negb_true_iff in H2. auto.
Qed.

(* ------------------------------------------------------------------ *)
(** ** Reading a grid that was written to *)

Lemma nth_updNth {A : Type} (f : A -> A) (d : A) (l : list A) :
  forall n n',
    nth n' (updNth n f l) d
    = if ((n' =? n) && (n <? length l))%nat then f (nth n l d) else nth n' l d.
Proof.
  induction l as [|x xs IH]; intros n n'.
  - destruct n; simpl; rewrite andb_false_r; destruct n'; reflexivity.
  - destruct n as [|n], n' as [|n']; simpl; try reflexivity.
    rewrite IH. reflexivity.
Qed.

Lemma length_updNth {A : Type} (f : A -> A) (l : list A) :
  forall n, length (updNth n f l) = length l.
Proof.
  induction l as [|x xs IH]; intros [|n]; simpl; auto.
Qed.

Lemma getSq_outside (b : Board) (r c : Z) : inGrid b r c = false -> getSq b r c = None.
Proof.
  unfold inGrid, getSq. intros H.
  destruct (r <? 0) eqn:Hr; [reflexivity|].
  destruct (c <? 0) eqn:Hc; [reflexivity|]. simpl.
  apply Z.ltb_ge in Hr, Hc.
  apply Z.leb_le in Hr, Hc. rewrite Hr, Hc in H. simpl in H.
  apply andb_false_iff in H as [H|H]; apply Nat.ltb_ge in H.
  - rewrite (nth_overflow b [] H). destruct (Z.to_nat c); reflexivity.
  - apply nth_overflow. exact H.
Qed.

Lemma getSq_setSq (b : Board) (r c : Z) (v : Cell) (r' c' : Z) :
  getSq (setSq b r c v) r' c'
  = if (r' =? r) && (c' =? c) && inGrid b r c then v else getSq b r' c'.
Proof.
  unfold setSq, inGrid.
  destruct (r <? 0) eqn:Hr.
  { apply Z.ltb_lt in Hr. replace (0 <=? r) with false by (symmetry; apply Z.leb_gt; lia).
    simpl. rewrite andb_false_r. reflexivity. }
  destruct (c <? 0) eqn:Hc.
  { apply Z.ltb_lt in Hc. replace (0 <=? c) with false by (symmetry; apply Z.leb_gt; lia).
    simpl. rewrite !andb_false_r. reflexivity. }
  apply Z.ltb_ge in Hr, Hc.
  replace (0 <=? r) with true by (symmetry; apply Z.leb_le; lia).
  replace (0 <=? c) with true by (symmetry; apply Z.leb_le; lia).
  cbn [orb andb]. unfold getSq.
  destruct (r' <? 0) eqn:Hr'.
  { apply Z.ltb_lt in Hr'. replace (r' =? r) with false by (symmetry; apply Z.eqb_neq; lia).
    reflexivity. }
  destruct (c' <? 0) eqn:Hc'.
  { apply Z.ltb_lt in Hc'. replace (c' =? c) with false by (symmetry; apply Z.eqb_neq; lia).
    rewrite andb_false_r. reflexivity. }
  apply Z.ltb_ge in Hr', Hc'. cbn [orb].
  rewrite nth_updNth.
  destruct (r' =? r) eqn:Er.
  - apply Z.eqb_eq in Er. subst r'. rewrite Nat.eqb_refl. cbn [andb].
    destruct (Z.to_nat r <? length b)%nat eqn:Hlen; cbn [andb].
    + rewrite nth_updNth.
      destruct (c' =? c) eqn:Ec.
      * apply Z.eqb_eq in Ec. subst c'. rewrite Nat.eqb_refl. reflexivity.
      * apply Z.eqb_neq in Ec.
        replace (Z.to_nat c' =? Z.to_nat c)%nat with false
          by (symmetry; apply Nat.eqb_neq; lia).
        reflexivity.
    + rewrite andb_false_r. reflexivity.
  - apply Z.eqb_neq in Er.
    replace (Z.to_nat r' =? Z.to_nat r)%nat with false
      by (symmetry; apply Nat.eqb_neq; lia).
    reflexivity.
Qed.

(** A cleared square reads as empty, on the grid or off it. *)
Lemma getSq_cleared (b : Board) (r c : Z) : getSq (setSq b r c None) r c = None.
Proof.
  rewrite getSq_setSq, !Z.eqb_refl. cbn [andb].
  destruct (inGrid b r c) eqn:H; [reflexivity | apply getSq_outside; exact H].
Qed.

(** A write changes the cell written to, if any, and no other. *)
Lemma getSq_setSq_cases (b : Board) (r c : Z) (v : Cell) (r' c' : Z) :
  getSq (setSq b r c v) r' c' = getSq b r' c'
  \/ (r' = r /\ c' = c /\ getSq (setSq b r c v) r' c' = v).
Proof.
  rewrite getSq_setSq.
  destruct (r' =? r) eqn:Er; [|left; reflexivity].
  destruct (c' =? c) eqn:Ec; [|left; reflexivity].
  destruct (inGrid b r c); [|left; reflexivity].
  apply Z.eqb_eq in Er, Ec. right. auto.
Qed.

(* ------------------------------------------------------------------ *)
(** ** Where the king is after a simulated move *)

Lemma findKing_kingSquares (b : Board) (color : Color) :
  findKing b color = hd (mkSquare 0 0) (kingSquares b color).
Proof.
  unfold findKing, kingSquares.
  induction allSquares as [|s l IH]; simpl; [reflexivity|].
  destruct (cellIs (getSq b (row s) (col s)) color King); [reflexivity | exact IH].
Qed.

(** A list of squares all equal to [k] that has a member starts with [k]. *)
Lemma hd_of_constant (l : list Square) (k s : Square) :
  In s l -> (forall x, In x l -> x = k) -> hd (mkSquare 0 0) l = k.
Proof.
  destruct l as [|x xs]; simpl; [contradiction|]. intros _ H. apply H. auto.
Qed.

(** The cell of the scratch copy on a square other than the landing square
    is the cell of the board, or is empty. *)
Lemma simulateMove_elsewhere (b : Board) (m : Move) (r c : Z) :
  (r, c) <> (row (mto m), col (mto m)) ->
  getSq (simulateMove b m) r c = getSq b r c \/ getSq (simulateMove b m) r c = None.
Proof.
  intros Hne. unfold simulateMove.
  set (t1 := if isSpecial m EnPassant then _ else b).
  destruct (getSq_setSq_cases (setSq t1 (row (mto m)) (col (mto m))
              (getSq b (row (mfrom m)) (col (mfrom m))))
              (row (mfrom m)) (col (mfrom m)) None r c) as [H|(_ & _ & H)]; [|auto].
  rewrite H.
  destruct (getSq_setSq_cases t1 (row (mto m)) (col (mto m))
              (getSq b (row (mfrom m)) (col (mfrom m))) r c) as [H1|(-> & -> & _)];
    [|congruence].
  rewrite H1. unfold t1. destruct (isSpecial m EnPassant); [|auto].
  destruct (getSq_setSq_cases b (row (mfrom m)) (col (mto m)) None r c)
    as [H2|(_ & _ & H2)]; auto.
Qed.

(** The departure square of the scratch copy is empty. *)
Lemma simulateMove_from (b : Board) (m : Move) :
  getSq (simulateMove b m) (row (mfrom m)) (col (mfrom m)) = None.
Proof. unfold simulateMove. apply getSq_cleared. Qed.

(** The landing square holds the moved piece, or nothing. *)
Lemma simulateMove_to (b : Board) (m : Move) :
  getSq (simulateMove b m) (row (mto m)) (col (mto m))
  = getSq b (row (mfrom m)) (col (mfrom m))
  \/ getSq (simulateMove b m) (row (mto m)) (col (mto m)) = None.
Proof.
  unfold simulateMove.
  set (t1 := if isSpecial m EnPassant then _ else b).
  set (fp := getSq b (row (mfrom m)) (col (mfrom m))).
  destruct (getSq_setSq_cases (setSq t1 (row (mto m)) (col (mto m)) fp)
              (row (mfrom m)) (col (mfrom m)) None (row (mto m)) (col (mto m)))
    as [H|(_ & _ & H)]; [|auto].
  rewrite H. rewrite getSq_setSq, !Z.eqb_refl. cbn [andb].
  destruct (inGrid t1 (row (mto m)) (col (mto m))) eqn:Hg; [auto|].
  right. apply getSq_outside. exact Hg.
Qed.

Lemma square_eta (s : Square) (r c : Z) : row s = r -> col s = c -> s = mkSquare r c.
Proof. destruct s; simpl; congruence. Qed.

Lemma kingSquares_In (b : Board) (color : Color) (s : Square) :
  In s (kingSquares b color) <->
  In s allSquares /\ getSq b (row s) (col s) = Some (mkPiece color King).
Proof. unfold kingSquares. rewrite filter_In, cellIs_spec. reflexivity. Qed.

(** With one king of its colour on the board, the square [isMoveSafe] tests
    is the only square of the scratch copy that can hold that king. *)
Lemma king_after_move (st : GameState) (color : Color) (m : Move) (k0 s : Square) :
  In m (getLegalMoves st color) ->
  kingSquares (board st) color = [k0] ->
  In s (kingSquares (simulateMove (board st) m) color) ->
  s = kingSquareAfter (board st) m color.
Proof.
  intros Hm Hone Hs.
  apply getLegalMoves_In in Hm as (s0 & piece & Hs0 & Hp & Hc & Hgen & _).
  pose proof (pseudo_from st _ _ piece m Hgen) as Hfrom.
  assert (Honly : forall x, In x (kingSquares (board st) color) -> x = k0).
  { intros x Hx. rewrite Hone in Hx. destruct Hx as [<-|[]]. reflexivity. }
  assert (Hfp : getSq (board st) (row (mfrom m)) (col (mfrom m)) = Some piece).
  { rewrite Hfrom. exact Hp. }
  assert (Hold : forall x, In x (kingSquares (simulateMove (board st) m) color) ->
                           (row x, col x) <> (row (mto m), col (mto m)) -> x = k0).
  { intros x Hx Hne. apply kingSquares_In in Hx as [Hx1 Hx2].
    destruct (simulateMove_elsewhere (board st) m (row x) (col x) Hne) as [H|H];
      [|congruence].
    apply Honly. apply kingSquares_In. split; [exact Hx1 | congruence]. }
  unfold kingSquareAfter. rewrite Hfp.
  destruct (PieceType_eqb (ptype piece) King) eqn:Hk.
  - (* the king moves *)
    apply PieceType_eqb_eq in Hk. rewrite Hk.
    assert (Hs0k : s0 = k0).
    { apply Honly. apply kingSquares_In. split; [exact Hs0|].
      rewrite Hp. destruct piece; simpl in *; congruence. }
    destruct (Z.eq_dec (row s) (row (mto m))) as [Er|Er];
      [destruct (Z.eq_dec (col s) (col (mto m))) as [Ec|Ec]|].
    + destruct s, (mto m); simpl in *; congruence.
    + exfalso. assert (Hsk : s = k0) by (apply Hold; [exact Hs | congruence]).
      apply kingSquares_In in Hs as [_ Hs].
      rewrite Hsk, <- Hs0k in Hs.
      pose proof (simulateMove_from (board st) m) as Hnone.
      rewrite Hfrom in Hnone. simpl in Hnone. congruence.
    + exfalso. assert (Hsk : s = k0) by (apply Hold; [exact Hs | congruence]).
      apply kingSquares_In in Hs as [_ Hs].
      rewrite Hsk, <- Hs0k in Hs.
      pose proof (simulateMove_from (board st) m) as Hnone.
      rewrite Hfrom in Hnone. simpl in Hnone. congruence.
  - (* another piece moves *)
    assert (Hall : forall x, In x (kingSquares (simulateMove (board st) m) color) -> x = k0).
    { intros x Hx.
      destruct (Z.eq_dec (row x) (row (mto m))) as [Er|Er];
        [destruct (Z.eq_dec (col x) (col (mto m))) as [Ec|Ec]|];
        try (apply Hold; [exact Hx | congruence]).
      exfalso. apply kingSquares_In in Hx as [_ Hx]. rewrite Er, Ec in Hx.
      destruct (simulateMove_to (board st) m) as [H|H]; [|congruence].
      rewrite H, Hfp in Hx. inversion Hx as [Hpk]. rewrite Hpk in Hk. discriminate. }
    rewrite (Hall s Hs).
    replace (match ptype piece with King => mto m | _ => findKing (simulateMove (board st) m) color end)
      with (findKing (simulateMove (board st) m) color)
      by (destruct (ptype piece); try reflexivity; discriminate).
    rewrite findKing_kingSquares. symmetry.
    apply (hd_of_constant _ k0 s Hs Hall).
Qed.

(** Every move of the legal-move set of a side leaves that side's king
    unattacked on the scratch copy it is simulated on: the square
    [(kRow, kCol)] that [isMoveSafe] tests - the landing square when the king
    moved, the square [findKing] reports otherwise - is not attacked there;
    and on a board with one king of that colour, this is the square of the
    king on the scratch copy. *)
Lemma legal_move_safe_on_scratch_copy (st : GameState) (color : Color) (m : Move) :
  In m (getLegalMoves st color) ->
  let after := simulateMove (board st) m in
  let k := kingSquareAfter (board st) m color in
  isMoveSafe st m color = true
  /\ isSquareAttacked (row k) (col k) color after = false
  /\ (forall k0, kingSquares (board st) color = [k0] ->
      forall s, In s (kingSquares after color) ->
                s = k /\ isSquareAttacked (row s) (col s) color after = false).
Proof.
  intros Hm after k.
  pose proof Hm as Hm'.
  apply getLegalMoves_In in Hm' as (s0 & piece & _ & _ & _ & _ & Hsafe).
  destruct (isMoveSafe_true st m color Hsafe) as [_ Hk].
  split; [exact Hsafe|]. split; [exact Hk|].
  intros k0 Hone s Hs.
  assert (Hsk : s = k) by (apply (king_after_move st color m k0 s Hm Hone Hs)).
  split; [exact Hsk|]. rewrite Hsk. exact Hk.
Qed.

(* ------------------------------------------------------------------ *)
(** ** Castling through or out of check *)

(** C3.  A castling move that the generator produced passes the legality
    filter exactly when the king's origin square and the square it passes
    over (origin column + 1 on the king's side, - 1 on the queen's side) are
    unattacked on the board before the move and the landing square is
    unattacked on the board after it; so a castling move whose transit square
    is attacked is not in the legal-move set. *)
Theorem castling_needs_safe_path (st : GameState) (r c : Z) (piece : Piece)
        (color : Color) (m : Move) :
  getSq (board st) r c = Some piece ->
  In m (getPseudoLegalMoves st r c piece) ->
  special m = Some CastleKs \/ special m = Some CastleQs ->
  (isMoveSafe st m color = true <->
     isSquareAttacked r c color (board st) = false
     /\ isSquareAttacked r (transitCol m) color (board st) = false
     /\ isSquareAttacked (row (mto m)) (col (mto m)) color
                         (simulateMove (board st) m) = false)
  /\ (isSquareAttacked r (transitCol m) color (board st) = true ->
      ~ In m (getLegalMoves st color)).
Proof.
  intros Hp Hgen Hsp.
  pose proof (pseudo_from st r c piece m Hgen) as Hfrom.
  destruct (pseudo_castle st r c piece m Hgen Hsp) as [Hking _].
  assert (Hiff : isMoveSafe st m color = true <->
     isSquareAttacked r c color (board st) = false
     /\ isSquareAttacked r (transitCol m) color (board st) = false
     /\ isSquareAttacked (row (mto m)) (col (mto m)) color
                         (simulateMove (board st) m) = false).
  { unfold isMoveSafe, kingSquareAfter, castlePathSafe, transitCol.
    rewrite Hfrom. cbn [row col]. rewrite Hp, Hking.
    destruct Hsp as [Hsp|Hsp].
    - assert (Hks : isSpecial m CastleKs = true) by (apply isSpecial_spec; exact Hsp).
      assert (Hqs : isSpecial m CastleQs = false).
      { apply not_true_is_false. rewrite isSpecial_spec. congruence. }
      rewrite Hks, Hqs.
      destruct (isSquareAttacked r c color (board st));
        destruct (isSquareAttacked r (c + 1) color (board st));
        destruct (isSquareAttacked _ _ color (simulateMove (board st) m));
        simpl; intuition congruence.
    - assert (Hqs : isSpecial m CastleQs = true) by (apply isSpecial_spec; exact Hsp).
      assert (Hks : isSpecial m CastleKs = false).
      { apply not_true_is_false. rewrite isSpecial_spec. congruence. }
      rewrite Hks, Hqs.
      destruct (isSquareAttacked r c color (board st));
        destruct (isSquareAttacked r (c - 1) color (board st));
        destruct (isSquareAttacked _ _ color (simulateMove (board st) m));
        simpl; intuition congruence. }
  split; [exact Hiff|].
  intros Hatt Hin.
  apply getLegalMoves_In in Hin as (_ & _ & _ & _ & _ & _ & Hsafe).
  apply Hiff in Hsafe as (_ & Ht & _). congruence.
Qed.

Lemma castling_needs_safe_path_witness :
  In whiteCastlesKs (getPseudoLegalMoves castleState 7 4 (mkPiece White King))
  /\ isMoveSafe castleState whiteCastlesKs White = true
  /\ isSquareAttacked 7 5 White castleBoard = false.
Proof.
  assert (Hp : getSq (board castleState) 7 4 = Some (mkPiece White King)) by reflexivity.
  assert (Hgen : In whiteCastlesKs (getPseudoLegalMoves castleState 7 4 (mkPiece White King)))
    by (vm_compute; in_list).
  assert (Hsp : special whiteCastlesKs = Some CastleKs \/ special whiteCastlesKs = Some CastleQs)
    by (left; reflexivity).
  assert (Hsafe : isMoveSafe castleState whiteCastlesKs White = true) by reflexivity.
  split; [exact Hgen|]. split; [exact Hsafe|].
  exact (proj1 (proj2 (proj1 (proj1 (castling_needs_safe_path
           castleState 7 4 (mkPiece White King) White whiteCastlesKs Hp Hgen Hsp)) Hsafe))).
Defined.

(** The same move with a black rook on the open f-file: the transit square
    f1 is attacked, and the move is not legal. *)
Example castling_through_check_rejected :
  let b := setSq (setSq castleBoard 6 5 None) 1 5 (bp Rook) in
  let st := set_board b (initGame Pvp) in
  In whiteCastlesKs (getPseudoLegalMoves st 7 4 (mkPiece White King))
  /\ isSquareAttacked 7 5 White b = true
  /\ isMoveSafe st whiteCastlesKs White = false
  /\ ~ In whiteCastlesKs (getLegalMoves st White).
Proof.
  cbv zeta. split; [vm_compute; in_list|]. split; [reflexivity|]. split; [reflexivity|].
  intros Hin. apply getLegalMoves_In in Hin as (_ & _ & _ & _ & _ & _ & Hsafe).
  vm_compute in Hsafe. discriminate.
Qed.

(* ================================================================== *)
(** * Properties of the move executor *)
(* ================================================================== *)

(** ** The executor's board and the scratch copy of the filter *)

Lemma updNth_comm {A : Type} (f g : A -> A) (l : list A) :
  forall n m, n <> m -> updNth n f (updNth m g l) = updNth m g (updNth n f l).
Proof.
  induction l as [|x xs IH]; intros n m Hne.
  - destruct n, m; reflexivity.
  - destruct n as [|n], m as [|m]; simpl; try reflexivity; [congruence|].
    f_equal. apply IH. congruence.
Qed.

Lemma updNth_twice {A : Type} (f g : A -> A) (l : list A) :
  forall n, updNth n f (updNth n g l) = updNth n (fun x => f (g x)) l.
Proof.
  induction l as [|x xs IH]; intros [|n]; simpl; try reflexivity.
  f_equal. apply IH.
Qed.

Lemma updNth_ext {A : Type} (f g : A -> A) (l : list A) :
  (forall x, f x = g x) -> forall n, updNth n f l = updNth n g l.
Proof.
  intros Hfg. induction l as [|x xs IH]; intros [|n]; simpl; try reflexivity.
  - f_equal. apply Hfg.
  - f_equal. apply IH.
Qed.

(** Writes to two different squares can be made in either order. *)
Lemma setSq_comm (b : Board) (r1 c1 r2 c2 : Z) (v1 v2 : Cell) :
  r1 <> r2 \/ c1 <> c2 ->
  setSq (setSq b r1 c1 v1) r2 c2 v2 = setSq (setSq b r2 c2 v2) r1 c1 v1.
Proof.
  intros Hne. unfold setSq.
  destruct ((r1 <? 0) || (c1 <? 0)) eqn:H1; [reflexivity|].
  destruct ((r2 <? 0) || (c2 <? 0)) eqn:H2; [reflexivity|].
  apply orb_false_iff in H1 as [Hr1 Hc1]. apply orb_false_iff in H2 as [Hr2 Hc2].
  apply Z.ltb_ge in Hr1, Hc1, Hr2, Hc2.
  destruct (Z.eq_dec r1 r2) as [Er|Er].
  - subst r2. rewrite !updNth_twice. apply updNth_ext. intros rw.
    apply updNth_comm. destruct Hne as [Hne|Hne]; [congruence | lia].
  - apply updNth_comm. lia.
Qed.

(** A committed move that is no castling and no promotion leaves on the
    global board what [isMoveSafe] had on its scratch copy. *)
Lemma commitMove_board (st : GameState) (m : Move) (piece : Piece) :
  getSq (board st) (row (mfrom m)) (col (mfrom m)) = Some piece ->
  special m <> Some CastleKs ->
  special m <> Some CastleQs ->
  (special m = Some EnPassant ->
   row (mto m) <> row (mfrom m) /\ col (mto m) <> col (mfrom m)) ->
  board (commitMove m piece None st) = simulateMove (board st) m.
Proof.
  intros Hp Hks Hqs Hep.
  assert (Eks : isSpecial m CastleKs = false)
    by (apply not_true_is_false; rewrite isSpecial_spec; exact Hks).
  assert (Eqs : isSpecial m CastleQs = false)
    by (apply not_true_is_false; rewrite isSpecial_spec; exact Hqs).
  unfold commitMove, simulateMove, relocateRook. cbn [board]. rewrite Eks, Eqs, Hp.
  destruct (isSpecial m EnPassant) eqn:Eep; [|reflexivity].
  apply isSpecial_spec in Eep. destruct (Hep Eep) as [Hr Hc].
  rewrite (setSq_comm _ (row (mfrom m)) (col (mfrom m)) (row (mfrom m)) (col (mto m)))
    by (right; congruence).
  rewrite (setSq_comm _ (row (mto m)) (col (mto m)) (row (mfrom m)) (col (mto m)))
    by (left; exact Hr).
  reflexivity.
Qed.

(** So the executor itself leaves the mover's king unattacked: for a legal
    move that is no castling and needs no promotion, [makeMove] commits, and
    on the board it leaves, the square the filter tested - with one king of
    the colour on the board, the square of that king - is not attacked. *)
Lemma makeMove_keeps_king_safe (st : GameState) (color : Color) (m : Move) :
  In m (getLegalMoves st color) ->
  special m <> Some CastleKs ->
  special m <> Some CastleQs ->
  exists piece,
    getSq (board st) (row (mfrom m)) (col (mfrom m)) = Some piece
    /\ pcolor piece = color
    /\ (needsPromotionChoice m piece None = false ->
        makeMove m None st = Returned (commitMove m piece None st)
        /\ board (commitMove m piece None st) = simulateMove (board st) m
        /\ isSquareAttacked (row (kingSquareAfter (board st) m color))
                            (col (kingSquareAfter (board st) m color))
                            color (board (commitMove m piece None st)) = false
        /\ (forall k0, kingSquares (board st) color = [k0] ->
            forall s, In s (kingSquares (board (commitMove m piece None st)) color) ->
                      isSquareAttacked (row s) (col s) color
                                       (board (commitMove m piece None st)) = false)).
Proof.
  intros Hm Hks Hqs. pose proof Hm as Hm'.
  apply getLegalMoves_In in Hm' as (s0 & piece & _ & Hp & Hc & Hgen & Hsafe).
  pose proof (pseudo_from st _ _ piece m Hgen) as Hfrom.
  assert (Hfp : getSq (board st) (row (mfrom m)) (col (mfrom m)) = Some piece)
    by (rewrite Hfrom; exact Hp).
  exists piece. split; [exact Hfp|]. split; [exact Hc|].
  intros Hneed.
  assert (Hb : board (commitMove m piece None st) = simulateMove (board st) m).
  { apply commitMove_board; try assumption.
    intros Hep. destruct (pseudo_enpassant st _ _ piece m Hgen Hep) as (_ & Hr & Hcol).
    rewrite Hfrom. cbn [row col]. split.
    - rewrite Hr. destruct (pcolor piece); simpl; lia.
    - destruct Hcol as [-> | ->]; lia. }
  destruct (isMoveSafe_true st m color Hsafe) as [_ Hk].
  split.
  { unfold makeMove. rewrite Hfp, Hneed. reflexivity. }
  split; [exact Hb|]. rewrite Hb. split; [exact Hk|].
  intros k0 Hone s Hs.
  rewrite (king_after_move st color m k0 s Hm Hone Hs). exact Hk.
Qed.

(** The rook's half of a castling move is not on the scratch copy.  The
    executor moves whatever stands in the corner: with white's queen-side
    right still held (a captured rook revokes nothing) and black's king on
    a1, white castles, and [makeMove] puts that king on d1, next to white's
    king on c1. *)
Example castling_relocates_corner_piece :
  let b := setSq (setSq emptyBoard 7 4 (wp King)) 7 0 (bp King) in
  let st := mkGameState b White Pvp (mkCaptured [] []) 30 0
                        (mkCastlingRights (mkSideRights false true) (mkSideRights false false))
                        None None in
  let m := mkMove (mkSquare 7 4) (mkSquare 7 2) (Some CastleQs) in
  In m (getLegalMoves st White)
  /\ isSquareAttacked 7 2 White (simulateMove b m) = false
  /\ exists st',
       makeMove m None st = Returned st'
       /\ getSq (board st') 7 2 = wp King
       /\ getSq (board st') 7 3 = bp King
       /\ isSquareAttacked 7 2 White (board st') = true.
Proof.
  cbv zeta. split; [vm_compute; in_list|]. split; [reflexivity|].
  eexists. split; [reflexivity|]. repeat split.
Qed.

Lemma Special_eqb_eq (a b : option Special) : Special_eqb a b = true -> a = b.
Proof. destruct a as [[]|], b as [[]|]; cbn; congruence. Qed.

Lemma Move_eqb_eq (a b : Move) : Move_eqb a b = true -> a = b.
Proof.
  unfold Move_eqb. rewrite !andb_true_iff, !Z.eqb_eq.
  intros [[[[H1 H2] H3] H4] H5]. apply Special_eqb_eq in H5.
  destruct a as [[fr fc] [tr tc] sp], b as [[fr' fc'] [tr' tc'] sp'].
  cbn [mfrom mto special row col] in *. congruence.
Qed.

(** A line of legal moves leads from a position of a game to a position of
    a game. *)
Lemma playLine_reachable (line : list Move) :
  forall st st', Reachable st -> playLine line st = Some st' -> Reachable st'.
Proof.
  induction line as [|m rest IH]; intros st st' Hreach H; cbn [playLine] in H.
  - injection H as <-. exact Hreach.
  - destruct (existsb (Move_eqb m) (getLegalMoves st (turn st))) eqn:Hlegal; [|discriminate].
    apply existsb_exists in Hlegal. destruct Hlegal as (m' & Hin & Heq).
    apply Move_eqb_eq in Heq. subst m'.
    destruct (makeMove m None st) as [st1|e] eqn:Hmake; [|discriminate].
    apply (IH st1 st'); [|exact H].
    apply (reach_move st st1 m None Hreach Hin); [discriminate | exact Hmake].
Qed.

(** C1.  The invariant does not hold of the position a legal castling move
    leaves.  The game 1. b3 e5 2. Nc3 Ke7 3. d3 Kd6 4. Bd2 Kc5 5. e3 Kb4
    6. Qe2 Ka3 7. h3 Kb2 8. g3 Kxa1 is a game of legal moves; white still
    holds the queen-side right, and 9. O-O-O is in white's legal-move set:
    it passes [isMoveSafe], the king's landing square c1 being unattacked
    on the scratch copy, on which only the king has moved.  [makeMove]
    then moves what stands on a1 to d1, and on the position it leaves
    white's king, on c1, is attacked, by black's king on d1. *)
Theorem legal_castling_exposes_king :
  exists st st',
    playLine cornerLine (initGame Pvp) = Some st
    /\ Reachable st
    /\ turn st = White
    /\ In longCastle (getLegalMoves st White)
    /\ isMoveSafe st longCastle White = true
    /\ kingSquares (simulateMove (board st) longCastle) White = [mkSquare 7 2]
    /\ isSquareAttacked 7 2 White (simulateMove (board st) longCastle) = false
    /\ makeMove longCastle None st = Returned st'
    /\ kingSquares (board st') White = [mkSquare 7 2]
    /\ getSq (board st') 7 3 = Some (mkPiece Black King)
    /\ isSquareAttacked 7 2 White (board st') = true.
Proof.
  assert (Hline : exists st, playLine cornerLine (initGame Pvp) = Some st).
  { eexists. vm_compute. reflexivity. }
  destruct Hline as [st Hline].
  pose proof (playLine_reachable cornerLine (initGame Pvp) st (reach_init Pvp) Hline)
    as Hreach.
  vm_compute in Hline. injection Hline as Hst.
  exists st. eexists.
  split; [rewrite <- Hst; vm_compute; reflexivity|].
  split; [exact Hreach|].
  rewrite <- Hst.
  split; [reflexivity|].
  split; [vm_compute; in_list|].
  split; [vm_compute; reflexivity|].
  split; [vm_compute; reflexivity|].
  split; [vm_compute; reflexivity|].
  split; [vm_compute; reflexivity|].
  split; [vm_compute; reflexivity|].
  split; vm_compute; reflexivity.
Qed.

(** A double push sets the en-passant target on the square passed over; the
    capture on it is legal, takes the pawn that was pushed and enters it
    among the captured black pieces. *)
Example en_passant_scenario :
  exists st1 st2,
    makeMove d7d5 None enPassantState = Returned st1
    /\ enPassantTarget st1 = Some (mkSquare 2 3)
    /\ In e5d6 (getLegalMoves st1 White)
    /\ makeMove e5d6 None st1 = Returned st2
    /\ getSq (board st2) 2 3 = wp Pawn
    /\ getSq (board st2) 3 3 = None
    /\ capturedPieces st2 = mkCaptured [] [mkPiece Black Pawn]
    /\ enPassantTarget st2 = None
    /\ halfMoveClock st2 = 0.
Proof.
  eexists. eexists. split; [reflexivity|]. split; [reflexivity|].
  split; [vm_compute; in_list|]. split; [reflexivity|]. repeat split.
Qed.

(** What a call of [makeMove] that returns has done: deferred the move, or
    committed it. *)
Lemma makeMove_returns (move : Move) (promotionChoice : option PieceType)
      (st st' : GameState) :
  makeMove move promotionChoice st = Returned st' ->
  exists fromPiece,
    getSq (board st) (row (mfrom move)) (col (mfrom move)) = Some fromPiece
    /\ (st' = set_pendingPromotion (Some move) st
        \/ exists choice, st' = commitMove move fromPiece choice st).
Proof.
  unfold makeMove.
  destruct (getSq (board st) (row (mfrom move)) (col (mfrom move))) as [fromPiece|];
    [|discriminate].
  intros H. exists fromPiece. split; [reflexivity|].
  destruct (needsPromotionChoice move fromPiece promotionChoice).
  - destruct (autoPromotes st); inversion H; eauto.
  - inversion H; eauto.
Qed.

(** The two counters after a committed move.  The half-move clock is reset
    by a pawn move and by a capture and steps otherwise; the full-move
    counter steps when it was white, not black, who moved. *)
Lemma commitMove_counters (move : Move) (fromPiece : Piece)
      (choice : option PieceType) (st : GameState) :
  let st' := commitMove move fromPiece choice st in
  let capture := negb (cellEmpty (getSq (board st) (row (mto move)) (col (mto move)))) in
  halfMoveClock st'
  = (if PieceType_eqb (ptype fromPiece) Pawn || capture then 0 else halfMoveClock st + 1)
  /\ (turn st = White -> moveCount st' = moveCount st + 1)
  /\ (turn st = Black -> moveCount st' = moveCount st)
  /\ turn st' = enemyOf (turn st).
Proof.
  cbv zeta. unfold commitMove. cbn [halfMoveClock moveCount turn].
  split; [reflexivity|]. split; [|split]; try reflexivity; intros ->; reflexivity.
Qed.

(** C2.  The opening move 1. e4 e5 on the executor: after white's move the
    full-move counter has gone from 1 to 2, and black's reply leaves it at 2;
    with black to make its first move the FEN line already says move 2. *)
Theorem fullmove_counter_steps_on_white_move :
  exists st1 st2,
    makeMove e2e4 None (initGame Pvp) = Returned st1
    /\ makeMove e7e5 None st1 = Returned st2
    /\ moveCount (initGame Pvp) = 1
    /\ turn (initGame Pvp) = White /\ moveCount st1 = 2
    /\ turn st1 = Black /\ moveCount st2 = 2
    /\ boardToFEN st1
       = "rnbqkbnr/pppppppp/8/8/4P3/8/PPPP1PPP/RNBQKBNR b KQkq e3 0 2"%string.
Proof.
  eexists. eexists.
  split; [reflexivity|]. split; [reflexivity|]. repeat split.
Qed.

(** C4.  A move of a pawn to row 0 or row 7, made without a promotion choice
    and not by the computer's side in solo mode, is held in
    [pendingPromotion] and changes nothing else: board, castling rights,
    turn, both counters, captured pieces and en-passant target are as they
    were.  [handlePromotionChoice] then commits the held move with the
    chosen piece, hands the turn over and clears [pendingPromotion]. *)
Theorem promotion_is_deferred (st : GameState) (move : Move) (fromPiece : Piece)
        (type : PieceType) :
  getSq (board st) (row (mfrom move)) (col (mfrom move)) = Some fromPiece ->
  ptype fromPiece = Pawn ->
  row (mto move) = 0 \/ row (mto move) = 7 ->
  autoPromotes st = false ->
  exists held,
    makeMove move None st = Returned held
    /\ pendingPromotion held = Some move
    /\ board held = board st
    /\ castlingRights held = castlingRights st
    /\ turn held = turn st
    /\ halfMoveClock held = halfMoveClock st
    /\ moveCount held = moveCount st
    /\ capturedPieces held = capturedPieces st
    /\ enPassantTarget held = enPassantTarget st
    /\ gameMode held = gameMode st
    /\ exists done,
         handlePromotionChoice type held = Returned done
         /\ done = set_pendingPromotion None (commitMove move fromPiece (Some type) st)
         /\ pendingPromotion done = None
         /\ turn done = enemyOf (turn st).
Proof.
  intros Hp Hpawn Hrow Hauto.
  exists (set_pendingPromotion (Some move) st).
  assert (Hneed : needsPromotionChoice move fromPiece None = true).
  { unfold needsPromotionChoice. rewrite Hpawn. simpl.
    destruct Hrow as [-> | ->]; reflexivity. }
  split.
  { unfold makeMove. rewrite Hp, Hneed, Hauto. reflexivity. }
  repeat (split; [reflexivity|]).
  eexists. split.
  { unfold handlePromotionChoice. cbn [pendingPromotion set_pendingPromotion].
    unfold makeMove. cbn [board set_pendingPromotion]. rewrite Hp.
    cbn [needsPromotionChoice]. reflexivity. }
  repeat split.
Qed.

Lemma promotion_is_deferred_witness :
  In e7e8 (getLegalMoves promotionState White)
  /\ exists held,
       makeMove e7e8 None promotionState = Returned held
       /\ pendingPromotion held = Some e7e8
       /\ board held = promotionBoard
       /\ turn held = White.
Proof.
  split; [vm_compute; in_list|].
  destruct (promotion_is_deferred promotionState e7e8 (mkPiece White Pawn) Queen
              eq_refl eq_refl (or_introl eq_refl) eq_refl)
    as (held & Hmk & Hpend & Hb & _ & Ht & _).
  exists held. repeat split; assumption.
Defined.

(** C5, as the interface states it, fails on the opening position: no
    promotion is pending there, and resolving one returns to the caller
    without an error, with the state as it was. *)
Lemma resolve_without_pending_is_silent :
  pendingPromotion (initGame Pvp) = None
  /\ handlePromotionChoice Queen (initGame Pvp) = Returned (initGame Pvp)
  /\ ~ (exists e, handlePromotionChoice Queen (initGame Pvp) = Thrown e).
Proof.
  split; [reflexivity|]. split; [reflexivity|].
  intros [e He]. discriminate He.
Qed.

(** C5, amended.  With no promotion pending, [handlePromotionChoice] does
    nothing: it returns, and every global is as it was. *)
Theorem resolve_without_pending_is_noop (type : PieceType) (st : GameState) :
  pendingPromotion st = None ->
  handlePromotionChoice type st = Returned st.
Proof.
  intros H. unfold handlePromotionChoice. rewrite H. reflexivity.
Qed.

Lemma resolve_without_pending_is_noop_witness :
  handlePromotionChoice Rook (initGame Solo) = Returned (initGame Solo).
Proof.
  exact (resolve_without_pending_is_noop Rook (initGame Solo) eq_refl).
Defined.

(* ================================================================== *)
(** * The evaluator is a sum over the pieces *)
(* ================================================================== *)

(** A double loop over rows and columns is one loop over the squares. *)
Lemma fold_rows_cols {A : Type} (f : Z -> A -> Z -> A) (cols : list Z) :
  forall (rows : list Z) (a : A),
    fold_left (fun acc r => fold_left (f r) cols acc) rows a
    = fold_left (fun acc s => f (row s) acc (col s))
                (flat_map (fun r => map (fun c => mkSquare r c) cols) rows) a.
Proof.
  induction rows as [|r rows IH]; intros a; cbn [fold_left flat_map]; [reflexivity|].
  rewrite fold_left_app, <- IH. f_equal.
  generalize a. clear. induction cols as [|c cols IHc]; intros a; simpl; [reflexivity|].
  apply IHc.
Qed.

Lemma evalCell_term (b : Board) (r score c : Z) :
  evalCell b r score c = score + pieceTerm b (mkSquare r c).
Proof.
  unfold evalCell, pieceTerm. cbn [row col].
  destruct (getSq b r c) as [[pc pt]|]; [|lia].
  destruct pc, pt; cbn [pcolor ptype PIECE_VALUES materialValue sideSign tableRow]; lia.
Qed.

Lemma sum_terms_cons (b : Board) (s : Square) (l : list Square) :
  sumZ (map (pieceTerm b) (filter (occupied b) (s :: l)))
  = pieceTerm b s + sumZ (map (pieceTerm b) (filter (occupied b) l)).
Proof.
  cbn [filter]. destruct (occupied b s) eqn:Ho; [reflexivity|].
  assert (Hz : pieceTerm b s = 0).
  { unfold occupied in Ho. unfold pieceTerm.
    destruct (getSq b (row s) (col s)); [discriminate | reflexivity]. }
  rewrite Hz. reflexivity.
Qed.

Lemma fold_terms (b : Board) (l : list Square) :
  forall a,
    fold_left (fun acc s => evalCell b (row s) acc (col s)) l a
    = a + sumZ (map (pieceTerm b) (filter (occupied b) l)).
Proof.
  induction l as [|s l IH]; intros a.
  - simpl. lia.
  - rewrite sum_terms_cons. cbn [fold_left]. rewrite IH, evalCell_term.
    replace (mkSquare (row s) (col s)) with s by (destruct s; reflexivity).
    lia.
Qed.

(** C7.  The score of a board is the sum, over its occupied squares, of the
    material value of the piece (100, 320, 330, 500, 900, 20000 for pawn,
    knight, bishop, rook, queen, king) plus the entry of that piece type's
    table at the piece's square - at row [r] for black, at the mirrored row
    [7 - r] for white - counted positive for black, the computer's side, and
    negative for white. *)
Theorem evaluateBoard_is_material_plus_position (b : Board) :
  evaluateBoard b = materialAndPosition b
  /\ (forall t, PIECE_VALUES t = materialValue t)
  /\ (forall s p,
        getSq b (row s) (col s) = Some p ->
        pieceTerm b s
        = match pcolor p with
          | Black => PIECE_VALUES (ptype p) + pstAt (ptype p) (row s) (col s)
          | White => - (PIECE_VALUES (ptype p) + pstAt (ptype p) (7 - row s) (col s))
          end).
Proof.
  split; [|split].
  - unfold evaluateBoard, materialAndPosition.
    rewrite (fold_rows_cols (evalCell b) range8 range8 0).
    fold allSquares. rewrite fold_terms. lia.
  - intros []; reflexivity.
  - intros s p Hp. unfold pieceTerm. rewrite Hp.
    destruct p as [[] t]; destruct t; cbn [pcolor ptype sideSign tableRow PIECE_VALUES materialValue];
      lia.
Qed.

Lemma evaluateBoard_is_material_plus_position_witness :
  pieceTerm initialBoard (mkSquare 6 3) = - (100 + 50)
  /\ evaluateBoard initialBoard = materialAndPosition initialBoard.
Proof.
  split.
  - exact (proj2 (proj2 (evaluateBoard_is_material_plus_position initialBoard))
                 (mkSquare 6 3) (mkPiece White Pawn) eq_refl).
  - exact (proj1 (evaluateBoard_is_material_plus_position initialBoard)).
Defined.

(** A black pawn on its own starting row scores the 50 of row 1 of the pawn
    table; a white pawn on row 1, one step from promotion, scores the 5 of
    row 6. *)
Example pawn_table_orientation :
  evaluateBoard (setSq emptyBoard 1 0 (bp Pawn)) = 150
  /\ evaluateBoard (setSq emptyBoard 1 0 (wp Pawn)) = -105.
Proof. split; reflexivity. Qed.

(* ================================================================== *)
(** * Properties of the search *)
(* ================================================================== *)

(** Putting the saved globals back undoes the swap. *)
Lemma swapIn_restore (b : Board) (cr : CastlingRights) (ep : option Square) (st : GameState) :
  swapIn (board st) (castlingRights st) (enPassantTarget st) (swapIn b cr ep st) = st.
Proof. destruct st. reflexivity. Qed.

Lemma swapIn_reads (b : Board) (cr : CastlingRights) (ep : option Square) (st : GameState) :
  board (swapIn b cr ep st) = b
  /\ castlingRights (swapIn b cr ep st) = cr
  /\ enPassantTarget (swapIn b cr ep st) = ep.
Proof. repeat split. Qed.

(** The moves the search gathers depend on the node, not on the live game. *)
Lemma getLegalMoves_swapIn (b : Board) (cr : CastlingRights) (ep : option Square)
      (st st' : GameState) (color : Color) :
  getLegalMoves (swapIn b cr ep st) color = getLegalMoves (swapIn b cr ep st') color.
Proof. reflexivity. Qed.

Lemma minimax_S (depth' : nat) (boardState : Board) (alpha beta : Num)
      (isMaximizing : bool) (currentTurn : Color) (castleR : CastlingRights)
      (epTarget : option Square) (st : GameState) :
  minimax (S depth') boardState alpha beta isMaximizing currentTurn castleR epTarget st
  = let color := if isMaximizing then Black else White in
    let st1 := swapIn boardState castleR epTarget st in
    let moves := getLegalMoves st1 color in
    let st2 := swapIn (board st) (castlingRights st) (enPassantTarget st) st1 in
    match moves with
    | [] =>
        let kPos := findKing boardState color in
        if isSquareAttacked (row kPos) (col kPos) color boardState then
          (Fin (if isMaximizing
                then -99999 + (3 - Z.of_nat (S depth'))
                else 99999 - (3 - Z.of_nat (S depth'))), st2)
        else (Fin 0, st2)
    | _ :: _ =>
        if isMaximizing then
          loopMax
            (fun b a be cr ep s => minimax depth' b a be false (enemyOf color) cr ep s)
            boardState castleR color moves NegInf alpha beta st2
        else
          loopMin
            (fun b a be cr ep s => minimax depth' b a be true (enemyOf color) cr ep s)
            boardState castleR color moves PosInf alpha beta st2
    end.
Proof. reflexivity. Qed.

Section LoopsKeepState.
Variable child : Board -> Num -> Num -> CastlingRights -> option Square
                 -> GameState -> Num * GameState.
Hypothesis child_keeps : forall b a be cr ep s, snd (child b a be cr ep s) = s.
Variable boardState : Board.
Variable castleR : CastlingRights.
Variable color : Color.

Lemma loopMax_keeps (moves : list Move) :
  forall maxEval alpha beta st,
    snd (loopMax child boardState castleR color moves maxEval alpha beta st) = st.
Proof.
  induction moves as [|m rest IH]; intros maxEval alpha beta st; cbn [loopMax]; [reflexivity|].
  pose proof (child_keeps (searchBoard boardState m) alpha beta
                (searchRights boardState castleR color m) (epAfter m) st) as Hc.
  destruct (child _ _ _ _ _ st) as [evalScore st1]. simpl in Hc. subst st1.
  destruct (numLeb beta (numMax alpha evalScore)); [reflexivity | apply IH].
Qed.

Lemma loopMin_keeps (moves : list Move) :
  forall minEval alpha beta st,
    snd (loopMin child boardState castleR color moves minEval alpha beta st) = st.
Proof.
  induction moves as [|m rest IH]; intros minEval alpha beta st; cbn [loopMin]; [reflexivity|].
  pose proof (child_keeps (searchBoard boardState m) alpha beta
                (searchRights boardState castleR color m) (epAfter m) st) as Hc.
  destruct (child _ _ _ _ _ st) as [evalScore st1]. simpl in Hc. subst st1.
  destruct (numLeb (numMin beta evalScore) alpha); [reflexivity | apply IH].
Qed.
End LoopsKeepState.

(** A call of [minimax] returns with the globals it was called with. *)
Lemma minimax_keeps_state (depth : nat) :
  forall boardState alpha beta isMaximizing currentTurn castleR epTarget st,
    snd (minimax depth boardState alpha beta isMaximizing currentTurn castleR epTarget st)
    = st.
Proof.
  induction depth as [|depth IH]; intros; [reflexivity|].
  rewrite minimax_S. cbv zeta. rewrite swapIn_restore.
  destruct (getLegalMoves _ _) as [|m ms].
  - destruct (isSquareAttacked _ _ _ _); reflexivity.
  - destruct isMaximizing.
    + apply loopMax_keeps. intros. apply IH.
    + apply loopMin_keeps. intros. apply IH.
Qed.

(** C10.  Whatever board, rights, en-passant target, bounds, side and depth
    [minimax] is called with, the globals [board], [castlingRights] and
    [enPassantTarget] - the whole game state - hold after the call what they
    held before it: the swap made to gather the moves is undone at every
    node. *)
Theorem minimax_leaves_globals (depth : nat) (boardState : Board) (alpha beta : Num)
        (isMaximizing : bool) (currentTurn : Color) (castleR : CastlingRights)
        (epTarget : option Square) (st : GameState) :
  let st' :=
    snd (minimax depth boardState alpha beta isMaximizing currentTurn castleR epTarget st) in
  board st' = board st
  /\ castlingRights st' = castlingRights st
  /\ enPassantTarget st' = enPassantTarget st
  /\ st' = st.
Proof.
  cbv zeta. rewrite minimax_keeps_state. repeat split.
Qed.

(** The score does not depend on the live game either. *)
Lemma minimax_value_independent (depth : nat) :
  forall boardState alpha beta isMaximizing currentTurn castleR epTarget st st',
    fst (minimax depth boardState alpha beta isMaximizing currentTurn castleR epTarget st)
    = fst (minimax depth boardState alpha beta isMaximizing currentTurn castleR epTarget st').
Proof.
  induction depth as [|depth IH]; intros; [reflexivity|].
  rewrite !minimax_S. cbv zeta. rewrite !swapIn_restore.
  rewrite (getLegalMoves_swapIn boardState castleR epTarget st st').
  destruct (getLegalMoves _ _) as [|m ms].
  - destruct (isSquareAttacked _ _ _ _); reflexivity.
  - destruct isMaximizing.
    + generalize NegInf alpha. generalize (m :: ms). clear m ms.
      intros moves. induction moves as [|m rest IHm]; intros maxEval a; cbn [loopMax];
        [reflexivity|].
      pose proof (IH (searchBoard boardState m) a beta false (enemyOf Black)
                     (searchRights boardState castleR Black m) (epAfter m) st st') as Hv.
      pose proof (minimax_keeps_state depth (searchBoard boardState m) a beta false
                     (enemyOf Black) (searchRights boardState castleR Black m)
                     (epAfter m) st) as Hs.
      pose proof (minimax_keeps_state depth (searchBoard boardState m) a beta false
                     (enemyOf Black) (searchRights boardState castleR Black m)
                     (epAfter m) st') as Hs'.
      destruct (minimax depth _ _ _ _ _ _ _ st) as [e1 s1].
      destruct (minimax depth _ _ _ _ _ _ _ st') as [e2 s2].
      simpl in Hv, Hs, Hs'. subst e2 s1 s2.
      destruct (numLeb beta (numMax a e1)); [reflexivity | apply IHm].
    + generalize PosInf beta. generalize (m :: ms). clear m ms.
      intros moves. induction moves as [|m rest IHm]; intros minEval be; cbn [loopMin];
        [reflexivity|].
      pose proof (IH (searchBoard boardState m) alpha be true (enemyOf White)
                     (searchRights boardState castleR White m) (epAfter m) st st') as Hv.
      pose proof (minimax_keeps_state depth (searchBoard boardState m) alpha be true
                     (enemyOf White) (searchRights boardState castleR White m)
                     (epAfter m) st) as Hs.
      pose proof (minimax_keeps_state depth (searchBoard boardState m) alpha be true
                     (enemyOf White) (searchRights boardState castleR White m)
                     (epAfter m) st') as Hs'.
      destruct (minimax depth _ _ _ _ _ _ _ st) as [e1 s1].
      destruct (minimax depth _ _ _ _ _ _ _ st') as [e2 s2].
      simpl in Hv, Hs, Hs'. subst e2 s1 s2.
      destruct (numLeb (numMin be e1) alpha); [reflexivity | apply IHm].
Qed.

(** C6.  At depth 0 [minimax] returns the evaluator's score of the board.
    At a greater depth, when the side to act has no legal move on the given
    board, rights and en-passant target, it returns 0 if that side's king is
    not attacked, and otherwise [-99999 + (3 - depth)] for the maximizing
    side and [99999 - (3 - depth)] for the minimizing side: at most -99997,
    resp. at least 99997, and strictly lower, resp. higher, the more depth
    remains, that is, the sooner the mate comes. *)
Theorem minimax_leaf_and_terminal (boardState : Board) (alpha beta : Num)
        (isMaximizing : bool) (currentTurn : Color) (castleR : CastlingRights)
        (epTarget : option Square) (st : GameState) :
  let color := if isMaximizing then Black else White in
  let k := findKing boardState color in
  let value d :=
    fst (minimax d boardState alpha beta isMaximizing currentTurn castleR epTarget st) in
  value 0%nat = Fin (evaluateBoard boardState)
  /\ (getLegalMoves (swapIn boardState castleR epTarget st) color = [] ->
      (isSquareAttacked (row k) (col k) color boardState = false ->
       forall d, value (S d) = Fin 0)
      /\ (isSquareAttacked (row k) (col k) color boardState = true ->
          forall d, exists v,
            value (S d) = Fin v
            /\ v = (if isMaximizing
                    then -99999 + (3 - Z.of_nat (S d))
                    else 99999 - (3 - Z.of_nat (S d)))
            /\ (if isMaximizing then v <= -99997 else 99997 <= v)
            /\ forall d', (d < d')%nat ->
                 exists v', value (S d') = Fin v'
                            /\ (if isMaximizing then v' < v else v < v'))).
Proof.
  cbv zeta. split; [reflexivity|].
  intros Hnone. split.
  - intros Hsafe d. rewrite minimax_S. cbv zeta. rewrite Hnone, Hsafe. reflexivity.
  - intros Hatt d. eexists. split.
    { rewrite minimax_S. cbv zeta. rewrite Hnone, Hatt. reflexivity. }
    split; [reflexivity|]. split.
    { destruct isMaximizing; lia. }
    intros d' Hlt. eexists. split.
    { rewrite minimax_S. cbv zeta. rewrite Hnone, Hatt. reflexivity. }
    destruct isMaximizing; lia.
Qed.

Lemma minimax_leaf_and_terminal_witness :
  getLegalMoves (swapIn mateBoard noRights None (initGame Solo)) White = []
  /\ exists v,
       fst (minimax 2 mateBoard NegInf PosInf false White noRights None (initGame Solo))
       = Fin v
       /\ v = 99998.
Proof.
  assert (Hnone : getLegalMoves (swapIn mateBoard noRights None (initGame Solo)) White = [])
    by reflexivity.
  split; [exact Hnone|].
  destruct (proj2 (proj2 (minimax_leaf_and_terminal mateBoard NegInf PosInf false White
                            noRights None (initGame Solo)) Hnone) eq_refl 1%nat)
    as (v & Hv & Hval & _).
  exists v. split; [exact Hv | exact Hval].
Defined.

Example minimax_stalemate :
  getLegalMoves (swapIn stalemateBoard noRights None (initGame Solo)) White = []
  /\ fst (minimax 3 stalemateBoard NegInf PosInf false White noRights None (initGame Solo))
     = Fin 0.
Proof. split; reflexivity. Qed.

(** A mate in one found with two plies left outscores, for black, the same
    mate found with one ply left. *)
Example minimax_faster_mate :
  fst (minimax 2 mateBoard NegInf PosInf false White noRights None (initGame Solo)) = Fin 99998
  /\ fst (minimax 1 mateBoard NegInf PosInf false White noRights None (initGame Solo)) = Fin 99997.
Proof. split; reflexivity. Qed.

(* ================================================================== *)
(** * Properties of the difficulty policy *)
(* ================================================================== *)

(** ** The order on scores *)

Lemma numLeb_refl (x : Num) : numLeb x x = true.
Proof. destruct x; simpl; auto. apply Z.leb_refl. Qed.

Lemma numLeb_trans (x y z : Num) :
  numLeb x y = true -> numLeb y z = true -> numLeb x z = true.
Proof.
  destruct x, y, z; simpl; try congruence.
  rewrite !Z.leb_le. lia.
Qed.

Lemma numLeb_total (x y : Num) : numLeb x y = false -> numLeb y x = true.
Proof.
  destruct x, y; simpl; try congruence.
  rewrite Z.leb_gt, Z.leb_le. lia.
Qed.


(** ** The sort *)

Lemma insertScored_perm (x : ScoredMove) (l : list ScoredMove) :
  Permutation (insertScored x l) (x :: l).
Proof.
  induction l as [|y ys IH]; simpl; [reflexivity|].
  destruct (byScoreDesc x y); try reflexivity.
  rewrite IH. apply perm_swap.
Qed.

Lemma sortScored_perm (l : list ScoredMove) : Permutation (sortScored l) l.
Proof.
  induction l as [|x xs IH]; simpl; [reflexivity|].
  rewrite insertScored_perm. constructor. exact IH.
Qed.




(** ** The scoring *)

Lemma scoreMoves_spec (d : nat) (moves : list Move) (st : GameState) :
  scoreMoves d moves st
  = (map (fun m =>
            mkScored m
              (fst (minimax d (searchBoard (board st) m) NegInf PosInf false White
                            (castlingRights st) (epAfter m) st)))
         moves,
     st).
Proof.
  induction moves as [|m rest IH]; cbn [scoreMoves map]; [reflexivity|].
  pose proof (minimax_keeps_state d (searchBoard (board st) m) NegInf PosInf false White
                (castlingRights st) (epAfter m) st) as Hs.
  destruct (minimax d _ _ _ _ _ _ _ st) as [score st1]. simpl in Hs. subst st1.
  rewrite IH. reflexivity.
Qed.

(** ** The draw *)

(** The rounding of the product. *)

Lemma roundMantissa_error (M : Z) :
  0 <= M ->
  2 ^ 53 * (roundMantissa M - M) <= M /\ 2 ^ 53 * (M - roundMantissa M) <= M.
Proof.
  intros HM. unfold roundMantissa.
  destruct (M <? 2 ^ 53) eqn:E; [lia|].
  apply Z.ltb_ge in E. cbv zeta.
  assert (Hpos : 0 < M) by (pose proof (Z.pow_pos_nonneg 2 53); lia).
  destruct (Z.log2_spec M Hpos) as [Hlo Hhi].
  assert (Hlog : 53 <= Z.log2 M).
  { apply Z.log2_le_pow2; [exact Hpos | exact E]. }
  set (s := Z.log2 M - 52) in *.
  assert (Hs : 1 <= s) by (unfold s; lia).
  assert (Hhalf : 2 ^ s = 2 * 2 ^ (s - 1)).
  { replace s with (Z.succ (s - 1)) at 1 by lia. apply Z.pow_succ_r. lia. }
  assert (Hp : 0 < 2 ^ (s - 1)) by (apply Z.pow_pos_nonneg; lia).
  assert (Hbig : 2 ^ 53 * 2 ^ (s - 1) = 2 ^ Z.log2 M).
  { rewrite <- Z.pow_add_r by lia. f_equal. unfold s. lia. }
  pose proof (Z.div_mod M (2 ^ s) ltac:(lia)) as Hdm.
  pose proof (Z.mod_pos_bound M (2 ^ s) ltac:(lia)) as Hr.
  set (q := M / 2 ^ s) in *. set (r := M mod 2 ^ s) in *.
  set (h := 2 ^ (s - 1)) in *. set (P := 2 ^ 53) in *.
  destruct (r <? h) eqn:E1; [apply Z.ltb_lt in E1; nia|].
  apply Z.ltb_ge in E1.
  destruct (h <? r) eqn:E2; [apply Z.ltb_lt in E2; nia|].
  apply Z.ltb_ge in E2.
  destruct (Z.even q); nia.
Qed.

Lemma isDouble_spec (u : Q) :
  isDouble u = true -> 0 <= Qnum (Qred u) < 2 ^ 53.
Proof.
  unfold isDouble. cbv zeta. rewrite !andb_true_iff, !Z.leb_le, Z.ltb_lt. tauto.
Qed.

Lemma Qred_num_den (u : Q) : (u == Qnum (Qred u) # Qden (Qred u))%Q.
Proof. rewrite <- (Qred_correct u) at 1. destruct (Qred u). reflexivity. Qed.

(** The product of a draw and the length of a list of [n > 0] entries is a
    number of [[0, n)], also after rounding. *)
Lemma timesLength_range (u : Q) (n : Z) :
  (0 <= u)%Q -> (u < 1)%Q -> 0 < n ->
  (0 <= timesLength u n)%Q /\ (timesLength u n < inject_Z n)%Q.
Proof.
  intros H0 H1 Hn. unfold timesLength.
  destruct (isDouble u) eqn:Hd.
  - apply isDouble_spec in Hd.
    pose proof (Qred_num_den u) as Hu.
    set (m := Qnum (Qred u)) in *. set (d := Qden (Qred u)) in *.
    assert (Hmd : m < Zpos d).
    { rewrite Hu in H1. unfold Qlt in H1. cbn [Qnum Qden] in H1. lia. }
    destruct (roundMantissa_error (m * n) ltac:(nia)) as [Hup Hdown].
    set (R := roundMantissa (m * n)) in *. set (P := 2 ^ 53) in *.
    assert (HP : P = 9007199254740992) by reflexivity.
    split; unfold Qle, Qlt; cbn [Qnum Qden inject_Z]; nia.
  - split.
    + apply Qmult_le_0_compat; [exact H0|].
      change 0%Q with (inject_Z 0). rewrite <- Zle_Qle. lia.
    + setoid_replace (inject_Z n) with (1 * inject_Z n)%Q at 2 by ring.
      apply Qmult_lt_r; [|exact H1].
      change 0%Q with (inject_Z 0). rewrite <- Zlt_Qlt. exact Hn.
Qed.

(** The rounding moves the product by at most the [2^53]-th part of it. *)
Lemma timesLength_error (u : Q) (n : Z) :
  (0 <= u)%Q -> 0 <= n ->
  (timesLength u n - u * inject_Z n <= u * inject_Z n * roundingUnit)%Q
  /\ (u * inject_Z n - timesLength u n <= u * inject_Z n * roundingUnit)%Q.
Proof.
  intros H0 Hn. unfold timesLength.
  destruct (isDouble u) eqn:Hd.
  - apply isDouble_spec in Hd.
    pose proof (Qred_num_den u) as Hu.
    set (m := Qnum (Qred u)) in *. set (d := Qden (Qred u)) in *.
    destruct (roundMantissa_error (m * n) ltac:(nia)) as [Hup Hdown].
    set (R := roundMantissa (m * n)) in *.
    assert (HP : 2 ^ 53 = 9007199254740992) by reflexivity. rewrite HP in Hup, Hdown.
    rewrite Hu. unfold roundingUnit.
    split; unfold Qle, Qminus, Qplus, Qopp, Qmult; cbn [Qnum Qden inject_Z];
      rewrite ?Pos2Z.inj_mul; nia.
  - assert (Hx : (0 <= u * inject_Z n)%Q).
    { apply Qmult_le_0_compat; [exact H0|].
      change 0%Q with (inject_Z 0). rewrite <- Zle_Qle. lia. }
    assert (Hy : (0 <= u * inject_Z n * roundingUnit)%Q).
    { apply Qmult_le_0_compat; [exact Hx | discriminate]. }
    split; (setoid_replace (u * inject_Z n - u * inject_Z n)%Q with 0%Q by ring); exact Hy.
Qed.

(** A draw [u] of [[0, 1)] picks from a list of [n > 0] entries the entry
    at the index [i] with [i <= y < i + 1], where [y] is the product [u * n]
    as the double arithmetic gives it: within the [2^53]-th part of the
    exact product.  Each index has an interval of draws of the length
    [1 / n], up to that rounding. *)
Lemma pickAt_spec {A : Type} (l : list A) (u : Q) :
  l <> [] -> (0 <= u)%Q -> (u < 1)%Q ->
  exists (i : nat) (x : A),
    pickAt l u = Some x
    /\ nth_error l i = Some x
    /\ (i < length l)%nat
    /\ ((inject_Z (Z.of_nat i) <= timesLength u (Z.of_nat (length l)))%Q
        /\ (timesLength u (Z.of_nat (length l)) < inject_Z (Z.of_nat i + 1))%Q)
    /\ ((timesLength u (Z.of_nat (length l)) - u * inject_Z (Z.of_nat (length l))
         <= u * inject_Z (Z.of_nat (length l)) * roundingUnit)%Q
        /\ (u * inject_Z (Z.of_nat (length l)) - timesLength u (Z.of_nat (length l))
            <= u * inject_Z (Z.of_nat (length l)) * roundingUnit)%Q).
Proof.
  intros Hne H0 H1.
  set (n := Z.of_nat (length l)).
  assert (Hn : 0 < n).
  { unfold n. destruct l; [congruence | simpl length; lia]. }
  destruct (timesLength_range u n H0 H1 Hn) as [Hx0 Hx1].
  pose proof (timesLength_error u n H0 ltac:(lia)) as Herr.
  set (x := timesLength u n) in *.
  assert (Hf0 : 0 <= Qfloor x).
  { change 0 with (Qfloor (inject_Z 0)). apply Qfloor_resp_le. exact Hx0. }
  assert (Hf1 : Qfloor x < n).
  { rewrite Zlt_Qlt. eapply Qle_lt_trans; [apply Qfloor_le | exact Hx1]. }
  assert (Hi : (Z.to_nat (Qfloor x) < length l)%nat) by (unfold n in Hf1; lia).
  destruct (nth_error l (Z.to_nat (Qfloor x))) as [y|] eqn:Hnth.
  - exists (Z.to_nat (Qfloor x)), y.
    split.
    { unfold pickAt. fold n. fold x.
      replace (Qfloor x <? 0) with false by (symmetry; apply Z.ltb_ge; exact Hf0).
      exact Hnth. }
    split; [exact Hnth|]. split; [exact Hi|].
    rewrite Z2Nat.id by exact Hf0.
    split; [split; [apply Qfloor_le | apply Qlt_floor] | exact Herr].
  - apply nth_error_None in Hnth. lia.
Qed.

(** ** The tiers *)

(** Whatever [aiElo] holds, the config handed to [fallbackAIMove] has a
    depth from 1 to 3 and a blunder rate from 0 to 1/2. *)
Lemma configFor_tiers (aiElo : Z) :
  (1 <= depth (configFor aiElo) <= 3)%nat
  /\ (0 <= blunderRate (configFor aiElo))%Q
  /\ (blunderRate (configFor aiElo) <= 1 # 2)%Q.
Proof.
  unfold configFor, ELO_CONFIG.
  repeat (match goal with |- context [if ?b then _ else _] => destruct b end);
    cbn [depth blunderRate]; (split; [lia|]); split; discriminate.
Qed.

Lemma Qltb_lt (x y : Q) : Qltb x y = true <-> (x < y)%Q.
Proof.
  unfold Qltb. rewrite negb_true_iff. split.
  - intros H. apply Qnot_le_lt. intros Hle. apply Qle_bool_iff in Hle. congruence.
  - intros H. apply not_true_is_false. rewrite Qle_bool_iff. apply Qlt_not_le. exact H.
Qed.

Lemma numMinus10_le (x : Num) : numLeb (numMinus10 x) x = true.
Proof. destruct x; simpl; auto. apply Z.leb_le. lia. Qed.

Lemma scoredSorted_spec (config : Config) (st : GameState) :
  scoredSorted config st
  = (sortScored
       (map (fun m =>
               mkScored m
                 (fst (minimax (depth config - 1) (searchBoard (board st) m) NegInf PosInf
                               false White (castlingRights st) (epAfter m) st)))
            (getLegalMoves st Black)),
     st).
Proof. unfold scoredSorted. rewrite scoreMoves_spec. reflexivity. Qed.

(** The entry [chooseScored] settles on, for a list that is not empty. *)
Lemma chooseScored_spec (config : Config) (scored : list ScoredMove) (u1 u2 : Q) :
  scored <> [] -> (0 <= u2)%Q -> (u2 < 1)%Q ->
  exists best rest sub i sm,
    scored = best :: rest
    /\ chooseScored config scored u1 u2 = Some sm
    /\ pickAt sub u2 = Some sm
    /\ nth_error sub i = Some sm
    /\ ((inject_Z (Z.of_nat i) <= timesLength u2 (Z.of_nat (length sub)))%Q
        /\ (timesLength u2 (Z.of_nat (length sub)) < inject_Z (Z.of_nat i + 1))%Q)
    /\ ((timesLength u2 (Z.of_nat (length sub)) - u2 * inject_Z (Z.of_nat (length sub))
         <= u2 * inject_Z (Z.of_nat (length sub)) * roundingUnit)%Q
        /\ (u2 * inject_Z (Z.of_nat (length sub)) - timesLength u2 (Z.of_nat (length sub))
            <= u2 * inject_Z (Z.of_nat (length sub)) * roundingUnit)%Q)
    /\ ((u1 < blunderRate config)%Q -> sub = skipn (length scored / 2) scored)
    /\ (~ (u1 < blunderRate config)%Q ->
        sub = filter (fun m => numLeb (numMinus10 (sm_score best)) (sm_score m)) scored).
Proof.
  intros Hne H0 H1.
  destruct scored as [|best rest] eqn:Hsc; [congruence|]. rewrite <- Hsc in *.
  set (top := filter (fun m => numLeb (numMinus10 (sm_score best)) (sm_score m)) scored).
  set (half := skipn (length scored / 2) scored).
  assert (Htop : top <> []).
  { unfold top. rewrite Hsc. cbn [filter]. rewrite numMinus10_le. discriminate. }
  assert (Hhalf : half <> []).
  { intros E. apply (f_equal (@length ScoredMove)) in E. unfold half in E.
    rewrite length_skipn in E. change (length (@nil ScoredMove)) with 0%nat in E.
    assert (Hpos : (0 < length scored)%nat) by (rewrite Hsc; simpl; lia).
    pose proof (Nat.div_lt (length scored) 2 Hpos ltac:(lia)). lia. }
  unfold chooseScored.
  destruct (Qltb u1 (blunderRate config) && (1 <? length scored)%nat) eqn:Hcond.
  - apply andb_true_iff in Hcond as [Hlt _]. apply Qltb_lt in Hlt.
    destruct (pickAt_spec half u2 Hhalf H0 H1)
      as (i & sm & Hp & Hn & _ & [Hlo Hhi] & [Hup Hdown]).
    exists best, rest, half, i, sm. rewrite <- Hsc. fold half.
    repeat split; try assumption; try reflexivity. intros Hnot. contradiction.
  - destruct (pickAt_spec top u2 Htop H0 H1)
      as (i & sm & Hp & Hn & _ & [Hlo Hhi] & [Hup Hdown]).
    rewrite Hsc. rewrite <- Hsc. fold top.
    exists best, rest, top, i, sm.
    repeat split; try assumption; try reflexivity.
    intros Hlt. apply Qltb_lt in Hlt. rewrite Hlt in Hcond. cbn [andb] in Hcond.
    apply Nat.ltb_ge in Hcond.
    assert (Hrest : rest = []).
    { destruct rest; [reflexivity|]. rewrite Hsc in Hcond. simpl in Hcond. lia. }
    unfold top, half. rewrite Hsc, Hrest. cbn [filter length skipn Nat.div].
    rewrite numMinus10_le. reflexivity.
Qed.

(** The rounding shows at the draw [0.3333333333333333] on three entries:
    the exact product is below 1, the double product is 1, and the entry
    at the index 1 is taken. *)
Example pickAt_rounds_the_product :
  isDouble double_third = true
  /\ Qfloor (double_third * inject_Z 3) = 0
  /\ Qfloor (timesLength double_third 3) = 1
  /\ pickAt [10; 20; 30] double_third = Some 20.
Proof. repeat split; vm_compute; reflexivity. Qed.



(* ================================================================== *)
(** * The FEN writer produces the line of the interface *)
(* ================================================================== *)

Lemma append_nil_r (s : string) : append s EmptyString = s.
Proof. induction s as [|ch s IH]; simpl; [reflexivity | now rewrite IH]. Qed.

Lemma append_assoc (s1 s2 s3 : string) :
  append (append s1 s2) s3 = append s1 (append s2 s3).
Proof. induction s1 as [|ch s1 IH]; simpl; [reflexivity | now rewrite IH]. Qed.

(** The text of a sequence of tokens, written one after the other. *)
Lemma concat_empty_cons (x : string) (xs : list string) :
  String.concat EmptyString (x :: xs) = append x (String.concat EmptyString xs).
Proof.
  destruct xs as [|y ys]; cbn [String.concat].
  - symmetry. apply append_nil_r.
  - reflexivity.
Qed.

Lemma fenCell_fenStep (b : Board) (r : Z) (cols : list Z) :
  forall acc,
    fold_left (fenCell b r) cols acc = fold_left fenStep (map (getSq b r) cols) acc.
Proof.
  induction cols as [|c cols IH]; intros [fen cnt]; cbn [fold_left map]; [reflexivity|].
  rewrite <- IH. reflexivity.
Qed.

Lemma letter_tokenText (p : Piece) :
  str1 (match pcolor p with
        | White => toUpperCase (pieceLetter (ptype p))
        | Black => pieceLetter (ptype p)
        end)
  = tokenText (Occupied p).
Proof. destruct p as [[] []]; reflexivity. Qed.

Lemma withRun_empty (cnt : Z) (ts : list FenToken) :
  0 <= cnt ->
  withRun (cnt + 1) ts
  = withRun cnt (match ts with
                 | Empties n :: ts' => Empties (n + 1) :: ts'
                 | _ => Empties 1 :: ts
                 end).
Proof.
  intros Hc. unfold withRun.
  replace (cnt + 1 =? 0) with false by (symmetry; apply Z.eqb_neq; lia).
  destruct (cnt =? 0) eqn:E.
  - apply Z.eqb_eq in E. subst cnt. destruct ts as [|[n|p] ts']; reflexivity.
  - destruct ts as [|[n|p] ts']; f_equal; f_equal; lia.
Qed.

(** The counter of empty squares and the grouping into runs agree. *)
Lemma rank_loop (cells : list Cell) :
  forall fen cnt,
    0 <= cnt ->
    flush (fold_left fenStep cells (fen, cnt))
    = append fen (tokensText (withRun cnt (rankTokens cells))).
Proof.
  induction cells as [|x cells IH]; intros fen cnt Hc.
  - cbn [fold_left flush rankTokens]. unfold withRun, tokensText.
    destruct (cnt =? 0) eqn:E.
    + apply Z.eqb_eq in E. subst cnt. simpl. symmetry. apply append_nil_r.
    + apply Z.eqb_neq in E.
      replace (0 <? cnt) with true by (symmetry; apply Z.ltb_lt; lia).
      reflexivity.
  - destruct x as [p|]; cbn [fold_left fenStep rankTokens].
    + destruct (0 <? cnt) eqn:E.
      * rewrite IH by lia. apply Z.ltb_lt in E.
        unfold withRun. replace (cnt =? 0) with false by (symmetry; apply Z.eqb_neq; lia).
        cbn [Z.eqb]. unfold tokensText. cbn [map].
        rewrite !concat_empty_cons, letter_tokenText, !append_assoc. reflexivity.
      * apply Z.ltb_ge in E. assert (cnt = 0) by lia. subst cnt.
        rewrite IH by lia. unfold withRun. cbn [Z.eqb]. unfold tokensText. cbn [map].
        rewrite !concat_empty_cons, letter_tokenText, !append_assoc. reflexivity.
    + rewrite IH by lia. rewrite withRun_empty by exact Hc.
      destruct (rankTokens cells) as [|[n|q] ts']; reflexivity.
Qed.

Lemma fenRow_spec (b : Board) (fen : string) (r : Z) :
  fenRow b fen r
  = append fen (append (rankText b r) (if r <? 7 then "/" else EmptyString)).
Proof.
  unfold fenRow. rewrite fenCell_fenStep.
  pose proof (rank_loop (map (getSq b r) range8) fen 0 (Z.le_refl 0)) as H.
  destruct (fold_left fenStep (map (getSq b r) range8) (fen, 0)) as [fen1 cnt].
  cbn [flush] in H. unfold withRun in H. cbn [Z.eqb] in H. fold (rankText b r) in H.
  unfold tokensText in H. fold (rankText b r) in H.
  rewrite H. destruct (r <? 7).
  - rewrite append_assoc. reflexivity.
  - rewrite append_nil_r. reflexivity.
Qed.

Lemma castlingToken_field (cr : CastlingRights) : castlingToken cr = castlingField cr.
Proof. destruct cr as [[[] []] [[] []]]; reflexivity. Qed.

Lemma placement_spec (b : Board) :
  fold_left (fenRow b) range8 EmptyString = placementField b.
Proof.
  unfold placementField, range8. cbn [fold_left map String.concat].
  rewrite !fenRow_spec. cbn [Z.ltb Z.compare Pos.compare Pos.compare_cont].
  rewrite !append_assoc, !append_nil_r. reflexivity.
Qed.

(** ** One line, and one digit per run *)

Lemma singleLine_append (s1 s2 : string) :
  singleLine (append s1 s2) = singleLine s1 && singleLine s2.
Proof.
  unfold singleLine. induction s1 as [|ch s1 IH]; simpl; [reflexivity|].
  rewrite IH. apply andb_assoc.
Qed.

Lemma singleLine_concat (sep : string) (l : list string) :
  singleLine sep = true ->
  Forall (fun s => singleLine s = true) l ->
  singleLine (String.concat sep l) = true.
Proof.
  intros Hsep Hl. induction Hl as [|x xs Hx Hxs IH]; [reflexivity|].
  cbn [String.concat]. destruct xs as [|y ys]; [exact Hx|].
  rewrite !singleLine_append, Hx, Hsep, IH. reflexivity.
Qed.

Lemma singleLine_digits (d : Decimal.uint) :
  singleLine (NilEmpty.string_of_uint d) = true.
Proof. induction d; simpl; auto. Qed.

Lemma singleLine_numStr (z : Z) : singleLine (numStr z) = true.
Proof.
  unfold numStr, NilZero.string_of_int, NilZero.string_of_uint.
  destruct (Z.to_int z) as [d|d]; destruct d; try reflexivity;
    try (apply (singleLine_digits (_ d)));
    change (singleLine (String "-" ?s)) with (singleLine s); simpl;
    apply singleLine_digits.
Qed.

Lemma singleLine_rankText (b : Board) (r : Z) : singleLine (rankText b r) = true.
Proof.
  unfold rankText. apply singleLine_concat; [reflexivity|].
  apply Forall_forall. intros s Hs. apply in_map_iff in Hs as (t & <- & _).
  destruct t as [n|[[] []]]; try reflexivity. apply singleLine_numStr.
Qed.

Lemma rankTokens_runs (cells : list Cell) :
  Forall (runWithin (Z.of_nat (length cells))) (rankTokens cells).
Proof.
  induction cells as [|x cells IH]; [constructor|].
  assert (Hw : Forall (runWithin (Z.of_nat (length (x :: cells)))) (rankTokens cells)).
  { eapply Forall_impl; [|exact IH]. intros [k|p]; simpl; [lia | auto]. }
  destruct x as [p|]; cbn [rankTokens].
  - constructor; [exact I | exact Hw].
  - destruct (rankTokens cells) as [|[k|q] ts].
    + constructor; [simpl; lia | constructor].
    + inversion Hw as [|? ? Hk Hts]; subst. inversion IH as [|? ? Hk' _]; subst.
      constructor; [|exact Hts]. simpl in *. lia.
    + constructor; [simpl; lia | exact Hw].
Qed.

(** C9.  [boardToFEN] writes the six fields of the interface, in their
    order and separated by single spaces: the eight ranks from row 0 to
    row 7, separated by ['/'], each with its runs of empty squares written
    as their lengths and its pieces as the letters p r n b q k, upper case
    for white and lower case for black; ['w'] or ['b'] for the side to
    move; the held letters of [KQkq], or ['-']; the en-passant target as
    file letter (['a' + column]) and rank ([8 - row]), or ['-']; the
    half-move clock in decimal; and the full-move number in decimal, which
    is [max(1, moveCount)] and so at least 1.  A run of empty squares has 1
    to 8 squares, a single digit; and with an en-passant target on the grid
    the whole text has no line feed: it is one line. *)
Theorem boardToFEN_fields (st : GameState) :
  boardToFEN st = fenLine st
  /\ fenLine st
     = String.concat " "
         [ placementField (board st); sideField (turn st);
           castlingField (castlingRights st); enPassantField (enPassantTarget st);
           numStr (halfMoveClock st); numStr (Z.max 1 (moveCount st)) ]
  /\ 1 <= Z.max 1 (moveCount st)
  /\ (forall r, Forall (runWithin 8) (rankTokens (map (getSq (board st) r) range8)))
  /\ ((forall ep, enPassantTarget st = Some ep -> 0 <= col ep < 8) ->
      singleLine (boardToFEN st) = true).
Proof.
  assert (Heq : boardToFEN st = fenLine st).
  { unfold boardToFEN, fenLine, fenFields. rewrite placement_spec, castlingToken_field.
    cbn [String.concat].
    destruct (enPassantTarget st) as [ep|]; destruct (turn st);
      cbn [enPassantField sideField]; rewrite !append_assoc; reflexivity. }
  split; [exact Heq|]. split; [reflexivity|]. split; [lia|]. split.
  { intros r. apply (rankTokens_runs (map (getSq (board st) r) range8)). }
  intros Hep. rewrite Heq. unfold fenLine, fenFields.
  apply singleLine_concat; [reflexivity|].
  repeat constructor; try apply singleLine_numStr.
  - unfold placementField. apply singleLine_concat; [reflexivity|].
    apply Forall_forall. intros s Hs. apply in_map_iff in Hs as (r & <- & _).
    apply singleLine_rankText.
  - destruct (turn st); reflexivity.
  - destruct (castlingRights st) as [[[] []] [[] []]]; reflexivity.
  - destruct (enPassantTarget st) as [ep|]; [|reflexivity].
    specialize (Hep ep eq_refl). unfold enPassantField.
    change (singleLine (String ?ch ?s)) with (lineChar ch && singleLine s).
    rewrite singleLine_numStr, andb_true_r.
    assert (Hc : col ep = 0 \/ col ep = 1 \/ col ep = 2 \/ col ep = 3
                 \/ col ep = 4 \/ col ep = 5 \/ col ep = 6 \/ col ep = 7) by lia.
    destruct Hc as [-> | [-> | [-> | [-> | [-> | [-> | [-> | ->]]]]]]]; reflexivity.
Qed.

Lemma boardToFEN_fields_witness :
  singleLine (boardToFEN (initGame Pvp)) = true
  /\ boardToFEN (initGame Pvp)
     = "rnbqkbnr/pppppppp/8/8/8/8/PPPPPPPP/RNBQKBNR w KQkq - 0 1"%string.
Proof.
  split.
  - apply (proj2 (proj2 (proj2 (proj2 (boardToFEN_fields (initGame Pvp)))))).
    intros ep Hep. discriminate Hep.
  - exact (proj1 (boardToFEN_fields (initGame Pvp))).
Defined.

(* ================================================================== *)
(** * Further properties of the search: the bounds never change a score *)
(* ================================================================== *)

(** The scores with [-Infinity] and [Infinity] are totally ordered by [<=];
    the instance gives the [order] tactic of the standard library. *)
Module NumOrder <: TotalOrder.

Definition t := Num.

Definition eq := @Logic.eq Num.

Inductive below (x y : Num) : Prop := below_intro (H : numLeb y x = false).

Inductive atMost (x y : Num) : Prop := atMost_intro (H : numLeb x y = true).

Definition lt := below.

Definition le := atMost.

Definition eq_equiv : Equivalence eq := eq_equivalence.

Lemma lt_strorder : StrictOrder lt.
Proof.
  split.
  - intros x [H]. rewrite numLeb_refl in H. discriminate.
  - intros x y z [H1] [H2]. constructor. destruct x, y, z; simpl in *; try congruence.
    rewrite !Z.leb_gt in *. lia.
Qed.

Lemma lt_compat : Proper (eq ==> eq ==> iff) lt.
Proof. intros x x' -> y y' ->. reflexivity. Qed.

Lemma le_lteq (x y : Num) : le x y <-> lt x y \/ eq x y.
Proof.
  split.
  - intros [H]. destruct (numLeb y x) eqn:E.
    + right. unfold eq. destruct x, y; simpl in *; try congruence.
      rewrite !Z.leb_le in *. f_equal. lia.
    + left. constructor. exact E.
  - intros [[H]|H]; constructor.
    + apply numLeb_total. exact H.
    + rewrite H. apply numLeb_refl.
Qed.

Lemma lt_total (x y : Num) : lt x y \/ eq x y \/ lt y x.
Proof.
  destruct (numLeb y x) eqn:E1; [|left; constructor; exact E1].
  destruct (numLeb x y) eqn:E2; [|right; right; constructor; exact E2].
  right; left. unfold eq. destruct x, y; simpl in *; try congruence.
  rewrite !Z.leb_le in *. f_equal. lia.
Qed.

End NumOrder.

Module NumTac := MakeOrderTac NumOrder NumOrder.

Lemma atMost_elim (x y : Num) : NumOrder.le x y -> numLeb x y = true.
Proof. intros [H]. exact H. Qed.

Lemma below_elim (x y : Num) : NumOrder.lt x y -> numLeb y x = false.
Proof. intros [H]. exact H. Qed.

Ltac num_fold :=
  repeat match goal with
  | H : numLeb ?x ?y = true |- _ =>
      apply NumOrder.atMost_intro in H; change (NumOrder.le x y) in H
  | H : numLeb ?x ?y = false |- _ =>
      apply NumOrder.below_intro in H; change (NumOrder.lt y x) in H
  | H : @Logic.eq Num ?x ?y |- _ => change (NumOrder.eq x y) in H
  | |- numLeb ?x ?y = true => apply atMost_elim
  | |- numLeb ?x ?y = false => apply below_elim
  | |- @Logic.eq Num ?x ?y => change (NumOrder.eq x y)
  end.

(** Goals about [numLeb], [numMax] and [numMin] that hold in every total
    order: the tests are split into their cases, and [order] concludes. *)
Ltac num_order :=
  unfold withinWindow, numMax, numMin, numLtb in *;
  repeat match goal with H : _ /\ _ |- _ => destruct H end;
  repeat match goal with
  | |- context [if numLeb ?x ?y then _ else _] => destruct (numLeb x y) eqn:?
  | H : context [if numLeb ?x ?y then _ else _] |- _ => destruct (numLeb x y) eqn:?
  end;
  repeat split; intros;
  repeat match goal with
  | H : ?b = ?b -> _ |- _ => specialize (H eq_refl)
  | H : true = false -> _ |- _ => clear H
  | H : false = true -> _ |- _ => clear H
  | H : numLeb ?x ?y = _ -> _ |- _ => destruct (numLeb x y) eqn:?
  end;
  try discriminate;
  num_fold;
  repeat match goal with H : @Logic.eq bool _ _ |- _ => clear H end;
  NumTac.order.

(** One turn of the loop of the maximizing side that ends in [break]. *)
Lemma max_step_break (mx a beta r v V' : Num) :
  numLeb mx a = true -> numLeb beta a = false ->
  withinWindow a beta r v ->
  numLeb beta (numMax a r) = true ->
  numLeb mx (numMax mx r) = true
  /\ (numLeb (numMax mx r) a = true -> numLeb (numMax v V') (numMax mx r) = true)
  /\ (numLeb beta (numMax mx r) = true -> numLeb (numMax mx r) (numMax v V') = true)
  /\ (numLeb (numMax mx r) a = false -> numLeb beta (numMax mx r) = false ->
      numMax mx r = numMax v V').
Proof. intros H1 H2 H3 H4. num_order. Qed.

(** One turn that goes on, given what the rest of the loop returns. *)
Lemma max_step_on (mx a beta r v V' R : Num) :
  numLeb mx a = true -> numLeb beta a = false ->
  withinWindow a beta r v ->
  numLeb beta (numMax a r) = false ->
  (numLeb (numMax mx r) R = true
   /\ (numLeb R (numMax a r) = true -> numLeb V' R = true)
   /\ (numLeb beta R = true -> numLeb R V' = true)
   /\ (numLeb R (numMax a r) = false -> numLeb beta R = false -> R = V')) ->
  numLeb mx R = true
  /\ (numLeb R a = true -> numLeb (numMax v V') R = true)
  /\ (numLeb beta R = true -> numLeb R (numMax v V') = true)
  /\ (numLeb R a = false -> numLeb beta R = false -> R = numMax v V').
Proof. intros H1 H2 H3 H4 H5. num_order. Qed.

Lemma min_step_break (mn alpha b r v V' : Num) :
  numLeb b mn = true -> numLeb b alpha = false ->
  withinWindow alpha b r v ->
  numLeb (numMin b r) alpha = true ->
  numLeb (numMin mn r) mn = true
  /\ (numLeb (numMin mn r) alpha = true -> numLeb (numMin v V') (numMin mn r) = true)
  /\ (numLeb b (numMin mn r) = true -> numLeb (numMin mn r) (numMin v V') = true)
  /\ (numLeb (numMin mn r) alpha = false -> numLeb b (numMin mn r) = false ->
      numMin mn r = numMin v V').
Proof. intros H1 H2 H3 H4. num_order. Qed.

Lemma min_step_on (mn alpha b r v V' R : Num) :
  numLeb b mn = true -> numLeb b alpha = false ->
  withinWindow alpha b r v ->
  numLeb (numMin b r) alpha = false ->
  (numLeb R (numMin mn r) = true
   /\ (numLeb R alpha = true -> numLeb V' R = true)
   /\ (numLeb (numMin b r) R = true -> numLeb R V' = true)
   /\ (numLeb R alpha = false -> numLeb (numMin b r) R = false -> R = V')) ->
  numLeb R mn = true
  /\ (numLeb R alpha = true -> numLeb (numMin v V') R = true)
  /\ (numLeb b R = true -> numLeb R (numMin v V') = true)
  /\ (numLeb R alpha = false -> numLeb b R = false -> R = numMin v V').
Proof. intros H1 H2 H3 H4 H5. num_order. Qed.

Lemma numMax_mono (x y r : Num) :
  numLeb x y = true -> numLeb (numMax x r) (numMax y r) = true.
Proof. intros H. num_order. Qed.

Lemma numMin_mono (x y r : Num) :
  numLeb x y = true -> numLeb (numMin x r) (numMin y r) = true.
Proof. intros H. num_order. Qed.

Section LoopsWithinWindow.
Variable child : Board -> Num -> Num -> CastlingRights -> option Square
                 -> GameState -> Num * GameState.
Variable boardState : Board.
Variable castleR : CastlingRights.
Variable color : Color.
Variable childValue : Move -> Num.
Hypothesis child_keeps : forall b a be cr ep s, snd (child b a be cr ep s) = s.
Hypothesis child_within :
  forall m a be s,
    numLeb be a = false ->
    withinWindow a be
      (fst (child (searchBoard boardState m) a be
                  (searchRights boardState castleR color m) (epAfter m) s))
      (childValue m).

Lemma loopMax_within (beta : Num) (moves : list Move) :
  forall mx a st,
    numLeb mx a = true -> numLeb beta a = false ->
    let R := fst (loopMax child boardState castleR color moves mx a beta st) in
    let V := maxOf (map childValue moves) in
    numLeb mx R = true
    /\ (numLeb R a = true -> numLeb V R = true)
    /\ (numLeb beta R = true -> numLeb R V = true)
    /\ (numLeb R a = false -> numLeb beta R = false -> R = V).
Proof.
  induction moves as [|m rest IH]; intros mx a st Hmx Hab; cbv zeta.
  - cbn [loopMax fst map maxOf fold_right].
    assert (Hbot : numLeb NegInf mx = true) by reflexivity.
    num_order.
  - cbn [loopMax map maxOf fold_right]. fold (maxOf (map childValue rest)).
    pose proof (child_within m a beta st Hab) as Hw.
    pose proof (child_keeps (searchBoard boardState m) a beta
                  (searchRights boardState castleR color m) (epAfter m) st) as Hk.
    destruct (child _ _ _ _ _ st) as [r st1]. cbn [fst snd] in Hw, Hk. subst st1.
    destruct (numLeb beta (numMax a r)) eqn:Hcut.
    + cbn [fst]. apply max_step_break; assumption.
    + assert (Hmx1 : numLeb (numMax mx r) (numMax a r) = true)
        by (apply numMax_mono; exact Hmx).
      specialize (IH (numMax mx r) (numMax a r) st Hmx1 Hcut). cbv zeta in IH.
      apply (max_step_on mx a beta r (childValue m)); assumption.
Qed.

Lemma loopMin_within (alpha : Num) (moves : list Move) :
  forall mn b st,
    numLeb b mn = true -> numLeb b alpha = false ->
    let R := fst (loopMin child boardState castleR color moves mn alpha b st) in
    let V := minOf (map childValue moves) in
    numLeb R mn = true
    /\ (numLeb R alpha = true -> numLeb V R = true)
    /\ (numLeb b R = true -> numLeb R V = true)
    /\ (numLeb R alpha = false -> numLeb b R = false -> R = V).
Proof.
  induction moves as [|m rest IH]; intros mn b st Hmn Hab; cbv zeta.
  - cbn [loopMin fst map minOf fold_right].
    assert (Htop : numLeb mn PosInf = true) by (destruct mn; reflexivity).
    num_order.
  - cbn [loopMin map minOf fold_right]. fold (minOf (map childValue rest)).
    pose proof (child_within m alpha b st Hab) as Hw.
    pose proof (child_keeps (searchBoard boardState m) alpha b
                  (searchRights boardState castleR color m) (epAfter m) st) as Hk.
    destruct (child _ _ _ _ _ st) as [r st1]. cbn [fst snd] in Hw, Hk. subst st1.
    destruct (numLeb (numMin b r) alpha) eqn:Hcut.
    + cbn [fst]. apply min_step_break; assumption.
    + assert (Hmn1 : numLeb (numMin b r) (numMin mn r) = true)
        by (apply numMin_mono; exact Hmn).
      specialize (IH (numMin mn r) (numMin b r) st Hmn1 Hcut). cbv zeta in IH.
      apply (min_step_on mn alpha b r (childValue m)); assumption.
Qed.
End LoopsWithinWindow.

Lemma withinWindow_exact (alpha beta v : Num) : withinWindow alpha beta v v.
Proof. unfold withinWindow. repeat split; intros; apply numLeb_refl. Qed.

(** The score of a node for a window and the node's exhaustive value. *)
Lemma minimax_within (depth : nat) :
  forall boardState alpha beta isMaximizing currentTurn castleR epTarget st,
    numLeb beta alpha = false ->
    withinWindow alpha beta
      (fst (minimax depth boardState alpha beta isMaximizing currentTurn
                    castleR epTarget st))
      (exhaustive depth boardState isMaximizing castleR epTarget).
Proof.
  induction depth as [|depth IH]; intros b alpha beta isMax currentTurn cr ep st Hab.
  - apply withinWindow_exact.
  - rewrite minimax_S. cbv zeta. rewrite swapIn_restore.
    cbn [exhaustive].
    rewrite (getLegalMoves_swapIn b cr ep st (initGame Pvp)).
    destruct (getLegalMoves _ _) as [|m ms] eqn:Hmoves.
    + destruct (isSquareAttacked _ _ _ _); apply withinWindow_exact.
    + destruct isMax.
      * pose proof (loopMax_within
                      (fun b' a be cr' ep' s => minimax depth b' a be false (enemyOf Black) cr' ep' s)
                      b cr Black
                      (fun move => exhaustive depth (searchBoard b move) false
                                              (searchRights b cr Black move) (epAfter move))
                      (fun b' a be cr' ep' s =>
                         minimax_keeps_state depth b' a be false (enemyOf Black) cr' ep' s)
                      (fun mv a be s Hlt =>
                         IH (searchBoard b mv) a be false (enemyOf Black)
                            (searchRights b cr Black mv) (epAfter mv) s Hlt)
                      beta (m :: ms) NegInf alpha st eq_refl Hab) as H.
        cbv zeta in H. destruct H as (_ & H1 & H2 & H3).
        unfold withinWindow. cbn [negb]. auto.
      * pose proof (loopMin_within
                      (fun b' a be cr' ep' s => minimax depth b' a be true (enemyOf White) cr' ep' s)
                      b cr White
                      (fun move => exhaustive depth (searchBoard b move) true
                                              (searchRights b cr White move) (epAfter move))
                      (fun b' a be cr' ep' s =>
                         minimax_keeps_state depth b' a be true (enemyOf White) cr' ep' s)
                      (fun mv a be s Hlt =>
                         IH (searchBoard b mv) a be true (enemyOf White)
                            (searchRights b cr White mv) (epAfter mv) s Hlt)
                      alpha (m :: ms) PosInf beta st
                      ltac:(destruct beta; reflexivity) Hab) as H.
        cbv zeta in H. destruct H as (_ & H1 & H2 & H3).
        unfold withinWindow. cbn [negb]. auto.
Qed.

(** With the full window the score is the exhaustive value. *)
Lemma minimax_full_window (depth : nat) (boardState : Board) (isMaximizing : bool)
      (currentTurn : Color) (castleR : CastlingRights) (epTarget : option Square)
      (st : GameState) :
  fst (minimax depth boardState NegInf PosInf isMaximizing currentTurn castleR epTarget st)
  = exhaustive depth boardState isMaximizing castleR epTarget.
Proof.
  pose proof (minimax_within depth boardState NegInf PosInf isMaximizing currentTurn
                castleR epTarget st eq_refl) as H.
  set (r := fst _) in *. set (v := exhaustive _ _ _ _ _) in *.
  assert (Hbot : numLeb NegInf v = true) by reflexivity.
  assert (Htop : numLeb v PosInf = true) by (destruct v; reflexivity).
  clearbody r v. num_order.
Qed.

(** X1.  The bounds of the search change no score that matters.  For every
    node and every window [alpha < beta], the score [minimax] returns is the
    value of the exhaustive search when it lies strictly inside the window,
    an upper bound of that value when it is at or below [alpha], and a lower
    bound when it is at or above [beta]; with the full window from
    [-Infinity] to [Infinity], as [fallbackAIMove] and [getHint] call it,
    the score is the exhaustive value. *)
Theorem alpha_beta_is_exhaustive (depth : nat) (boardState : Board) (isMaximizing : bool)
        (currentTurn : Color) (castleR : CastlingRights) (epTarget : option Square)
        (st : GameState) :
  fst (minimax depth boardState NegInf PosInf isMaximizing currentTurn castleR epTarget st)
  = exhaustive depth boardState isMaximizing castleR epTarget
  /\ forall alpha beta,
       numLeb beta alpha = false ->
       withinWindow alpha beta
         (fst (minimax depth boardState alpha beta isMaximizing currentTurn
                       castleR epTarget st))
         (exhaustive depth boardState isMaximizing castleR epTarget).
Proof.
  split.
  - apply minimax_full_window.
  - intros alpha beta Hab. apply minimax_within. exact Hab.
Qed.

Lemma alpha_beta_is_exhaustive_witness :
  withinWindow (Fin 1000) (Fin 2000)
    (fst (minimax 1 initialBoard (Fin 1000) (Fin 2000) false White allRights None
                  (initGame Pvp)))
    (exhaustive 1 initialBoard false allRights None).
Proof.
  exact (proj2 (alpha_beta_is_exhaustive 1 initialBoard false White allRights None
                  (initGame Pvp)) (Fin 1000) (Fin 2000) eq_refl).
Defined.

(** A window above the value of the node: the loop of the minimizing side
    stops at its first move, whose score 40 is no more than a bound of the
    value -50. *)
Example pruned_score_is_a_bound :
  fst (minimax 1 initialBoard (Fin 1000) (Fin 2000) false White allRights None (initGame Pvp))
  = Fin 40
  /\ exhaustive 1 initialBoard false allRights None = Fin (-50).
Proof. split; reflexivity. Qed.

(* ------------------------------------------------------------------ *)
(** ** The score is a number *)

Section LoopsFinite.
Variable child : Board -> Num -> Num -> CastlingRights -> option Square
                 -> GameState -> Num * GameState.
Variable boardState : Board.
Variable castleR : CastlingRights.
Variable color : Color.
Hypothesis child_finite : forall b a be cr ep s, exists z, fst (child b a be cr ep s) = Fin z.

Lemma loopMax_finite (moves : list Move) :
  forall mx a beta st,
    (mx = NegInf /\ moves <> []) \/ (exists z, mx = Fin z) ->
    exists z, fst (loopMax child boardState castleR color moves mx a beta st) = Fin z.
Proof.
  induction moves as [|m rest IH]; intros mx a beta st Hmx; cbn [loopMax].
  - destruct Hmx as [[_ H]|[z ->]]; [congruence | exists z; reflexivity].
  - destruct (child_finite (searchBoard boardState m) a beta
                (searchRights boardState castleR color m) (epAfter m) st) as [z Hz].
    destruct (child _ _ _ _ _ st) as [r st1]. cbn [fst] in Hz. subst r.
    assert (Hfin : exists z', numMax mx (Fin z) = Fin z').
    { destruct Hmx as [[-> _]|[z0 ->]]; unfold numMax; simpl; eauto.
      destruct (z0 <=? z); eauto. }
    destruct (numLeb beta (numMax a (Fin z))); [exact Hfin|].
    apply IH. right. exact Hfin.
Qed.

Lemma loopMin_finite (moves : list Move) :
  forall mn a beta st,
    (mn = PosInf /\ moves <> []) \/ (exists z, mn = Fin z) ->
    exists z, fst (loopMin child boardState castleR color moves mn a beta st) = Fin z.
Proof.
  induction moves as [|m rest IH]; intros mn a beta st Hmn; cbn [loopMin].
  - destruct Hmn as [[_ H]|[z ->]]; [congruence | exists z; reflexivity].
  - destruct (child_finite (searchBoard boardState m) a beta
                (searchRights boardState castleR color m) (epAfter m) st) as [z Hz].
    destruct (child _ _ _ _ _ st) as [r st1]. cbn [fst] in Hz. subst r.
    assert (Hfin : exists z', numMin mn (Fin z) = Fin z').
    { destruct Hmn as [[-> _]|[z0 ->]]; unfold numMin; simpl; eauto.
      destruct (z0 <=? z); eauto. }
    destruct (numLeb (numMin beta (Fin z)) a); [exact Hfin|].
    apply IH. right. exact Hfin.
Qed.
End LoopsFinite.

(** X2.  Whatever the window, [minimax] returns a finite integer: the
    [-Infinity] and [Infinity] that its running best starts from never come
    out of it, so that the comparator [b.score - a.score] of
    [fallbackAIMove] never meets [Infinity - Infinity]. *)
Theorem minimax_is_finite (depth : nat) :
  forall boardState alpha beta isMaximizing currentTurn castleR epTarget st,
    exists z,
      fst (minimax depth boardState alpha beta isMaximizing currentTurn castleR epTarget st)
      = Fin z.
Proof.
  induction depth as [|depth IH]; intros b alpha beta isMax currentTurn cr ep st.
  - eexists. reflexivity.
  - rewrite minimax_S. cbv zeta.
    destruct (getLegalMoves _ _) as [|m ms].
    + destruct (isSquareAttacked _ _ _ _); eexists; reflexivity.
    + destruct isMax.
      * apply loopMax_finite; [intros; apply IH | left; split; [reflexivity | discriminate]].
      * apply loopMin_finite; [intros; apply IH | left; split; [reflexivity | discriminate]].
Qed.

(* ================================================================== *)
(** * Further properties of the hint *)
(* ================================================================== *)

Lemma hintValue_exhaustive (st : GameState) (m : Move) :
  hintValue st m
  = exhaustive 3 (searchBoard (board st) m) (negb (Color_eqb (turn st) Black))
               (castlingRights st) (epAfter m).
Proof. apply minimax_full_window. Qed.

Lemma hintLoop_black (st : GameState) (moves : list Move) :
  turn st = Black ->
  forall bestMove bestScore,
    let '(bm, bs, st') := hintLoop true moves bestMove bestScore st in
    st' = st
    /\ numLeb bestScore bs = true
    /\ (forall m, In m moves -> numLeb (hintValue st m) bs = true)
    /\ ((bm = bestMove /\ bs = bestScore) \/ (In bm moves /\ hintValue st bm = bs)).
Proof.
  intros Ht. induction moves as [|m rest IH]; intros bestMove bestScore; cbn [hintLoop].
  - repeat split; [apply numLeb_refl | intros _ [] | left; split; reflexivity].
  - assert (Hv : fst (minimax 3 (searchBoard (board st) m) NegInf PosInf false White
                              (castlingRights st) (epAfter m) st) = hintValue st m)
      by (unfold hintValue; rewrite Ht; reflexivity).
    pose proof (minimax_keeps_state 3 (searchBoard (board st) m) NegInf PosInf false White
                  (castlingRights st) (epAfter m) st) as Hs.
    destruct (minimax 3 _ _ _ _ _ _ _ st) as [score st1]. cbn [fst snd] in Hv, Hs.
    subst st1 score.
    destruct (numLtb bestScore (hintValue st m)) eqn:Hlt.
    + specialize (IH m (hintValue st m)).
      destruct (hintLoop true rest m (hintValue st m) st) as [[bm bs] st'].
      destruct IH as (Hst & Hle & Hall & Hbest).
      split; [exact Hst|]. split; [|split].
      * apply numLeb_trans with (hintValue st m); [|exact Hle].
        unfold numLtb in Hlt. apply negb_true_iff in Hlt.
        apply numLeb_total. exact Hlt.
      * intros m' [<-|Hin]; [exact Hle | exact (Hall m' Hin)].
      * right. destruct Hbest as [[-> <-]|[Hin Hval]].
        -- split; [left; reflexivity | reflexivity].
        -- split; [right; exact Hin | exact Hval].
    + specialize (IH bestMove bestScore).
      destruct (hintLoop true rest bestMove bestScore st) as [[bm bs] st'].
      destruct IH as (Hst & Hle & Hall & Hbest).
      split; [exact Hst|]. split; [exact Hle|]. split.
      * intros m' [<-|Hin]; [|exact (Hall m' Hin)].
        apply numLeb_trans with bestScore; [|exact Hle].
        unfold numLtb in Hlt. apply negb_false_iff in Hlt. exact Hlt.
      * destruct Hbest as [H|[Hin Hval]]; [left; exact H | right; split; [right; exact Hin | exact Hval]].
Qed.

Lemma hintLoop_white (st : GameState) (moves : list Move) :
  turn st = White ->
  forall bestMove bestScore,
    let '(bm, bs, st') := hintLoop false moves bestMove bestScore st in
    st' = st
    /\ numLeb bs bestScore = true
    /\ (forall m, In m moves -> numLeb bs (hintValue st m) = true)
    /\ ((bm = bestMove /\ bs = bestScore) \/ (In bm moves /\ hintValue st bm = bs)).
Proof.
  intros Ht. induction moves as [|m rest IH]; intros bestMove bestScore; cbn [hintLoop].
  - repeat split; [apply numLeb_refl | intros _ [] | left; split; reflexivity].
  - assert (Hv : fst (minimax 3 (searchBoard (board st) m) NegInf PosInf true Black
                              (castlingRights st) (epAfter m) st) = hintValue st m)
      by (unfold hintValue; rewrite Ht; reflexivity).
    pose proof (minimax_keeps_state 3 (searchBoard (board st) m) NegInf PosInf true Black
                  (castlingRights st) (epAfter m) st) as Hs.
    destruct (minimax 3 _ _ _ _ _ _ _ st) as [score st1]. cbn [fst snd] in Hv, Hs.
    subst st1 score.
    destruct (numLtb (hintValue st m) bestScore) eqn:Hlt.
    + specialize (IH m (hintValue st m)).
      destruct (hintLoop false rest m (hintValue st m) st) as [[bm bs] st'].
      destruct IH as (Hst & Hle & Hall & Hbest).
      split; [exact Hst|]. split; [|split].
      * apply numLeb_trans with (hintValue st m); [exact Hle|].
        unfold numLtb in Hlt. apply negb_true_iff in Hlt.
        apply numLeb_total. exact Hlt.
      * intros m' [<-|Hin]; [exact Hle | exact (Hall m' Hin)].
      * right. destruct Hbest as [[-> <-]|[Hin Hval]].
        -- split; [left; reflexivity | reflexivity].
        -- split; [right; exact Hin | exact Hval].
    + specialize (IH bestMove bestScore).
      destruct (hintLoop false rest bestMove bestScore st) as [[bm bs] st'].
      destruct IH as (Hst & Hle & Hall & Hbest).
      split; [exact Hst|]. split; [exact Hle|]. split.
      * intros m' [<-|Hin]; [|exact (Hall m' Hin)].
        apply numLeb_trans with bestScore; [exact Hle|].
        unfold numLtb in Hlt. apply negb_false_iff in Hlt. exact Hlt.
      * destruct Hbest as [H|[Hin Hval]]; [left; exact H | right; split; [right; exact Hin | exact Hval]].
Qed.

(** X3.  The built-in hint.  [getHint] leaves the globals as they were;
    without a legal move for the side to move it highlights nothing;
    otherwise the move it highlights is a legal move of that side whose
    value, the exhaustive three-ply value of the position after it, is the
    greatest among the legal moves when black is to move and the least when
    white is. *)
Theorem getHint_is_best (st : GameState) :
  snd (getHintBuiltin st) = st
  /\ (getLegalMoves st (turn st) = [] -> fst (getHintBuiltin st) = None)
  /\ (getLegalMoves st (turn st) <> [] ->
      exists best,
        fst (getHintBuiltin st) = Some best
        /\ In best (getLegalMoves st (turn st))
        /\ forall m, In m (getLegalMoves st (turn st)) ->
             let value move :=
               exhaustive 3 (searchBoard (board st) move) (negb (Color_eqb (turn st) Black))
                          (castlingRights st) (epAfter move) in
             if Color_eqb (turn st) Black
             then numLeb (value m) (value best) = true
             else numLeb (value best) (value m) = true).
Proof.
  unfold getHintBuiltin.
  destruct (getLegalMoves st (turn st)) as [|first rest] eqn:Hmoves.
  - repeat split. intros H. congruence.
  - cbv zeta. destruct (turn st) eqn:Ht; cbn [Color_eqb].
    + pose proof (hintLoop_white st (first :: rest) Ht first PosInf) as H.
      destruct (hintLoop false (first :: rest) first PosInf st) as [[bm bs] st'].
      destruct H as (Hst & _ & Hall & Hbest). cbn [fst snd].
      split; [exact Hst|]. split; [discriminate|]. intros _.
      exists bm. split; [reflexivity|].
      assert (Hval : forall m, hintValue st m
                = exhaustive 3 (searchBoard (board st) m) true (castlingRights st) (epAfter m)).
      { intros m. rewrite hintValue_exhaustive, Ht. reflexivity. }
      destruct Hbest as [[-> ->]|[Hin Hbs]].
      * split; [left; reflexivity|]. intros m Hm. rewrite <- !Hval.
        pose proof (Hall m Hm) as H1. pose proof (Hall first (or_introl eq_refl)) as H2.
        destruct (hintValue st first); try discriminate H2.
        destruct (hintValue st m); try discriminate H1. reflexivity.
      * split; [exact Hin|]. intros m Hm. rewrite <- !Hval. rewrite Hbs. exact (Hall m Hm).
    + pose proof (hintLoop_black st (first :: rest) Ht first NegInf) as H.
      destruct (hintLoop true (first :: rest) first NegInf st) as [[bm bs] st'].
      destruct H as (Hst & _ & Hall & Hbest). cbn [fst snd].
      split; [exact Hst|]. split; [discriminate|]. intros _.
      exists bm. split; [reflexivity|].
      assert (Hval : forall m, hintValue st m
                = exhaustive 3 (searchBoard (board st) m) false (castlingRights st) (epAfter m)).
      { intros m. rewrite hintValue_exhaustive, Ht. reflexivity. }
      destruct Hbest as [[-> ->]|[Hin Hbs]].
      * split; [left; reflexivity|]. intros m Hm. rewrite <- !Hval.
        pose proof (Hall m Hm) as H1. pose proof (Hall first (or_introl eq_refl)) as H2.
        destruct (hintValue st first); try discriminate H2.
        destruct (hintValue st m); try discriminate H1. reflexivity.
      * split; [exact Hin|]. intros m Hm. rewrite <- !Hval. rewrite Hbs. exact (Hall m Hm).
Qed.

Lemma getHint_is_best_witness :
  fst (getHintBuiltin (set_board mateBoard (initGame Pvp))) = None.
Proof.
  apply (proj1 (proj2 (getHint_is_best (set_board mateBoard (initGame Pvp))))).
  vm_compute. reflexivity.
Defined.

(* ================================================================== *)
(** * Further properties of the engine's answer *)
(* ================================================================== *)

Lemma allSquares_valid (s : Square) :
  In s allSquares -> isValidSquare (row s) (col s) = true.
Proof.
  revert s. apply Forall_forall. vm_compute. repeat constructor.
Qed.

(** The name of a square of the board is its file letter and its rank
    digit. *)
Lemma squareName_chars (s : Square) :
  isValidSquare (row s) (col s) = true ->
  squareName s
  = String (ascii_of_nat (Z.to_nat (97 + col s)))
           (String (ascii_of_nat (Z.to_nat (56 - row s))) EmptyString).
Proof.
  intros H. apply isValidSquare_spec in H. destruct s as [r c]. cbn [row col] in *.
  assert (Hr : r = 0 \/ r = 1 \/ r = 2 \/ r = 3 \/ r = 4 \/ r = 5 \/ r = 6 \/ r = 7) by lia.
  assert (Hc : c = 0 \/ c = 1 \/ c = 2 \/ c = 3 \/ c = 4 \/ c = 5 \/ c = 6 \/ c = 7) by lia.
  clear H.
  repeat (destruct Hr as [->|Hr]); try subst r;
    repeat (destruct Hc as [->|Hc]); try subst c; reflexivity.
Qed.

Lemma file_code (c : Z) :
  0 <= c < 8 -> Z.of_nat (nat_of_ascii (ascii_of_nat (Z.to_nat (97 + c)))) - 97 = c.
Proof.
  intros H. rewrite nat_ascii_embedding; lia.
Qed.

Lemma rank_digit (r : Z) :
  0 <= r < 8 ->
  (let n := nat_of_ascii (ascii_of_nat (Z.to_nat (56 - r))) in
   if ((48 <=? n) && (n <=? 57))%nat then Some (Z.of_nat n - 48) else None)
  = Some (8 - r).
Proof.
  intros H. cbv zeta. rewrite nat_ascii_embedding by lia.
  replace ((48 <=? Z.to_nat (56 - r))%nat) with true by (symmetry; apply Nat.leb_le; lia).
  replace ((Z.to_nat (56 - r) <=? 57)%nat) with true by (symmetry; apply Nat.leb_le; lia).
  cbn [andb]. f_equal. lia.
Qed.

(** What [uciToCoords] reads from the names of two squares of the board,
    followed by anything. *)
Lemma uciToCoords_names (from to : Square) (suffix : string) :
  isValidSquare (row from) (col from) = true ->
  isValidSquare (row to) (col to) = true ->
  uciToCoords (append (squareName from) (append (squareName to) suffix))
  = mkCoords (Some (row from)) (Some (col from)) (Some (row to)) (Some (col to))
             (String.get 0 suffix).
Proof.
  intros Hf Ht. rewrite (squareName_chars from Hf), (squareName_chars to Ht).
  apply isValidSquare_spec in Hf, Ht.
  unfold uciToCoords, parseIntAt, charCodeAt. cbn [append String.get option_map String.length].
  rewrite !rank_digit by lia. cbn [option_map].
  rewrite !file_code by lia.
  replace (8 - (8 - row from)) with (row from) by lia.
  replace (8 - (8 - row to)) with (row to) by lia.
  f_equal. destruct suffix; reflexivity.
Qed.

Lemma legal_from_valid (st : GameState) (color : Color) (m : Move) :
  In m (getLegalMoves st color) ->
  isValidSquare (row (mfrom m)) (col (mfrom m)) = true.
Proof.
  intros H. apply getLegalMoves_In in H. destruct H as (s & piece & Hs & _ & _ & Hin & _).
  apply pseudo_from in Hin. rewrite Hin. cbn [row col]. apply allSquares_valid. exact Hs.
Qed.

(** X4.  The answer of the engine in [makeAIMove].  A move is handed to
    [makeMove] only if it is a legal move of black whose four coordinates
    are the ones read from the answer, together with the fifth character of
    the answer if there is one; the fallback is taken exactly when there is
    no answer or no legal move of black has these coordinates, as for every
    answer of fewer than four characters. *)
Theorem engine_answer_is_checked (answer : option string) (st : GameState) :
  (forall m p,
      oracleDecision answer st = Play m p ->
      exists uci,
        answer = Some uci
        /\ In m (getLegalMoves st Black)
        /\ Some (row (mfrom m)) = fromR (uciToCoords uci)
        /\ Some (col (mfrom m)) = fromC (uciToCoords uci)
        /\ Some (row (mto m)) = toR (uciToCoords uci)
        /\ Some (col (mto m)) = toC (uciToCoords uci)
        /\ p = (if (4 <? String.length uci)%nat then String.get 4 uci else None))
  /\ (oracleDecision answer st = Fallback <->
      (answer = None
       \/ exists uci,
            answer = Some uci
            /\ forall m, In m (getLegalMoves st Black) ->
                         sameSquares (uciToCoords uci) m = false))
  /\ (forall uci, answer = Some uci -> (String.length uci < 4)%nat ->
                  oracleDecision answer st = Fallback).
Proof.
  assert (Heq : forall x y, jsEq x y = true -> Some x = y).
  { intros x [z|]; simpl; [|discriminate]. intros H. apply Z.eqb_eq in H. congruence. }
  split; [|split].
  - intros m p H. destruct answer as [uci|]; [|discriminate]. exists uci.
    cbn [oracleDecision] in H. cbv zeta in H.
    destruct (find _ _) as [move|] eqn:Hfind; [|discriminate].
    injection H as -> <-. apply find_some in Hfind. destruct Hfind as [Hin Hsame].
    unfold sameSquares in Hsame. rewrite !andb_true_iff in Hsame.
    destruct Hsame as [[[H1 H2] H3] H4].
    repeat split; auto.
  - destruct answer as [uci|]; cbn [oracleDecision]; cbv zeta.
    + destruct (find _ _) as [move|] eqn:Hfind.
      * split; [discriminate|]. intros [H|(uci' & H & Hall)]; [discriminate|].
        injection H as <-. apply find_some in Hfind. destruct Hfind as [Hin Hsame].
        rewrite (Hall move Hin) in Hsame. discriminate.
      * split; [|reflexivity]. intros _. right. exists uci. split; [reflexivity|].
        intros m Hm. exact (find_none _ _ Hfind m Hm).
    + split; [left|]; reflexivity.
  - intros uci -> Hlen. cbn [oracleDecision]. cbv zeta.
    assert (HtoR : toR (uciToCoords uci) = None).
    { unfold uciToCoords, parseIntAt. cbn [toR].
      destruct uci as [|a [|b [|c [|d u]]]]; cbn [String.length] in Hlen;
        try reflexivity; lia. }
    destruct (find _ _) as [move|] eqn:Hfind; [|reflexivity].
    apply find_some in Hfind. destruct Hfind as [_ Hsame].
    unfold sameSquares in Hsame. rewrite HtoR in Hsame. cbn [jsEq] in Hsame.
    rewrite andb_false_r, andb_false_l in Hsame. discriminate.
Qed.

(** X5.  The names of squares that [boardToFEN] writes are the names that
    [uciToCoords] reads: an answer made of the names of the two squares of a
    legal move of black, whatever follows them, makes [makeAIMove] play a
    legal move of black between these two squares, with the character that
    follows them, if any, as the promotion choice. *)
Theorem engine_answer_naming_a_legal_move (st : GameState) (m : Move) (suffix : string) :
  In m (getLegalMoves st Black) ->
  isValidSquare (row (mto m)) (col (mto m)) = true ->
  enPassantField (Some (mfrom m)) = squareName (mfrom m)
  /\ exists m',
       oracleDecision (Some (append (squareName (mfrom m))
                                    (append (squareName (mto m)) suffix))) st
       = Play m' (String.get 0 suffix)
       /\ In m' (getLegalMoves st Black)
       /\ mfrom m' = mfrom m /\ mto m' = mto m.
Proof.
  intros Hin Hto. split; [reflexivity|].
  pose proof (legal_from_valid st Black m Hin) as Hfrom.
  cbn [oracleDecision]. cbv zeta.
  rewrite (uciToCoords_names (mfrom m) (mto m) suffix Hfrom Hto). cbn [promotion].
  set (coords := mkCoords _ _ _ _ _).
  assert (Hsame : forall m', sameSquares coords m' = true <-> (mfrom m' = mfrom m /\ mto m' = mto m)).
  { intros m'. unfold sameSquares, coords. cbn [fromR fromC toR toC jsEq].
    rewrite !andb_true_iff, !Z.eqb_eq.
    destruct (mfrom m') as [a b], (mto m') as [c d], (mfrom m) as [a' b'], (mto m) as [c' d'].
    cbn [row col]. split.
    - intros [[[-> ->] ->] ->]. split; reflexivity.
    - intros [H1 H2]. injection H1 as -> ->. injection H2 as -> ->. repeat split. }
  destruct (find (sameSquares coords) (getLegalMoves st Black)) as [m'|] eqn:Hfind.
  - exists m'. apply find_some in Hfind. destruct Hfind as [Hin' Hs].
    apply Hsame in Hs. destruct Hs as [H1 H2]. repeat split; assumption.
  - exfalso. pose proof (find_none _ _ Hfind m Hin) as H.
    assert (Ht : sameSquares coords m = true) by (apply Hsame; split; reflexivity).
    congruence.
Qed.

(* ================================================================== *)
(** * Further properties of the move generator *)
(* ================================================================== *)

Lemma enemy_is_not_own (x : Cell) (color : Color) :
  cellHasColor x (enemyOf color) = true -> cellHasColor x color = false.
Proof.
  destruct x as [[pc pt]|]; simpl; [|discriminate].
  destruct pc, color; simpl; congruence.
Qed.

Lemma empty_is_not_own (x : Cell) (color : Color) :
  cellEmpty x = true -> cellHasColor x color = false.
Proof. destruct x; simpl; congruence. Qed.

Section GeneratorShape.
Variable st : GameState.
Variables r c : Z.

Lemma lands_single (color : Color) (tr tc : Z) (sp : option Special) :
  isValidSquare tr tc = true ->
  (sp <> Some EnPassant -> cellHasColor (getSq (board st) tr tc) color = false) ->
  Forall (landsWell st color) [addMove r c tr tc sp].
Proof.
  intros Hv Hc. constructor; [|constructor]. split; [exact Hv | exact Hc].
Qed.

Lemma slide_lands (fuel : nat) (color : Color) (dr dc : Z) :
  forall tr tc, Forall (landsWell st color) (slide st r c fuel (enemyOf color) tr tc dr dc).
Proof.
  induction fuel as [|fuel IH]; intros tr tc; cbn [slide]; [constructor|].
  destruct (isValidSquare tr tc) eqn:Hv; [|constructor].
  destruct (getSq (board st) tr tc) as [p|] eqn:Hp.
  - destruct (Color_eqb (pcolor p) (enemyOf color)) eqn:Hc; [|constructor].
    apply lands_single; [exact Hv|].
    intros _. rewrite Hp. apply enemy_is_not_own. exact Hc.
  - constructor; [|apply IH].
    split; [exact Hv|]. intros _. unfold targetOf. cbn [mto addMove row col].
    rewrite Hp. reflexivity.
Qed.

Lemma sliding_lands (color : Color) (t : PieceType) :
  Forall (landsWell st color)
    (flat_map
       (fun d : Z * Z =>
          slide st r c 8 (enemyOf color) (r + fst d) (c + snd d) (fst d) (snd d))
       (slidingDirs t)).
Proof.
  induction (slidingDirs t) as [|d ds IH]; cbn [flat_map]; [constructor|].
  apply Forall_app; split; [apply slide_lands | exact IH].
Qed.

Lemma stepMoves_lands (color : Color) (offsets : list (Z * Z)) :
  Forall (landsWell st color) (stepMoves st r c (enemyOf color) offsets).
Proof.
  unfold stepMoves. induction offsets as [|o os IH]; cbn [flat_map]; [constructor|].
  apply Forall_app; split; [|exact IH].
  destruct (isValidSquare (r + fst o) (c + snd o)) eqn:Hv; [|constructor].
  cbv zeta.
  destruct (cellEmpty _ || cellHasColor _ _) eqn:Ht; [|constructor].
  apply lands_single; [exact Hv|].
  intros _. apply orb_true_iff in Ht as [Ht|Ht];
    [apply empty_is_not_own | apply enemy_is_not_own]; exact Ht.
Qed.

Lemma pawnMoves_lands (color : Color) : Forall (landsWell st color) (pawnMoves st r c color).
Proof.
  unfold pawnMoves. cbv zeta. apply Forall_app; split.
  - destruct (isValidSquare (r + direction color) c && _) eqn:H1; [|constructor].
    apply andb_true_iff in H1 as [Hv He].
    constructor.
    + split; [exact Hv|]. intros _. apply empty_is_not_own. exact He.
    + destruct (_ || _); [|constructor].
      destruct (isValidSquare (r + direction color * 2) c && _) eqn:H2; [|constructor].
      apply andb_true_iff in H2 as [Hv2 He2].
      apply lands_single; [exact Hv2|].
      intros _. apply empty_is_not_own. exact He2.
  - cbn [flat_map]. rewrite app_nil_r.
    assert (Hd : forall tr tc,
               Forall (landsWell st color)
                 (if isValidSquare tr tc
                  then (if cellHasColor (getSq (board st) tr tc) (enemyOf color)
                        then [addMove r c tr tc None] else [])
                       ++ match enPassantTarget st with
                          | Some ep =>
                              if (tr =? row ep) && (tc =? col ep)
                              then [addMove r c tr tc (Some EnPassant)] else []
                          | None => []
                          end
                  else [])).
    { intros tr tc. destruct (isValidSquare tr tc) eqn:Hv; [|constructor].
      apply Forall_app; split.
      - destruct (cellHasColor _ _) eqn:Hc; [|constructor].
        apply lands_single; [exact Hv|].
        intros _. apply enemy_is_not_own. exact Hc.
      - destruct (enPassantTarget st) as [ep|]; [|constructor].
        destruct (_ && _); [|constructor].
        apply lands_single; [exact Hv|]. intros H. congruence. }
    apply Forall_app; split; apply Hd.
Qed.

Lemma castleMoves_castle (color : Color) :
  Forall (fun m => isCastle m /\ cellEmpty (targetOf st m) = true) (castleMoves st r c color).
Proof.
  unfold castleMoves. apply Forall_app; split.
  - destruct (canCastle _ _ KingSide); [|constructor].
    destruct (_ && cellEmpty (getSq (board st) r (c + 2))) eqn:He; [|constructor].
    apply andb_true_iff in He as [_ He].
    constructor; [split; [left; reflexivity | exact He] | constructor].
  - destruct (canCastle _ _ QueenSide); [|constructor].
    destruct (_ && _ && _) eqn:He; [|constructor].
    apply andb_true_iff in He as [He _]. apply andb_true_iff in He as [_ He].
    constructor; [split; [right; reflexivity | exact He] | constructor].
Qed.

Lemma plain_not_castle (m : Move) : plainFrom r c m -> ~ isCastle m.
Proof. intros (_ & H1 & H2) [H|H]; contradiction. Qed.

(** A generated move is a castling move onto an empty cell, or it lands on
    the board, and not on a piece of its own colour unless it captures en
    passant. *)
Lemma pseudo_lands (piece : Piece) (m : Move) :
  In m (getPseudoLegalMoves st r c piece) ->
  (isCastle m /\ cellEmpty (targetOf st m) = true)
  \/ (~ isCastle m /\ landsWell st (pcolor piece) m).
Proof.
  unfold getPseudoLegalMoves. cbv zeta. intros Hin.
  pose proof (sliding_lands (pcolor piece)) as Hs.
  pose proof (sliding_plain st r c (enemyOf (pcolor piece))) as Hp.
  destruct (ptype piece) eqn:Ht.
  - right. split.
    + apply plain_not_castle. eapply Forall_forall in Hin; [exact Hin | apply pawnMoves_plain].
    + eapply Forall_forall in Hin; [exact Hin | apply pawnMoves_lands].
  - right. split.
    + apply plain_not_castle. eapply Forall_forall in Hin; [exact Hin | apply stepMoves_plain].
    + eapply Forall_forall in Hin; [exact Hin | apply stepMoves_lands].
  - right. split.
    + apply plain_not_castle. eapply Forall_forall in Hin; [exact Hin | apply Hp].
    + eapply Forall_forall in Hin; [exact Hin | apply Hs].
  - right. split.
    + apply plain_not_castle. eapply Forall_forall in Hin; [exact Hin | apply Hp].
    + eapply Forall_forall in Hin; [exact Hin | apply Hs].
  - right. split.
    + apply plain_not_castle. eapply Forall_forall in Hin; [exact Hin | apply Hp].
    + eapply Forall_forall in Hin; [exact Hin | apply Hs].
  - apply in_app_or in Hin as [Hin|Hin].
    + right. split.
      * apply plain_not_castle.
        eapply Forall_forall in Hin; [exact Hin | apply stepMoves_plain].
      * eapply Forall_forall in Hin; [exact Hin | apply stepMoves_lands].
    + left. eapply Forall_forall in Hin; [exact Hin | apply castleMoves_castle].
Qed.

(** The moves of one ray: the landing square is some steps ahead, over
    empty squares of the board. *)
Lemma slide_path (fuel : nat) (enemyColor : Color) (dr dc : Z) (m : Move) :
  forall tr tc,
    In m (slide st r c fuel enemyColor tr tc dr dc) ->
    exists k, 0 <= k
      /\ special m = None
      /\ mto m = mkSquare (tr + k * dr) (tc + k * dc)
      /\ isValidSquare (tr + k * dr) (tc + k * dc) = true
      /\ forall j, 0 <= j < k ->
           isValidSquare (tr + j * dr) (tc + j * dc) = true
           /\ getSq (board st) (tr + j * dr) (tc + j * dc) = None.
Proof.
  induction fuel as [|fuel IH]; intros tr tc Hin; cbn [slide] in Hin; [contradiction|].
  destruct (isValidSquare tr tc) eqn:Hv; [|contradiction].
  assert (Hhere : m = addMove r c tr tc None ->
                  exists k, 0 <= k
                    /\ special m = None
                    /\ mto m = mkSquare (tr + k * dr) (tc + k * dc)
                    /\ isValidSquare (tr + k * dr) (tc + k * dc) = true
                    /\ forall j, 0 <= j < k ->
                         isValidSquare (tr + j * dr) (tc + j * dc) = true
                         /\ getSq (board st) (tr + j * dr) (tc + j * dc) = None).
  { intros ->. exists 0. rewrite !Z.mul_0_l, !Z.add_0_r.
    repeat split; try reflexivity; try lia. exact Hv. }
  destruct (getSq (board st) tr tc) as [p|] eqn:Hp.
  - destruct (Color_eqb (pcolor p) enemyColor); [|contradiction].
    destruct Hin as [<-|[]]. apply Hhere. reflexivity.
  - destruct Hin as [<-|Hin]; [apply Hhere; reflexivity|].
    apply IH in Hin. destruct Hin as (k & Hk & Hsp & Hto & Hval & Hpath).
    exists (k + 1). split; [lia|]. split; [exact Hsp|].
    replace (tr + (k + 1) * dr) with (tr + dr + k * dr) by lia.
    replace (tc + (k + 1) * dc) with (tc + dc + k * dc) by lia.
    split; [exact Hto|]. split; [exact Hval|].
    intros j Hj. destruct (Z.eq_dec j 0) as [->|Hne].
    + rewrite !Z.mul_0_l, !Z.add_0_r. split; assumption.
    + specialize (Hpath (j - 1) ltac:(lia)).
      replace (tr + dr + (j - 1) * dr) with (tr + j * dr) in Hpath by lia.
      replace (tc + dc + (j - 1) * dc) with (tc + j * dc) in Hpath by lia.
      exact Hpath.
Qed.

(** A rook, a bishop or a queen goes along one of its directions over empty
    squares. *)
Lemma pseudo_sliding_path (piece : Piece) (m : Move) :
  ptype piece = Rook \/ ptype piece = Bishop \/ ptype piece = Queen ->
  In m (getPseudoLegalMoves st r c piece) ->
  exists d k,
    In d (slidingDirs (ptype piece))
    /\ 1 <= k
    /\ special m = None
    /\ (row (mto m), col (mto m)) = stepFrom r c d k
    /\ clearPath (board st) r c d k.
Proof.
  intros Ht Hin. unfold getPseudoLegalMoves in Hin. cbv zeta in Hin.
  assert (Hs : In m (flat_map
                       (fun d : Z * Z =>
                          slide st r c 8 (enemyOf (pcolor piece)) (r + fst d) (c + snd d)
                                (fst d) (snd d))
                       (slidingDirs (ptype piece)))).
  { destruct Ht as [Ht|[Ht|Ht]]; rewrite Ht in Hin |- *; exact Hin. }
  clear Hin. apply in_flat_map in Hs. destruct Hs as (d & Hd & Hin).
  apply slide_path in Hin. destruct Hin as (k & Hk & Hsp & Hto & _ & Hpath).
  exists d, (k + 1). split; [exact Hd|]. split; [lia|]. split; [exact Hsp|].
  unfold stepFrom, clearPath. rewrite Hto. cbn [row col fst snd]. split.
  - f_equal; lia.
  - intros j Hj. specialize (Hpath (j - 1) ltac:(lia)).
    replace (r + fst d + (j - 1) * fst d) with (r + j * fst d) in Hpath by lia.
    replace (c + snd d + (j - 1) * snd d) with (c + j * snd d) in Hpath by lia.
    exact Hpath.
Qed.
End GeneratorShape.

Lemma legal_move_origin (st : GameState) (color : Color) (m : Move) :
  In m (getLegalMoves st color) ->
  exists piece,
    getSq (board st) (row (mfrom m)) (col (mfrom m)) = Some piece
    /\ pcolor piece = color
    /\ isValidSquare (row (mfrom m)) (col (mfrom m)) = true
    /\ In m (getPseudoLegalMoves st (row (mfrom m)) (col (mfrom m)) piece).
Proof.
  intros H. apply getLegalMoves_In in H. destruct H as (s & piece & Hs & Hp & Hc & Hin & _).
  pose proof (pseudo_from st _ _ piece m Hin) as Hfrom.
  exists piece. rewrite Hfrom. cbn [row col].
  repeat split; try assumption. apply allSquares_valid. exact Hs.
Qed.

(** X6.  The shape of a legal move.  It starts on a square of the board
    that holds a piece of the side it is generated for; a castling move is
    a king's move of two columns along its row onto an empty cell, and
    every other move lands on a square of the board; unless it captures en
    passant, a move never lands on a piece of its own side. *)
Theorem legal_move_shape (st : GameState) (color : Color) (m : Move) :
  In m (getLegalMoves st color) ->
  exists piece,
    getSq (board st) (row (mfrom m)) (col (mfrom m)) = Some piece
    /\ pcolor piece = color
    /\ isValidSquare (row (mfrom m)) (col (mfrom m)) = true
    /\ (isCastle m ->
        ptype piece = King
        /\ row (mto m) = row (mfrom m)
        /\ col (mto m) = (if isSpecial m CastleKs then col (mfrom m) + 2 else col (mfrom m) - 2)
        /\ targetOf st m = None)
    /\ (~ isCastle m -> isValidSquare (row (mto m)) (col (mto m)) = true)
    /\ (special m <> Some EnPassant -> cellHasColor (targetOf st m) color = false).
Proof.
  intros H. destruct (legal_move_origin st color m H) as (piece & Hp & Hc & Hv & Hin).
  exists piece. split; [exact Hp|]. split; [exact Hc|]. split; [exact Hv|].
  destruct (pseudo_lands st _ _ piece m Hin) as [[Hcastle Hempty]|[Hplain [Hland Hown]]].
  - destruct (pseudo_castle st _ _ piece m Hin Hcastle) as [Hk Hto].
    assert (Hnone : targetOf st m = None) by (destruct (targetOf st m); [discriminate|reflexivity]).
    split; [|split].
    + intros _. rewrite Hto. cbn [row col]. repeat split; assumption.
    + intros Hn. contradiction.
    + intros _. rewrite Hnone. reflexivity.
  - split; [|split].
    + intros Hcastle. contradiction.
    + intros _. exact Hland.
    + rewrite <- Hc. exact Hown.
Qed.

(** X7.  A rook, a bishop or a queen never jumps: its legal move goes a
    number of steps along one of the directions of its kind, and every
    square it passes on the way is an empty square of the board. *)
Theorem sliding_move_never_jumps (st : GameState) (color : Color) (m : Move) (piece : Piece) :
  In m (getLegalMoves st color) ->
  getSq (board st) (row (mfrom m)) (col (mfrom m)) = Some piece ->
  ptype piece = Rook \/ ptype piece = Bishop \/ ptype piece = Queen ->
  exists d k,
    In d (slidingDirs (ptype piece))
    /\ 1 <= k
    /\ special m = None
    /\ (row (mto m), col (mto m)) = stepFrom (row (mfrom m)) (col (mfrom m)) d k
    /\ clearPath (board st) (row (mfrom m)) (col (mfrom m)) d k.
Proof.
  intros H Hp Ht. destruct (legal_move_origin st color m H) as (piece' & Hp' & _ & _ & Hin).
  assert (piece' = piece) by congruence. subst piece'.
  exact (pseudo_sliding_path st _ _ piece m Ht Hin).
Qed.

(** X8.  [makeMove] and [handlePromotionChoice] never stop with a TypeError
    on a legal move, whatever promotion choice comes with it: the square it
    starts from holds a piece and the row it lands on is a row of the
    board. *)
Theorem legal_move_is_executed (st : GameState) (color : Color) (m : Move)
        (promotionChoice : option PieceType) :
  In m (getLegalMoves st color) ->
  0 <= row (mto m) < 8
  /\ (exists st', makeMove m promotionChoice st = Returned st')
  /\ (forall type,
        pendingPromotion st = Some m ->
        exists st', handlePromotionChoice type st = Returned st'
                    /\ pendingPromotion st' = None).
Proof.
  intros H. destruct (legal_move_origin st color m H) as (piece & Hp & Hc & Hv & Hin).
  split; [|split].
  - destruct (pseudo_lands st _ _ piece m Hin) as [[Hcastle _]|[_ [Hland _]]].
    + destruct (pseudo_castle st _ _ piece m Hin Hcastle) as [_ Hto].
      rewrite Hto. cbn [row]. apply isValidSquare_spec in Hv. lia.
    + apply isValidSquare_spec in Hland. lia.
  - unfold makeMove. rewrite Hp.
    destruct (needsPromotionChoice _ _ _); [destruct (autoPromotes st)|]; eexists; reflexivity.
  - intros type Hpend. unfold handlePromotionChoice, makeMove. rewrite Hpend, Hp.
    cbn [needsPromotionChoice]. eexists. split; reflexivity.
Qed.

Lemma engine_answer_is_checked_witness :
  oracleDecision (Some "e7"%string) (initGame Solo) = Fallback.
Proof.
  apply (proj2 (proj2 (engine_answer_is_checked (Some "e7"%string) (initGame Solo)))
               "e7"%string eq_refl).
  simpl. lia.
Defined.

Lemma engine_answer_naming_a_legal_move_witness :
  exists m',
    oracleDecision (Some "e7e5"%string) (initGame Solo) = Play m' None
    /\ In m' (getLegalMoves (initGame Solo) Black)
    /\ mfrom m' = mfrom e7e5 /\ mto m' = mto e7e5.
Proof.
  apply (proj2 (engine_answer_naming_a_legal_move (initGame Solo) e7e5 EmptyString
                  ltac:(vm_compute; in_list) eq_refl)).
Defined.

Lemma legal_move_shape_witness :
  exists piece,
    getSq initialBoard 6 4 = Some piece
    /\ pcolor piece = White
    /\ isValidSquare 6 4 = true
    /\ (isCastle e2e4 ->
        ptype piece = King /\ 4 = 6 /\ 4 = 2 /\ targetOf (initGame Pvp) e2e4 = None)
    /\ (~ isCastle e2e4 -> isValidSquare 4 4 = true)
    /\ (special e2e4 <> Some EnPassant ->
        cellHasColor (targetOf (initGame Pvp) e2e4) White = false).
Proof.
  apply (legal_move_shape (initGame Pvp) White e2e4). vm_compute. in_list.
Defined.

Lemma sliding_move_never_jumps_witness :
  exists d k,
    In d (slidingDirs Queen)
    /\ 1 <= k
    /\ @None Special = None
    /\ (6, 3) = stepFrom 6 1 d k
    /\ clearPath mateBoard 6 1 d k.
Proof.
  apply (sliding_move_never_jumps (set_board mateBoard (initGame Pvp)) Black
           (mkMove (mkSquare 6 1) (mkSquare 6 3) None) (mkPiece Black Queen)).
  - vm_compute. in_list.
  - reflexivity.
  - right. right. reflexivity.
Defined.

Lemma legal_move_is_executed_witness :
  exists st', makeMove e2e4 None (initGame Pvp) = Returned st'.
Proof.
  apply (legal_move_is_executed (initGame Pvp) White e2e4 None).
  vm_compute. in_list.
Defined.

(* ================================================================== *)
(** * Further properties of the move executor *)
(* ================================================================== *)

Lemma getSq_setSq_other (b : Board) (r c : Z) (v : Cell) (r' c' : Z) :
  (r', c') <> (r, c) -> getSq (setSq b r c v) r' c' = getSq b r' c'.
Proof.
  intros Hne. destruct (getSq_setSq_cases b r c v r' c') as [H|(-> & -> & _)];
    [exact H | contradiction].
Qed.

Lemma relocateRook_other (b : Board) (m : Move) (r c : Z) :
  (isSpecial m CastleKs = true -> (r, c) <> (row (mfrom m), 5) /\ (r, c) <> (row (mfrom m), 7)) ->
  (isSpecial m CastleQs = true -> (r, c) <> (row (mfrom m), 3) /\ (r, c) <> (row (mfrom m), 0)) ->
  getSq (relocateRook b m) r c = getSq b r c.
Proof.
  intros Hks Hqs. unfold relocateRook. cbv zeta.
  destruct (isSpecial m CastleQs).
  - destruct (Hqs eq_refl) as [H3 H0]. rewrite !getSq_setSq_other by assumption.
    destruct (isSpecial m CastleKs); [|reflexivity].
    destruct (Hks eq_refl) as [H5 H7]. rewrite !getSq_setSq_other by assumption. reflexivity.
  - destruct (isSpecial m CastleKs); [|reflexivity].
    destruct (Hks eq_refl) as [H5 H7]. rewrite !getSq_setSq_other by assumption. reflexivity.
Qed.

Lemma commitMove_frame (m : Move) (fromPiece : Piece) (choice : option PieceType)
      (st : GameState) (r c : Z) :
  ~ In (r, c) (touchedSquares m) ->
  getSq (board (commitMove m fromPiece choice st)) r c = getSq (board st) r c.
Proof.
  unfold touchedSquares. cbv zeta. rewrite !in_app_iff. intros Hout.
  assert (Hfrom : (r, c) <> (row (mfrom m), col (mfrom m)))
    by (intros E; apply Hout; left; left; auto).
  assert (Hto : (r, c) <> (row (mto m), col (mto m)))
    by (intros E; apply Hout; left; right; left; auto).
  assert (Hep : isSpecial m EnPassant = true -> (r, c) <> (row (mfrom m), col (mto m))).
  { intros E H. apply Hout. right. left. rewrite E. left. auto. }
  assert (Hks : isSpecial m CastleKs = true ->
                (r, c) <> (row (mfrom m), 5) /\ (r, c) <> (row (mfrom m), 7)).
  { intros E. split; intros H; apply Hout; right; right; left; rewrite E;
      [left | right; left]; auto. }
  assert (Hqs : isSpecial m CastleQs = true ->
                (r, c) <> (row (mfrom m), 3) /\ (r, c) <> (row (mfrom m), 0)).
  { intros E. split; intros H; apply Hout; right; right; right; rewrite E;
      [left | right; left]; auto. }
  unfold commitMove. cbv zeta. cbn [board].
  assert (Hb3 : forall b2,
             getSq (relocateRook b2 m) r c = getSq b2 r c)
    by (intros b2; apply relocateRook_other; assumption).
  destruct choice as [t|]; [rewrite getSq_setSq_other by exact Hto|]; rewrite Hb3;
    (destruct (isSpecial m EnPassant);
     [rewrite getSq_setSq_other by (apply Hep; reflexivity)|]);
    rewrite !getSq_setSq_other by assumption; reflexivity.
Qed.

(** X9.  A call of [makeMove] that returns leaves every cell of the board
    as it was, except the two squares of the move, the square beside the
    pawn that captures en passant, and the two squares of the rook's half
    of castling. *)
Theorem makeMove_frame (m : Move) (promotionChoice : option PieceType)
        (st st' : GameState) (r c : Z) :
  makeMove m promotionChoice st = Returned st' ->
  ~ In (r, c) (touchedSquares m) ->
  getSq (board st') r c = getSq (board st) r c.
Proof.
  intros H Hout. apply makeMove_returns in H.
  destruct H as (fromPiece & _ & [->|[choice ->]]); [reflexivity|].
  apply commitMove_frame. exact Hout.
Qed.

Lemma revoke_within (cr : CastlingRights) (color : Color) (ks qs : bool) :
  rightsWithin (revoke cr color ks qs) cr
  /\ rightsOf (revoke cr color ks qs) (enemyOf color) = rightsOf cr (enemyOf color).
Proof.
  split.
  - intros col. unfold revoke. destruct color, col, ks, qs; cbn; split; congruence.
  - destruct color; reflexivity.
Qed.

Lemma rightsWithin_refl (cr : CastlingRights) : rightsWithin cr cr.
Proof. intros col. split; auto. Qed.

Lemma rightsWithin_trans (a b c : CastlingRights) :
  rightsWithin a b -> rightsWithin b c -> rightsWithin a c.
Proof.
  intros H1 H2 col. destruct (H1 col) as [A1 A2], (H2 col) as [B1 B2]. split; auto.
Qed.

Lemma updateRights_within (cr : CastlingRights) (color : Color) (t : PieceType) (fc : Z) :
  rightsWithin (updateRights cr color t fc) cr
  /\ rightsOf (updateRights cr color t fc) (enemyOf color) = rightsOf cr (enemyOf color)
  /\ (t <> King -> t <> Rook -> updateRights cr color t fc = cr)
  /\ (t = King ->
      rightsOf (updateRights cr color t fc) color = mkSideRights false false).
Proof.
  unfold updateRights, revoke, rightsWithin. cbv zeta.
  destruct cr as [[wk wq] [bk bq]].
  destruct t, color, (fc =? 0), (fc =? 7); cbn;
    (split; [intros col; destruct col; cbn; split; congruence|]);
    (split; [reflexivity|]); split; congruence.
Qed.

(** X10.  Castling rights are only ever taken away, and only from the side
    that moves: a call of [makeMove] that returns restores no right, leaves
    the rights of the other side as they are, also when it captures a rook
    of that side on its corner, and leaves all rights as they are when the
    piece that moves is neither a king nor a rook; after a king's move the
    side that moved has no right left. *)
Theorem castling_rights_only_shrink (m : Move) (promotionChoice : option PieceType)
        (st st' : GameState) :
  makeMove m promotionChoice st = Returned st' ->
  rightsWithin (castlingRights st') (castlingRights st)
  /\ rightsOf (castlingRights st') (enemyOf (turn st))
     = rightsOf (castlingRights st) (enemyOf (turn st))
  /\ forall piece,
       getSq (board st) (row (mfrom m)) (col (mfrom m)) = Some piece ->
       (ptype piece <> King -> ptype piece <> Rook ->
        castlingRights st' = castlingRights st)
       /\ (ptype piece = King ->
           rightsOf (castlingRights st') (turn st) = mkSideRights false false).
Proof.
  intros H. pose proof H as H0. apply makeMove_returns in H.
  destruct H as (fromPiece & Hp & [->|[choice ->]]).
  - cbn [castlingRights set_pendingPromotion].
    split; [apply rightsWithin_refl|]. split; [reflexivity|].
    intros piece Hpiece. split; [reflexivity|].
    intros Hk. exfalso.
    assert (piece = fromPiece) by congruence. subst piece.
    unfold makeMove in H0. rewrite Hp in H0.
    unfold needsPromotionChoice in H0. rewrite Hk in H0.
    assert (Ht : forall a b : GameState, Returned a = Returned b -> turn a = turn b)
      by (intros a b E; congruence).
    destruct promotionChoice; cbn [PieceType_eqb andb] in H0;
      apply Ht in H0; cbn in H0; destruct (turn st); discriminate.
  - unfold commitMove. cbv zeta. cbn [castlingRights].
    pose proof (updateRights_within (castlingRights st) (turn st) (ptype fromPiece)
                  (col (mfrom m))) as (H1 & H2 & H3 & H4).
    split; [exact H1|]. split; [exact H2|].
    intros piece Hpiece. assert (piece = fromPiece) by congruence. subst piece.
    split; [exact H3 | exact H4].
Qed.

Section DoublePush.
Variable st : GameState.
Variables r c : Z.

Lemma slide_ordinary (fuel : nat) (enemyColor : Color) (dr dc : Z) :
  forall tr tc,
    Forall (fun m => special m = None) (slide st r c fuel enemyColor tr tc dr dc).
Proof.
  induction fuel as [|fuel IH]; intros tr tc; cbn [slide]; [constructor|].
  destruct (isValidSquare tr tc); [|constructor].
  destruct (getSq (board st) tr tc) as [p|].
  - destruct (Color_eqb (pcolor p) enemyColor); repeat constructor.
  - constructor; [reflexivity | apply IH].
Qed.

Lemma stepMoves_ordinary (enemyColor : Color) (offsets : list (Z * Z)) :
  Forall (fun m => special m = None) (stepMoves st r c enemyColor offsets).
Proof.
  unfold stepMoves. induction offsets as [|o os IH]; cbn [flat_map]; [constructor|].
  apply Forall_app; split; [|exact IH].
  destruct (isValidSquare (r + fst o) (c + snd o)); [|constructor].
  cbv zeta. destruct (cellEmpty _ || cellHasColor _ _); repeat constructor.
Qed.

(** A double push is generated for a pawn on the row it starts the game
    on, two rows ahead over two empty squares. *)
Lemma pseudo_doublepush (piece : Piece) (m : Move) :
  In m (getPseudoLegalMoves st r c piece) ->
  special m = Some DoublePush ->
  ptype piece = Pawn
  /\ mto m = mkSquare (r + direction (pcolor piece) * 2) c
  /\ isValidSquare (r + direction (pcolor piece)) c = true
  /\ getSq (board st) (r + direction (pcolor piece)) c = None
  /\ getSq (board st) (r + direction (pcolor piece) * 2) c = None
  /\ r = (match pcolor piece with White => 6 | Black => 1 end).
Proof.
  unfold getPseudoLegalMoves. cbv zeta. intros Hin Hsp.
  assert (Hs : forall t, Forall (fun m => special m = None)
            (flat_map (fun d : Z * Z =>
               slide st r c 8 (enemyOf (pcolor piece)) (r + fst d) (c + snd d) (fst d) (snd d))
               (slidingDirs t))).
  { intros t. induction (slidingDirs t) as [|d ds IH]; cbn [flat_map]; [constructor|].
    apply Forall_app; split; [apply slide_ordinary | exact IH]. }
  assert (Hno : special m = None -> False) by (intros E; congruence).
  destruct (ptype piece) eqn:Ht.
  - split; [reflexivity|]. unfold pawnMoves in Hin. cbv zeta in Hin.
    apply in_app_or in Hin as [Hin|Hin].
    + destruct (isValidSquare (r + direction (pcolor piece)) c && _) eqn:H1;
        [|contradiction].
      apply andb_true_iff in H1 as [Hv He].
      destruct Hin as [<-|Hin]; [discriminate|].
      destruct (_ || _) eqn:Hrow; [|contradiction].
      destruct (isValidSquare (r + direction (pcolor piece) * 2) c && _) eqn:H2;
        [|contradiction].
      apply andb_true_iff in H2 as [_ He2].
      destruct Hin as [<-|[]]. cbn [mto addMove].
      split; [reflexivity|]. split; [exact Hv|].
      split; [destruct (getSq (board st) (r + direction (pcolor piece)) c);
              [discriminate|reflexivity]|].
      split; [destruct (getSq (board st) (r + direction (pcolor piece) * 2) c);
              [discriminate|reflexivity]|].
      destruct (pcolor piece); cbn [Color_eqb andb orb] in Hrow;
        try rewrite orb_false_r in Hrow; apply Z.eqb_eq in Hrow; exact Hrow.
    + exfalso. cbn [flat_map] in Hin. rewrite app_nil_r in Hin.
      apply in_app_or in Hin as [Hin|Hin];
        (destruct (isValidSquare _ _); [|contradiction];
         apply in_app_or in Hin as [Hin|Hin];
         [destruct (cellHasColor _ _); [|contradiction];
          destruct Hin as [<-|[]]; discriminate
         |destruct (enPassantTarget st) as [ep|]; [|contradiction];
          destruct (_ && _); [|contradiction];
          destruct Hin as [<-|[]]; discriminate]).
  - exfalso. apply Hno. eapply Forall_forall in Hin; [exact Hin | apply stepMoves_ordinary].
  - exfalso. apply Hno. eapply Forall_forall in Hin; [exact Hin | apply (Hs Bishop)].
  - exfalso. apply Hno. eapply Forall_forall in Hin; [exact Hin | apply (Hs Rook)].
  - exfalso. apply Hno. eapply Forall_forall in Hin; [exact Hin | apply (Hs Queen)].
  - exfalso. apply in_app_or in Hin as [Hin|Hin].
    + apply Hno. eapply Forall_forall in Hin; [exact Hin | apply stepMoves_ordinary].
    + eapply Forall_forall in Hin; [|apply castleMoves_castle].
      destruct Hin as [[H|H] _]; congruence.
Qed.
End DoublePush.

(** X11.  The en-passant target.  After a legal double push [makeMove]
    leaves as target the square the pawn has passed over, which lies in the
    pawn's column between its two squares and is empty on the new board;
    after any other move there is no target, unless the move waits for the
    choice of the promotion piece and nothing else has changed. *)
Theorem en_passant_target_after_move (st st' : GameState) (color : Color) (m : Move)
        (promotionChoice : option PieceType) :
  In m (getLegalMoves st color) ->
  makeMove m promotionChoice st = Returned st' ->
  (special m = Some DoublePush ->
   exists ep,
     enPassantTarget st' = Some ep
     /\ col ep = col (mfrom m) /\ col ep = col (mto m)
     /\ row ep = row (mfrom m) + direction color
     /\ row (mto m) = row ep + direction color
     /\ getSq (board st') (row ep) (col ep) = None
     /\ turn st' = enemyOf (turn st))
  /\ (special m <> Some DoublePush ->
      enPassantTarget st' = None \/ st' = set_pendingPromotion (Some m) st).
Proof.
  intros Hlegal Hmake.
  destruct (legal_move_origin st color m Hlegal) as (piece & Hp & Hc & Hv & Hin).
  unfold makeMove in Hmake. rewrite Hp in Hmake. split.
  - intros Hsp.
    destruct (pseudo_doublepush st _ _ piece m Hin Hsp)
      as (Hpawn & Hto & Hv1 & He1 & He2 & Hrow).
    rewrite Hc in *.
    assert (Hneed : needsPromotionChoice m piece promotionChoice = false).
    { unfold needsPromotionChoice. destruct promotionChoice; [reflexivity|].
      rewrite Hto. cbn [row]. rewrite Hrow. destruct color; apply andb_false_r. }
    rewrite Hneed in Hmake. injection Hmake as <-.
    exists (mkSquare (row (mfrom m) + direction color) (col (mfrom m))).
    assert (Hdiv : (row (mfrom m) + row (mto m)) / 2 = row (mfrom m) + direction color).
    { rewrite Hto. cbn [row].
      replace (row (mfrom m) + (row (mfrom m) + direction color * 2))
        with ((row (mfrom m) + direction color) * 2) by lia.
      apply Z.div_mul. discriminate. }
    split.
    { unfold commitMove. cbv zeta. cbn [enPassantTarget]. unfold epAfter.
      replace (isSpecial m DoublePush) with true
        by (symmetry; apply isSpecial_spec; exact Hsp).
      rewrite Hdiv. reflexivity. }
    cbn [row col]. rewrite Hto. cbn [row col].
    split; [reflexivity|]. split; [reflexivity|]. split; [reflexivity|].
    split; [lia|]. split; [|reflexivity].
    rewrite commitMove_frame; [exact He1|].
    unfold touchedSquares. cbv zeta. rewrite Hto. cbn [row col].
    replace (isSpecial m EnPassant) with false
      by (symmetry; apply not_true_is_false; rewrite isSpecial_spec; congruence).
    replace (isSpecial m CastleKs) with false
      by (symmetry; apply not_true_is_false; rewrite isSpecial_spec; congruence).
    replace (isSpecial m CastleQs) with false
      by (symmetry; apply not_true_is_false; rewrite isSpecial_spec; congruence).
    cbn [app In]. intros [E|[E|[]]]; inversion E; destruct color; cbn [direction] in *; lia.
  - intros Hsp.
    assert (Hno : isSpecial m DoublePush = false)
      by (apply not_true_is_false; rewrite isSpecial_spec; exact Hsp).
    destruct (needsPromotionChoice m piece promotionChoice);
      [destruct (autoPromotes st)|]; injection Hmake as <-;
      [left | right; reflexivity | left];
      unfold commitMove, epAfter; cbv zeta; cbn [enPassantTarget]; rewrite Hno;
      reflexivity.
Qed.

(* ================================================================== *)
(** * Further properties of the move executor: no piece is lost *)
(* ================================================================== *)

Lemma valid_in_allSquares (r c : Z) :
  isValidSquare r c = true -> In (mkSquare r c) allSquares.
Proof.
  intros H. apply isValidSquare_spec in H. unfold allSquares.
  apply in_flat_map. exists r. split.
  - unfold range8. cbn [In]. lia.
  - apply in_map. unfold range8. cbn [In]. lia.
Qed.

Lemma fullGrid_spec (b : Board) (r c : Z) :
  fullGrid b = true -> isValidSquare r c = true -> inGrid b r c = true.
Proof.
  intros Hfull Hv. unfold fullGrid in Hfull. rewrite forallb_forall in Hfull.
  exact (Hfull (mkSquare r c) (valid_in_allSquares r c Hv)).
Qed.

Lemma inGrid_setSq (b : Board) (r c : Z) (v : Cell) (r' c' : Z) :
  inGrid (setSq b r c v) r' c' = inGrid b r' c'.
Proof.
  unfold setSq, inGrid.
  destruct ((r <? 0) || (c <? 0)); [reflexivity|].
  rewrite length_updNth. f_equal.
  rewrite nth_updNth.
  destruct ((Z.to_nat r' =? Z.to_nat r)%nat && (Z.to_nat r <? length b)%nat) eqn:E;
    [|reflexivity].
  apply andb_true_iff in E as [E _]. apply Nat.eqb_eq in E. rewrite E.
  rewrite length_updNth. reflexivity.
Qed.

Lemma fullGrid_setSq (b : Board) (r c : Z) (v : Cell) :
  fullGrid b = true -> fullGrid (setSq b r c v) = true.
Proof.
  unfold fullGrid. rewrite !forallb_forall. intros H s Hs.
  rewrite inGrid_setSq. exact (H s Hs).
Qed.

Lemma getSq_setSq_full (b : Board) (r c : Z) (v : Cell) (r' c' : Z) :
  fullGrid b = true -> isValidSquare r c = true ->
  getSq (setSq b r c v) r' c' = if (r' =? r) && (c' =? c) then v else getSq b r' c'.
Proof.
  intros Hfull Hv. rewrite getSq_setSq, (fullGrid_spec b r c Hfull Hv), andb_true_r.
  reflexivity.
Qed.

Lemma sum_change (f g : Square -> Z) (r c : Z) (fv gv : Z) (l : list Square) :
  (forall s, sameSquare r c s = false -> g s = f s) ->
  (forall s, sameSquare r c s = true -> g s = gv /\ f s = fv) ->
  sumZ (map g l)
  = sumZ (map f l) + (gv - fv) * Z.of_nat (length (filter (sameSquare r c) l)).
Proof.
  intros Hother Hsame. induction l as [|s l IH]; [cbn; lia|].
  cbn [map sumZ fold_right filter]. fold (sumZ (map g l)). fold (sumZ (map f l)).
  rewrite IH. destruct (sameSquare r c s) eqn:E.
  - destruct (Hsame s E) as [-> ->]. cbn [length]. rewrite Nat2Z.inj_succ. lia.
  - rewrite (Hother s E). lia.
Qed.

Lemma square_once (r c : Z) :
  isValidSquare r c = true -> length (filter (sameSquare r c) allSquares) = 1%nat.
Proof.
  intros H. apply isValidSquare_spec in H.
  assert (Hr : r = 0 \/ r = 1 \/ r = 2 \/ r = 3 \/ r = 4 \/ r = 5 \/ r = 6 \/ r = 7) by lia.
  assert (Hc : c = 0 \/ c = 1 \/ c = 2 \/ c = 3 \/ c = 4 \/ c = 5 \/ c = 6 \/ c = 7) by lia.
  clear H.
  repeat (destruct Hr as [->|Hr]); try subst r;
    repeat (destruct Hc as [->|Hc]); try subst c; reflexivity.
Qed.

(** A write to a square of a full grid changes the count by what it puts
    there less what was there. *)
Lemma pieceCount_setSq (b : Board) (r c : Z) (v : Cell) :
  fullGrid b = true -> isValidSquare r c = true ->
  pieceCount (setSq b r c v) = pieceCount b - occ (getSq b r c) + occ v.
Proof.
  intros Hfull Hv. unfold pieceCount.
  rewrite (sum_change (fun s => occ (getSq b (row s) (col s)))
             (fun s => occ (getSq (setSq b r c v) (row s) (col s)))
             r c (occ (getSq b r c)) (occ v) allSquares).
  - rewrite (square_once r c Hv). lia.
  - intros s E. unfold sameSquare in E.
    rewrite (getSq_setSq_full b r c v _ _ Hfull Hv), E. reflexivity.
  - intros s E. pose proof E as E'. unfold sameSquare in E'.
    rewrite (getSq_setSq_full b r c v _ _ Hfull Hv), E'.
    apply andb_true_iff in E' as [Er Ec]. apply Z.eqb_eq in Er, Ec.
    rewrite Er, Ec. split; reflexivity.
Qed.

Lemma ledgerSize_trackCapture (x : Cell) (cp : Captured) :
  ledgerSize (trackCapture x cp) = ledgerSize cp + occ x.
Proof.
  unfold trackCapture, ledgerSize, occ. destruct x as [[[] t]|]; cbn [pcolor cellEmpty cap_w cap_b].
  - rewrite length_app. cbn [length]. lia.
  - rewrite length_app. cbn [length]. lia.
  - lia.
Qed.

Section CastlePath.
Variable st : GameState.
Variables r c : Z.

(** The cells the generator has found empty before it offers to castle. *)
Lemma pseudo_castle_path (piece : Piece) (m : Move) :
  In m (getPseudoLegalMoves st r c piece) ->
  (special m = Some CastleKs ->
   getSq (board st) r (c + 1) = None /\ getSq (board st) r (c + 2) = None
   /\ canCastle st (pcolor piece) KingSide = true)
  /\ (special m = Some CastleQs ->
      getSq (board st) r (c - 1) = None /\ getSq (board st) r (c - 2) = None
      /\ getSq (board st) r (c - 3) = None
      /\ canCastle st (pcolor piece) QueenSide = true).
Proof.
  intros Hin.
  assert (Hcell : forall x : Cell, cellEmpty x = true -> x = None)
    by (intros [p|]; [discriminate | reflexivity]).
  assert (Hgen : isCastle m -> In m (castleMoves st r c (pcolor piece))).
  { intros Hc. destruct (pseudo_castle st r c piece m Hin Hc) as [Hk _].
    unfold getPseudoLegalMoves in Hin. rewrite Hk in Hin. cbv zeta in Hin.
    apply in_app_or in Hin as [Hin|Hin]; [|exact Hin].
    exfalso. eapply Forall_forall in Hin; [|apply stepMoves_plain].
    exact (plain_not_castle r c m Hin Hc). }
  split; intros Hsp.
  - specialize (Hgen (or_introl Hsp)). unfold castleMoves in Hgen.
    apply in_app_or in Hgen as [Hgen|Hgen].
    + destruct (canCastle st (pcolor piece) KingSide); [|contradiction].
      destruct (cellEmpty (getSq (board st) r (c + 1))
                && cellEmpty (getSq (board st) r (c + 2))) eqn:He; [|contradiction].
      apply andb_true_iff in He as [H1 H2]. auto.
    + exfalso. destruct (canCastle st (pcolor piece) QueenSide); [|contradiction].
      destruct (_ && _ && _); [|contradiction].
      destruct Hgen as [<-|[]]. discriminate.
  - specialize (Hgen (or_intror Hsp)). unfold castleMoves in Hgen.
    apply in_app_or in Hgen as [Hgen|Hgen].
    + exfalso. destruct (canCastle st (pcolor piece) KingSide); [|contradiction].
      destruct (_ && _); [|contradiction].
      destruct Hgen as [<-|[]]. discriminate.
    + destruct (canCastle st (pcolor piece) QueenSide); [|contradiction].
      destruct (cellEmpty (getSq (board st) r (c - 1))
                && cellEmpty (getSq (board st) r (c - 2))
                && cellEmpty (getSq (board st) r (c - 3))) eqn:He; [|contradiction].
      apply andb_true_iff in He as [He H3]. apply andb_true_iff in He as [H1 H2]. auto.
Qed.
End CastlePath.

Ltac cell_reads Hfull :=
  repeat first
    [ rewrite pieceCount_setSq
        by (first [ repeat apply fullGrid_setSq; exact Hfull
                  | apply isValidSquare_spec; lia ])
    | rewrite getSq_setSq_full
        by (first [ repeat apply fullGrid_setSq; exact Hfull
                  | apply isValidSquare_spec; lia ])
    | rewrite ledgerSize_trackCapture ].

Ltac decide_eqbs :=
  repeat match goal with
  | |- context [?a =? ?b] => destruct (Z.eqb_spec a b)
  end;
  cbn [andb].

(** What [makeMove] commits keeps the sum of the pieces on the board and of
    the pieces on the lists of captured pieces. *)
Lemma commitMove_conserves (st : GameState) (color : Color) (m : Move) (piece : Piece)
      (choice : option PieceType) :
  fullGrid (board st) = true ->
  In m (getLegalMoves st color) ->
  (isCastle m -> col (mfrom m) = 4) ->
  getSq (board st) (row (mfrom m)) (col (mfrom m)) = Some piece ->
  pieceCount (board (commitMove m piece choice st))
  + ledgerSize (capturedPieces (commitMove m piece choice st))
  = pieceCount (board st) + ledgerSize (capturedPieces st).
Proof.
  intros Hfull Hlegal Hcol Hp.
  destruct (legal_move_origin st color m Hlegal) as (piece' & Hp' & Hc & Hv & Hin).
  assert (piece' = piece) by congruence. subst piece'. clear Hp'.
  pose proof (pseudo_castle_path st _ _ piece m Hin) as [Hks Hqs].
  pose proof (pseudo_lands st _ _ piece m Hin) as Hlands.
  pose proof (pseudo_enpassant st _ _ piece m Hin) as Hep.
  pose proof (pseudo_castle st _ _ piece m Hin) as Hcas.
  clear Hin Hlegal.
  destruct m as [[fr fc] [tr tc] sp]. unfold isCastle, landsWell, targetOf in *.
  cbn [mfrom mto special row col] in *.
  apply isValidSquare_spec in Hv.
  unfold commitMove, relocateRook, isSpecial. cbv zeta.
  cbn [mfrom mto special row col board capturedPieces].
  destruct sp as [[]|].
  - (* double push *)
    destruct Hlands as [[[H|H] _]|[_ [Hland Hown]]]; try discriminate.
    apply isValidSquare_spec in Hland. specialize (Hown ltac:(discriminate)).
    assert (Hne : tr <> fr \/ tc <> fc).
    { destruct (Z.eq_dec tr fr) as [->|]; [|auto]. destruct (Z.eq_dec tc fc) as [->|]; [|auto].
      rewrite Hp in Hown. cbn in Hown. destruct (pcolor piece); discriminate. }
    destruct choice; cell_reads Hfull; decide_eqbs; rewrite ?Hp; unfold occ; cbn [cellEmpty];
      try lia.
  - (* en passant *)
    destruct Hlands as [[[H|H] _]|[_ [Hland _]]]; try discriminate.
    apply isValidSquare_spec in Hland.
    destruct (Hep eq_refl) as (_ & Hrow & _).
    assert (Hne : tr <> fr) by (destruct (pcolor piece); cbn [direction] in Hrow; lia).
    destruct choice; cell_reads Hfull; decide_eqbs; rewrite ?Hp; unfold occ; cbn [cellEmpty];
      try lia.
  - (* castling on the king's side *)
    specialize (Hcol (or_introl eq_refl)). subst fc.
    destruct (Hcas (or_introl eq_refl)) as [_ Hto]. cbn in Hto. injection Hto as -> ->.
    destruct (Hks eq_refl) as (H5 & H6 & _). cbn in H5, H6.
    destruct choice; cell_reads Hfull; decide_eqbs; rewrite ?Hp, ?H5, ?H6; unfold occ;
      cbn [cellEmpty]; try lia.
  - (* castling on the queen's side *)
    specialize (Hcol (or_intror eq_refl)). subst fc.
    destruct (Hcas (or_intror eq_refl)) as [_ Hto]. cbn in Hto. injection Hto as -> ->.
    destruct (Hqs eq_refl) as (H3 & H2 & H1 & _). cbn in H3, H2, H1.
    destruct choice; cell_reads Hfull; decide_eqbs; rewrite ?Hp, ?H3, ?H2, ?H1; unfold occ;
      cbn [cellEmpty]; try lia.
  - (* an ordinary move *)
    destruct Hlands as [[[H|H] _]|[_ [Hland Hown]]]; try discriminate.
    apply isValidSquare_spec in Hland. specialize (Hown ltac:(discriminate)).
    assert (Hne : tr <> fr \/ tc <> fc).
    { destruct (Z.eq_dec tr fr) as [->|]; [|auto]. destruct (Z.eq_dec tc fc) as [->|]; [|auto].
      rewrite Hp in Hown. cbn in Hown. destruct (pcolor piece); discriminate. }
    destruct choice; cell_reads Hfull; decide_eqbs; rewrite ?Hp; unfold occ; cbn [cellEmpty];
      try lia.
Qed.

(** X12.  No piece is lost and none appears from nowhere.  When [makeMove]
    returns from a legal move on a board with all its 64 cells, the pieces
    on the board and the pieces on the two lists of captured pieces are
    together as many as before: a piece leaves the board only onto a list.
    For a castling move this needs the king on the e-file, where a king
    with castling rights stands: the columns of the rook's half are
    constants of the script. *)
Theorem pieces_are_conserved (st st' : GameState) (color : Color) (m : Move)
        (promotionChoice : option PieceType) :
  fullGrid (board st) = true ->
  In m (getLegalMoves st color) ->
  (isCastle m -> col (mfrom m) = 4) ->
  makeMove m promotionChoice st = Returned st' ->
  pieceCount (board st') + ledgerSize (capturedPieces st')
  = pieceCount (board st) + ledgerSize (capturedPieces st).
Proof.
  intros Hfull Hlegal Hcol Hmake.
  destruct (makeMove_returns m promotionChoice st st' Hmake)
    as (piece & Hp & [->|[choice ->]]); [reflexivity|].
  exact (commitMove_conserves st color m piece choice Hfull Hlegal Hcol Hp).
Qed.

Lemma pieces_are_conserved_witness :
  pieceCount (board (commitMove e2e4 (mkPiece White Pawn) None (initGame Pvp)))
  + ledgerSize (capturedPieces (commitMove e2e4 (mkPiece White Pawn) None (initGame Pvp)))
  = pieceCount (board (initGame Pvp)) + ledgerSize (capturedPieces (initGame Pvp)).
Proof.
  apply (pieces_are_conserved (initGame Pvp) _ White e2e4 None).
  - reflexivity.
  - vm_compute. in_list.
  - intros [H|H]; discriminate H.
  - reflexivity.
Defined.

Lemma trackCapture_ledger (x : Cell) (cp : Captured) :
  ledgerExtends (trackCapture x cp) cp
  /\ (ledgerSorted cp -> ledgerSorted (trackCapture x cp)).
Proof.
  unfold ledgerExtends, ledgerSorted, trackCapture.
  destruct x as [[[] t]|]; cbn [pcolor cap_w cap_b].
  - split; [split; [exists [mkPiece White t] | exists []; rewrite app_nil_r]; reflexivity|].
    intros [Hw Hb]. split; [|exact Hb].
    apply Forall_app; split; [exact Hw | repeat constructor].
  - split; [split; [exists []; rewrite app_nil_r | exists [mkPiece Black t]]; reflexivity|].
    intros [Hw Hb]. split; [exact Hw|].
    apply Forall_app; split; [exact Hb | repeat constructor].
  - split; [split; exists []; rewrite app_nil_r; reflexivity|]. auto.
Qed.

Lemma ledgerExtends_trans (a b c : Captured) :
  ledgerExtends a b -> ledgerExtends b c -> ledgerExtends a c.
Proof.
  intros [[w1 Hw1] [b1 Hb1]] [[w2 Hw2] [b2 Hb2]]. split.
  - exists (w2 ++ w1). rewrite Hw1, Hw2, app_assoc. reflexivity.
  - exists (b2 ++ b1). rewrite Hb1, Hb2, app_assoc. reflexivity.
Qed.

(** X13.  The lists of captured pieces.  A call of [makeMove] that returns
    only adds to the end of the two lists; if each list held pieces of its
    own colour only, it still does; and a move that is no en-passant
    capture and lands on an empty cell leaves the lists as they are. *)
Theorem captured_lists_only_grow (m : Move) (promotionChoice : option PieceType)
        (st st' : GameState) :
  makeMove m promotionChoice st = Returned st' ->
  ledgerExtends (capturedPieces st') (capturedPieces st)
  /\ (ledgerSorted (capturedPieces st) -> ledgerSorted (capturedPieces st'))
  /\ (special m <> Some EnPassant -> targetOf st m = None ->
      capturedPieces st' = capturedPieces st).
Proof.
  intros Hmake.
  assert (Hrefl : forall cp, ledgerExtends cp cp)
    by (intros cp; split; exists []; rewrite app_nil_r; reflexivity).
  destruct (makeMove_returns m promotionChoice st st' Hmake)
    as (piece & Hp & [->|[choice ->]]).
  - cbn [capturedPieces set_pendingPromotion]. auto.
  - unfold commitMove. cbv zeta. cbn [capturedPieces].
    set (cp1 := trackCapture (getSq (board st) (row (mto m)) (col (mto m)))
                             (capturedPieces st)).
    destruct (trackCapture_ledger (getSq (board st) (row (mto m)) (col (mto m)))
                (capturedPieces st)) as [He1 Hs1]. fold cp1 in He1, Hs1.
    split; [|split].
    + destruct (isSpecial m EnPassant); [|exact He1].
      eapply ledgerExtends_trans; [apply trackCapture_ledger | exact He1].
    + intros Hs. destruct (isSpecial m EnPassant); [|exact (Hs1 Hs)].
      apply trackCapture_ledger. exact (Hs1 Hs).
    + intros Hsp Hnone.
      replace (isSpecial m EnPassant) with false
        by (symmetry; apply not_true_is_false; rewrite isSpecial_spec; exact Hsp).
      unfold cp1. unfold targetOf in Hnone. rewrite Hnone. reflexivity.
Qed.

Lemma captured_lists_only_grow_witness :
  ledgerExtends
    (capturedPieces (commitMove e2e4 (mkPiece White Pawn) None (initGame Pvp)))
    (capturedPieces (initGame Pvp)).
Proof.
  apply (captured_lists_only_grow e2e4 None (initGame Pvp)). reflexivity.
Defined.

Lemma makeMove_frame_witness :
  getSq (board (commitMove e2e4 (mkPiece White Pawn) None (initGame Pvp))) 0 0
  = getSq (board (initGame Pvp)) 0 0.
Proof.
  apply (makeMove_frame e2e4 None (initGame Pvp)); [reflexivity|].
  vm_compute. intros [H|[H|[]]]; discriminate H.
Defined.

Lemma castling_rights_only_shrink_witness :
  rightsWithin
    (castlingRights (commitMove e2e4 (mkPiece White Pawn) None (initGame Pvp)))
    (castlingRights (initGame Pvp)).
Proof.
  apply (castling_rights_only_shrink e2e4 None (initGame Pvp)). reflexivity.
Defined.

Lemma en_passant_target_after_move_witness :
  exists ep,
    enPassantTarget (commitMove e2e4 (mkPiece White Pawn) None (initGame Pvp)) = Some ep
    /\ col ep = 4 /\ col ep = 4
    /\ row ep = 6 + direction White
    /\ 4 = row ep + direction White
    /\ getSq (board (commitMove e2e4 (mkPiece White Pawn) None (initGame Pvp)))
             (row ep) (col ep) = None
    /\ turn (commitMove e2e4 (mkPiece White Pawn) None (initGame Pvp)) = enemyOf White.
Proof.
  apply (proj1 (en_passant_target_after_move (initGame Pvp) _ White e2e4 None
                  ltac:(vm_compute; in_list) eq_refl)).
  reflexivity.
Defined.

(* ================================================================== *)
(** * Further properties of the evaluator: the two sides are valued alike *)
(* ================================================================== *)

Lemma evaluateBoard_sum (b : Board) :
  evaluateBoard b
  = sumZ (map (fun r => sumZ (map (fun c => pieceTerm b (mkSquare r c)) range8)) range8).
Proof.
  unfold evaluateBoard.
  assert (Hrow : forall r a,
             fold_left (evalCell b r) range8 a
             = a + sumZ (map (fun c => pieceTerm b (mkSquare r c)) range8)).
  { intros r a. unfold range8. cbn [fold_left map sumZ fold_right].
    rewrite !evalCell_term. lia. }
  assert (Hall : forall rows a,
             fold_left (fun score r => fold_left (evalCell b r) range8 score) rows a
             = a + sumZ (map (fun r => sumZ (map (fun c => pieceTerm b (mkSquare r c)) range8))
                             rows)).
  { induction rows as [|r rows IH]; intros a; cbn [fold_left map sumZ fold_right]; [lia|].
    rewrite IH, Hrow. unfold sumZ. lia. }
  rewrite Hall. lia.
Qed.

Lemma getSq_mirrorBoard (b : Board) (r c : Z) :
  length b = 8%nat -> 0 <= r < 8 ->
  getSq (mirrorBoard b) r c = swapSide (getSq b (7 - r) c).
Proof.
  intros Hlen Hr. unfold getSq, mirrorBoard.
  replace (7 - r <? 0) with false by (symmetry; apply Z.ltb_ge; lia).
  replace (r <? 0) with false by (symmetry; apply Z.ltb_ge; lia).
  cbn [orb]. destruct (c <? 0); [reflexivity|].
  change (@nil Cell) with (map swapSide []) at 1.
  rewrite map_nth.
  change (@None Piece) with (swapSide None) at 1.
  rewrite map_nth. f_equal. f_equal.
  rewrite rev_nth by lia. f_equal. lia.
Qed.

Lemma pieceTerm_mirrorBoard (b : Board) (r c : Z) :
  length b = 8%nat -> 0 <= r < 8 ->
  pieceTerm (mirrorBoard b) (mkSquare r c) = - pieceTerm b (mkSquare (7 - r) c).
Proof.
  intros Hlen Hr. unfold pieceTerm. cbn [row col].
  rewrite (getSq_mirrorBoard b r c Hlen Hr).
  destruct (getSq b (7 - r) c) as [[[] t]|]; cbn [swapSide option_map pcolor ptype enemyOf
                                                  sideSign tableRow]; [| |reflexivity].
  - replace (7 - (7 - r)) with r by lia. lia.
  - lia.
Qed.

(** X14.  The evaluator treats the two sides alike: the board seen from the
    other side (rows in reverse order, colours exchanged) has the opposite
    score. *)
Theorem evaluateBoard_mirror (b : Board) :
  length b = 8%nat ->
  evaluateBoard (mirrorBoard b) = - evaluateBoard b.
Proof.
  intros Hlen. rewrite !evaluateBoard_sum.
  assert (Hrow : forall r, 0 <= r < 8 ->
             sumZ (map (fun c => pieceTerm (mirrorBoard b) (mkSquare r c)) range8)
             = - sumZ (map (fun c => pieceTerm b (mkSquare (7 - r) c)) range8)).
  { intros r Hr. unfold range8. cbn [map sumZ fold_right].
    rewrite !(pieceTerm_mirrorBoard b r) by assumption. lia. }
  assert (Hall : forall F : Z -> Z,
             sumZ (map (fun r => F (7 - r)) range8) = sumZ (map F range8)).
  { intros F. unfold range8. cbn [map sumZ fold_right]. simpl (7 - _). lia. }
  rewrite <- (Hall (fun r => sumZ (map (fun c => pieceTerm b (mkSquare r c)) range8))).
  unfold range8 at 2 4. cbn [map sumZ fold_right].
  rewrite !Hrow by lia. lia.
Qed.

Lemma evaluateBoard_mirror_witness :
  evaluateBoard (mirrorBoard promotionBoard) = - evaluateBoard promotionBoard.
Proof. apply evaluateBoard_mirror. reflexivity. Defined.

(* ================================================================== *)
(** * Further properties of the players: the computer, the hint, the click *)
(* ================================================================== *)

(** X15.  The computer always moves when it can.  With a tier of depth at
    least 1 and two draws of [[0, 1)], [fallbackAIMove] never stops with a
    TypeError: without a legal move for black it leaves the globals as they
    are, and otherwise it commits a legal move of black, or, outside the
    computer's own turn in a solo game, leaves that move waiting for the
    choice of the promotion piece.  In a solo game with black to move the
    move is always committed, and a pawn that reaches the last row becomes a
    queen. *)
Theorem fallbackAIMove_always_moves (config : Config) (u1 u2 : Q) (st : GameState) :
  (1 <= depth config)%nat ->
  (0 <= u2)%Q /\ (u2 < 1)%Q ->
  (getLegalMoves st Black = [] -> fallbackAIMove config u1 u2 st = Returned st)
  /\ (getLegalMoves st Black <> [] ->
      exists m piece,
        In m (getLegalMoves st Black)
        /\ getSq (board st) (row (mfrom m)) (col (mfrom m)) = Some piece
        /\ pcolor piece = Black
        /\ (fallbackAIMove config u1 u2 st
            = Returned (commitMove m piece
                          (if needsPromotionChoice m piece None then Some Queen else None) st)
            \/ (autoPromotes st = false
                /\ needsPromotionChoice m piece None = true
                /\ fallbackAIMove config u1 u2 st
                   = Returned (set_pendingPromotion (Some m) st)))).
Proof.
  intros Hdepth [Hu2 Hu2']. unfold fallbackAIMove. split.
  - intros ->. reflexivity.
  - intros Hne. destruct (getLegalMoves st Black) as [|m0 ms] eqn:Hmoves; [congruence|].
    rewrite <- Hmoves in *.
    unfold chosenMove. rewrite scoredSorted_spec. cbn [fst snd].
    set (scored := sortScored _).
    assert (Hperm : Permutation scored
                      (map (fun m => mkScored m
                              (fst (minimax (depth config - 1) (searchBoard (board st) m)
                                            NegInf PosInf false White (castlingRights st)
                                            (epAfter m) st)))
                           (getLegalMoves st Black))) by apply sortScored_perm.
    assert (Hsc : scored <> []).
    { intros E. rewrite E in Hperm. apply Permutation_nil in Hperm.
      apply map_eq_nil in Hperm. contradiction. }
    destruct (chooseScored_spec config scored u1 u2 Hsc Hu2 Hu2')
      as (best & rest & sub & i & sm & _ & Hch & _ & Hnth & _ & _ & Hbl & Htop).
    rewrite Hch. cbn [option_map].
    assert (Hsub : forall x, In x sub -> In x scored).
    { destruct (Qlt_le_dec u1 (blunderRate config)) as [Hlt|Hge].
      - rewrite (Hbl Hlt). intros x Hx. rewrite <- (firstn_skipn (length scored / 2) scored).
        apply in_or_app. right. exact Hx.
      - rewrite (Htop (Qle_not_lt _ _ Hge)). intros x Hx. apply filter_In in Hx. apply Hx. }
    assert (Hin : In (sm_move sm) (getLegalMoves st Black)).
    { apply nth_error_In in Hnth. apply Hsub in Hnth.
      eapply Permutation_in in Hnth; [|exact Hperm].
      apply in_map_iff in Hnth. destruct Hnth as (m & <- & Hm). exact Hm. }
    destruct (legal_move_origin st Black (sm_move sm) Hin) as (piece & Hp & Hc & _ & _).
    exists (sm_move sm), piece. split; [exact Hin|]. split; [exact Hp|]. split; [exact Hc|].
    unfold makeMove. rewrite Hp.
    destruct (needsPromotionChoice (sm_move sm) piece None) eqn:Hneed.
    + destruct (autoPromotes st) eqn:Hauto; [left; reflexivity|].
      right. repeat split.
    + left. reflexivity.
Qed.

Lemma fallbackAIMove_always_moves_witness :
  exists m piece,
    In m (getLegalMoves (initGame Solo) Black)
    /\ getSq (board (initGame Solo)) (row (mfrom m)) (col (mfrom m)) = Some piece
    /\ pcolor piece = Black.
Proof.
  assert (Hmoves : getLegalMoves (initGame Solo) Black <> []) by (vm_compute; discriminate).
  assert (Hdepth : (1 <= depth danny)%nat) by (simpl; lia).
  assert (Hu2 : (0 <= 1 # 3)%Q /\ (1 # 3 < 1)%Q) by (split; reflexivity || discriminate).
  destruct (proj2 (fallbackAIMove_always_moves danny (1 # 2) (1 # 3) (initGame Solo)
                     Hdepth Hu2) Hmoves)
    as (m & piece & Hin & Hp & Hc & _).
  exists m, piece. split; [exact Hin|]. split; [exact Hp | exact Hc].
Defined.

Lemma swapIn_same (st : GameState) :
  swapIn (board st) (castlingRights st) (enPassantTarget st) st = st.
Proof. destruct st. reflexivity. Qed.

(** X16.  A finished game stays as it is.  Once the side to move has no
    legal move (checkmate or stalemate for the game-over check), the hint
    highlights nothing, a click leaves the position as it is, the answer
    of the engine is never played and [fallbackAIMove] leaves the globals
    as they are when that side is black, and [minimax] values the position
    for that side as the check reports it: the mate score, or 0 for
    stalemate. *)
Theorem game_over_stops_every_player (st : GameState) :
  checkGameOver st <> InProgress ->
  fst (getHintBuiltin st) = None
  /\ (forall isGameOver sel r c,
        exists sel', handleSquareClick isGameOver sel r c st = Returned (sel', st))
  /\ (turn st = Black ->
      (forall answer, oracleDecision answer st = Fallback)
      /\ (forall config u1 u2, fallbackAIMove config u1 u2 st = Returned st))
  /\ (forall depth alpha beta currentTurn,
        fst (minimax (S depth) (board st) alpha beta (Color_eqb (turn st) Black) currentTurn
                     (castlingRights st) (enPassantTarget st) st)
        = match checkGameOver st with
          | Checkmate _ =>
              Fin (if Color_eqb (turn st) Black
                   then -99999 + (3 - Z.of_nat (S depth))
                   else 99999 - (3 - Z.of_nat (S depth)))
          | _ => Fin 0
          end).
Proof.
  unfold checkGameOver. intros Hover.
  destruct (getLegalMoves st (turn st)) as [|m ms] eqn:Hmoves; [|congruence]. clear Hover.
  split; [|split; [|split]].
  - unfold getHintBuiltin. rewrite Hmoves. reflexivity.
  - intros isGameOver sel r c.
    assert (Hsel : exists sel', selectOwn r c st = Returned (sel', st)).
    { unfold selectOwn, selectSquare. rewrite Hmoves. cbn [filter forallb].
      destruct (cellHasColor (getSq (board st) r c) (turn st)); eexists; reflexivity. }
    unfold handleSquareClick. rewrite Hmoves. cbn [find].
    destruct isGameOver; [eexists; reflexivity|].
    destruct sel as [sel|]; [|exact Hsel].
    destruct ((row sel =? r) && (col sel =? c)); [eexists; reflexivity | exact Hsel].
  - intros Ht. rewrite Ht in Hmoves. split.
    + intros [uci|]; cbn [oracleDecision]; [|reflexivity]. rewrite Hmoves. reflexivity.
    + intros config u1 u2. unfold fallbackAIMove. rewrite Hmoves. reflexivity.
  - intros depth alpha beta currentTurn. rewrite minimax_S. cbv zeta.
    rewrite swapIn_same.
    assert (Hcolor : (if Color_eqb (turn st) Black then Black else White) = turn st)
      by (destruct (turn st); reflexivity).
    rewrite Hcolor, Hmoves.
    destruct (isSquareAttacked _ _ _ _); [|reflexivity].
    destruct (Color_eqb (turn st) Black); reflexivity.
Qed.

Lemma game_over_stops_every_player_witness :
  fst (getHintBuiltin (set_board stalemateBoard (initGame Pvp))) = None.
Proof.
  apply (game_over_stops_every_player (set_board stalemateBoard (initGame Pvp))).
  vm_compute. discriminate.
Defined.

(* ================================================================== *)
(** * Further properties of the attack detector: it sees what the generator
      can capture *)
(* ================================================================== *)

Lemma cellIs_piece (x : Cell) (p : Piece) (color : Color) (t : PieceType) :
  x = Some p -> pcolor p = color -> ptype p = t -> cellIs x color t = true.
Proof. intros -> <- <-. apply cellIs_spec. destruct p; reflexivity. Qed.

(** The clauses of [isSquareAttacked], one by one. *)
Lemma isSquareAttacked_cases (r c : Z) (color : Color) (b : Board) :
  isSquareAttacked r c color b = true <->
  (exists ac,
      (ac = c - 1 \/ ac = c + 1)
      /\ isValidSquare (match color with White => r - 1 | Black => r + 1 end) ac = true
      /\ cellIs (getSq b (match color with White => r - 1 | Black => r + 1 end) ac)
                (enemyOf color) Pawn = true)
  \/ (exists o, In o knightOffsets
        /\ isValidSquare (r + fst o) (c + snd o) = true
        /\ cellIs (getSq b (r + fst o) (c + snd o)) (enemyOf color) Knight = true)
  \/ (exists d, In d rookDirs
        /\ rayAttacked 8 b (enemyOf color) true (r + fst d) (c + snd d) (fst d) (snd d) = true)
  \/ (exists d, In d bishopDirs
        /\ rayAttacked 8 b (enemyOf color) false (r + fst d) (c + snd d) (fst d) (snd d) = true)
  \/ (exists o, In o kingOffsets
        /\ isValidSquare (r + fst o) (c + snd o) = true
        /\ cellIs (getSq b (r + fst o) (c + snd o)) (enemyOf color) King = true).
Proof.
  unfold isSquareAttacked. cbv zeta.
  rewrite !orb_true_iff, !existsb_exists, !andb_true_iff.
  split.
  - intros [[[[[H|H]|H]|H]|H]|H].
    + left. exists (c - 1). tauto.
    + left. exists (c + 1). tauto.
    + right. left. destruct H as (o & Ho & H). apply andb_true_iff in H. eauto.
    + right. right. left. exact H.
    + right. right. right. left. exact H.
    + right. right. right. right. destruct H as (o & Ho & H). apply andb_true_iff in H. eauto.
  - intros [H|[H|[H|[H|H]]]].
    + destruct H as (ac & [->| ->] & H); tauto.
    + left. left. left. right. destruct H as (o & Ho & H). exists o.
      rewrite andb_true_iff. auto.
    + left. left. right. exact H.
    + left. right. exact H.
    + right. destruct H as (o & Ho & H). exists o. rewrite andb_true_iff. auto.
Qed.

Lemma knightOffsets_opposite (o : Z * Z) :
  In o knightOffsets -> In (- fst o, - snd o) knightOffsets.
Proof. unfold knightOffsets. cbn [In]. intros H. intuition (subst; cbn; tauto). Qed.

Lemma kingOffsets_opposite (o : Z * Z) :
  In o kingOffsets -> In (- fst o, - snd o) kingOffsets.
Proof. unfold kingOffsets. cbn [In]. intros H. intuition (subst; cbn; tauto). Qed.

Lemma rookDirs_opposite (d : Z * Z) : In d rookDirs -> In (- fst d, - snd d) rookDirs.
Proof. unfold rookDirs. cbn [In]. intros H. intuition (subst; cbn; tauto). Qed.

Lemma bishopDirs_opposite (d : Z * Z) : In d bishopDirs -> In (- fst d, - snd d) bishopDirs.
Proof. unfold bishopDirs. cbn [In]. intros H. intuition (subst; cbn; tauto). Qed.

(** What a ray answers when the first piece on it stands [n] steps ahead. *)
Lemma ray_hits (b : Board) (enemyPrefix : Color) (orth : bool) (dr dc : Z) (p : Piece) :
  forall (n fuel : nat) (tr tc : Z),
    (n < fuel)%nat ->
    (forall j, 0 <= j < Z.of_nat n ->
               isValidSquare (tr + j * dr) (tc + j * dc) = true
               /\ getSq b (tr + j * dr) (tc + j * dc) = None) ->
    isValidSquare (tr + Z.of_nat n * dr) (tc + Z.of_nat n * dc) = true ->
    getSq b (tr + Z.of_nat n * dr) (tc + Z.of_nat n * dc) = Some p ->
    rayAttacked fuel b enemyPrefix orth tr tc dr dc
    = if Color_eqb (pcolor p) enemyPrefix
      then match ptype p with
           | Queen => true
           | Rook => orth
           | Bishop => negb orth
           | _ => false
           end
      else false.
Proof.
  induction n as [|n IH]; intros fuel tr tc Hfuel Hpath Hv Hp.
  - destruct fuel as [|fuel]; [lia|]. cbn [rayAttacked].
    cbn [Z.of_nat] in Hv, Hp. rewrite !Z.mul_0_l, !Z.add_0_r in Hv, Hp.
    rewrite Hv, Hp. reflexivity.
  - destruct fuel as [|fuel]; [lia|]. cbn [rayAttacked].
    destruct (Hpath 0 ltac:(lia)) as [Hv0 He0].
    rewrite !Z.mul_0_l, !Z.add_0_r in Hv0, He0. rewrite Hv0, He0.
    apply IH; [lia| | |].
    + intros j Hj. specialize (Hpath (j + 1) ltac:(lia)).
      replace (tr + (j + 1) * dr) with (tr + dr + j * dr) in Hpath by lia.
      replace (tc + (j + 1) * dc) with (tc + dc + j * dc) in Hpath by lia.
      exact Hpath.
    + replace (tr + dr + Z.of_nat n * dr) with (tr + Z.of_nat (S n) * dr) by lia.
      replace (tc + dc + Z.of_nat n * dc) with (tc + Z.of_nat (S n) * dc) by lia.
      exact Hv.
    + replace (tr + dr + Z.of_nat n * dr) with (tr + Z.of_nat (S n) * dr) by lia.
      replace (tc + dc + Z.of_nat n * dc) with (tc + Z.of_nat (S n) * dc) by lia.
      exact Hp.
Qed.

(** A ray that answers yes has found a piece some steps ahead, over empty
    squares. *)
Lemma ray_found (b : Board) (enemyPrefix : Color) (orth : bool) (dr dc : Z) :
  forall (fuel : nat) (tr tc : Z),
    rayAttacked fuel b enemyPrefix orth tr tc dr dc = true ->
    exists (n : nat) (p : Piece),
      (n < fuel)%nat
      /\ (forall j, 0 <= j < Z.of_nat n ->
                    isValidSquare (tr + j * dr) (tc + j * dc) = true
                    /\ getSq b (tr + j * dr) (tc + j * dc) = None)
      /\ isValidSquare (tr + Z.of_nat n * dr) (tc + Z.of_nat n * dc) = true
      /\ getSq b (tr + Z.of_nat n * dr) (tc + Z.of_nat n * dc) = Some p
      /\ pcolor p = enemyPrefix
      /\ (ptype p = Queen \/ (ptype p = Rook /\ orth = true)
          \/ (ptype p = Bishop /\ orth = false)).
Proof.
  induction fuel as [|fuel IH]; intros tr tc H; cbn [rayAttacked] in H; [discriminate|].
  destruct (isValidSquare tr tc) eqn:Hv; [|discriminate].
  destruct (getSq b tr tc) as [p|] eqn:Hp.
  - destruct (Color_eqb (pcolor p) enemyPrefix) eqn:Hc; [|discriminate].
    apply Color_eqb_eq in Hc.
    exists 0%nat, p. cbn [Z.of_nat]. rewrite !Z.mul_0_l, !Z.add_0_r.
    split; [lia|]. split; [intros j Hj; lia|]. split; [exact Hv|]. split; [exact Hp|].
    split; [exact Hc|].
    destruct (ptype p); try discriminate; auto.
    + right. right. split; [reflexivity|]. destruct orth; [discriminate | reflexivity].
  - apply IH in H. destruct H as (n & p & Hn & Hpath & Hvn & Hpn & Hc & Ht).
    exists (S n), p. split; [lia|].
    replace (tr + Z.of_nat (S n) * dr) with (tr + dr + Z.of_nat n * dr) by lia.
    replace (tc + Z.of_nat (S n) * dc) with (tc + dc + Z.of_nat n * dc) by lia.
    split; [|auto].
    intros j Hj. destruct (Z.eq_dec j 0) as [->|Hne].
    + rewrite !Z.mul_0_l, !Z.add_0_r. auto.
    + specialize (Hpath (j - 1) ltac:(lia)).
      replace (tr + dr + (j - 1) * dr) with (tr + j * dr) in Hpath by lia.
      replace (tc + dc + (j - 1) * dc) with (tc + j * dc) in Hpath by lia.
      exact Hpath.
Qed.

Lemma dirs_step (d : Z * Z) :
  In d (rookDirs ++ bishopDirs) ->
  (fst d = 1 \/ fst d = -1 \/ snd d = 1 \/ snd d = -1)
  /\ -1 <= fst d <= 1 /\ -1 <= snd d <= 1.
Proof.
  unfold rookDirs, bishopDirs. cbn [app In].
  intros H. repeat (destruct H as [<-|H]; [cbn; lia|]). contradiction.
Qed.

Lemma slidingDirs_dirs (t : PieceType) (d : Z * Z) :
  In d (slidingDirs t) -> In d (rookDirs ++ bishopDirs).
Proof.
  unfold slidingDirs. intros H. apply in_app_or in H. apply in_or_app.
  destruct H as [H|H]; [left | right]; destruct t; try contradiction; exact H.
Qed.

Lemma own_cell (x : Cell) (color : Color) :
  cellHasColor x color = true -> exists q, x = Some q /\ pcolor q = color.
Proof.
  destruct x as [q|]; [|discriminate]. cbn. intros H. apply Color_eqb_eq in H. eauto.
Qed.

Lemma enemyOf_enemyOf (color : Color) : enemyOf (enemyOf color) = color.
Proof. destruct color; reflexivity. Qed.

Lemma Color_eqb_refl (color : Color) : Color_eqb color color = true.
Proof. destruct color; reflexivity. Qed.

Section DetectorAndGenerator.
Variable st : GameState.
Variable color : Color.
Variables r c : Z.
Hypothesis Hown : cellHasColor (getSq (board st) r c) color = true.

(** The attacker's side of a step: a knight or a king one offset away from
    the square is seen. *)
Lemma step_is_seen (r' c' : Z) (p : Piece) (offsets : list (Z * Z)) (m : Move) :
  (forall o, In o offsets -> In (- fst o, - snd o) offsets) ->
  isValidSquare r' c' = true ->
  getSq (board st) r' c' = Some p ->
  pcolor p = enemyOf color ->
  In m (stepMoves st r' c' (enemyOf (pcolor p)) offsets) ->
  mto m = mkSquare r c ->
  exists o, In o offsets
    /\ isValidSquare (r + fst o) (c + snd o) = true
    /\ cellIs (getSq (board st) (r + fst o) (c + snd o)) (enemyOf color) (ptype p) = true.
Proof.
  intros Hopp Hv Hp Hc Hin Hto. unfold stepMoves in Hin.
  apply in_flat_map in Hin. destruct Hin as (o & Ho & Hin). cbv zeta in Hin.
  destruct (isValidSquare (r' + fst o) (c' + snd o)); [|contradiction].
  destruct (_ || _); [|contradiction].
  destruct Hin as [<-|[]]. cbn [mto addMove] in Hto. injection Hto as <- <-.
  exists (- fst o, - snd o). split; [apply Hopp; exact Ho|]. cbn [fst snd].
  replace (r' + fst o + - fst o) with r' by lia.
  replace (c' + snd o + - snd o) with c' by lia.
  split; [exact Hv|]. apply (cellIs_piece _ p); auto.
Qed.

(** The attacker's side of a ray: the square a sliding piece lands on looks
    back along the ray at that piece. *)
Lemma slide_is_seen (r' c' : Z) (p : Piece) (d : Z * Z) (orth : bool) (m : Move) :
  isValidSquare r' c' = true ->
  getSq (board st) r' c' = Some p ->
  pcolor p = enemyOf color ->
  In d (rookDirs ++ bishopDirs) ->
  In m (slide st r' c' 8 (enemyOf (pcolor p)) (r' + fst d) (c' + snd d) (fst d) (snd d)) ->
  mto m = mkSquare r c ->
  rayAttacked 8 (board st) (enemyOf color) orth (r + - fst d) (c + - snd d)
              (- fst d) (- snd d)
  = match ptype p with
    | Queen => true
    | Rook => orth
    | Bishop => negb orth
    | _ => false
    end.
Proof.
  intros Hv Hp Hc Hd Hin Hto.
  apply slide_path in Hin. destruct Hin as (k & Hk & _ & Hto' & Hval & Hpath).
  rewrite Hto in Hto'. injection Hto' as Hr Hcc.
  apply isValidSquare_spec in Hv. pose proof Hval as Hval'.
  apply isValidSquare_spec in Hval'. rewrite <- Hr, <- Hcc in Hval'.
  destruct (dirs_step d Hd) as (Hone & Hdr & Hdc).
  assert (Hk8 : k < 7) by nia.
  rewrite (ray_hits (board st) (enemyOf color) orth (- fst d) (- snd d) p (Z.to_nat k) 8).
  - rewrite Hc, Color_eqb_refl. reflexivity.
  - lia.
  - intros j Hj. specialize (Hpath (k - 1 - j) ltac:(lia)).
    replace (r + - fst d + j * - fst d) with (r' + fst d + (k - 1 - j) * fst d) by lia.
    replace (c + - snd d + j * - snd d) with (c' + snd d + (k - 1 - j) * snd d) by lia.
    exact Hpath.
  - rewrite Z2Nat.id by lia.
    replace (r + - fst d + k * - fst d) with r' by lia.
    replace (c + - snd d + k * - snd d) with c' by lia.
    apply isValidSquare_spec. exact Hv.
  - rewrite Z2Nat.id by lia.
    replace (r + - fst d + k * - fst d) with r' by lia.
    replace (c + - snd d + k * - snd d) with c' by lia.
    exact Hp.
Qed.

(** Every capture that the generator offers a piece of the other side on
    an occupied square is an attack for the detector. *)
Lemma capture_is_seen (r' c' : Z) (p : Piece) (m : Move) :
  isValidSquare r' c' = true ->
  getSq (board st) r' c' = Some p ->
  pcolor p = enemyOf color ->
  In m (getPseudoLegalMoves st r' c' p) ->
  mto m = mkSquare r c ->
  special m <> Some EnPassant ->
  isSquareAttacked r c color (board st) = true.
Proof.
  intros Hv Hp Hc Hin Hto Hsp.
  destruct (own_cell _ _ Hown) as (q & Hq & Hqc).
  assert (Hfull : cellEmpty (getSq (board st) r c) = false) by (rewrite Hq; reflexivity).
  apply isSquareAttacked_cases.
  unfold getPseudoLegalMoves in Hin. cbv zeta in Hin.
  destruct (ptype p) eqn:Ht.
  - (* pawn *)
    left. unfold pawnMoves in Hin. cbv zeta in Hin.
    apply in_app_or in Hin as [Hin|Hin].
    + exfalso.
      destruct (isValidSquare (r' + direction (pcolor p)) c'
                && cellEmpty (getSq (board st) (r' + direction (pcolor p)) c')) eqn:H1;
        [|contradiction].
      apply andb_true_iff in H1 as [_ He].
      destruct Hin as [<-|Hin].
      * cbn [mto addMove] in Hto. injection Hto as <- <-. congruence.
      * destruct (_ || _); [|contradiction].
        destruct (isValidSquare (r' + direction (pcolor p) * 2) c'
                  && cellEmpty (getSq (board st) (r' + direction (pcolor p) * 2) c')) eqn:H2;
          [|contradiction].
        apply andb_true_iff in H2 as [_ He2].
        destruct Hin as [<-|[]]. cbn [mto addMove] in Hto. injection Hto as <- <-.
        congruence.
    + cbn [flat_map] in Hin. rewrite app_nil_r in Hin.
      assert (Hdiag : forall tc,
                 In m (if isValidSquare (r' + direction (pcolor p)) tc
                       then (if cellHasColor (getSq (board st) (r' + direction (pcolor p)) tc)
                                             (enemyOf (pcolor p))
                             then [addMove r' c' (r' + direction (pcolor p)) tc None] else [])
                            ++ match enPassantTarget st with
                               | Some ep =>
                                   if (r' + direction (pcolor p) =? row ep) && (tc =? col ep)
                                   then [addMove r' c' (r' + direction (pcolor p)) tc
                                                 (Some EnPassant)]
                                   else []
                               | None => []
                               end
                       else []) ->
                 r = r' + direction (pcolor p) /\ c = tc).
      { intros tc H. destruct (isValidSquare _ tc); [|contradiction].
        apply in_app_or in H as [H|H].
        - destruct (cellHasColor (getSq (board st) (r' + direction (pcolor p)) tc)
                                 (enemyOf (pcolor p))); [|contradiction].
          destruct H as [<-|[]]. cbn [mto addMove] in Hto. injection Hto as <- <-. auto.
        - destruct (enPassantTarget st) as [ep|]; [|contradiction].
          destruct ((r' + direction (pcolor p) =? row ep) && (tc =? col ep));
            [|contradiction].
          destruct H as [<-|[]]. cbn [special addMove] in Hsp. congruence. }
      assert (Hrow : r' = match color with White => r - 1 | Black => r + 1 end
                     /\ (c' = c - 1 \/ c' = c + 1)).
      { apply in_app_or in Hin as [Hin|Hin]; apply Hdiag in Hin; destruct Hin as [Hr Hcc];
          rewrite Hc in Hr; destruct color; cbn [enemyOf direction] in Hr; lia. }
      destruct Hrow as [Hrow Hcol]. exists c'. split; [exact Hcol|].
      rewrite <- Hrow. split; [exact Hv|]. apply (cellIs_piece _ p); auto.
  - (* knight *)
    right. left. rewrite <- Ht.
    apply (step_is_seen r' c' p knightOffsets m); auto using knightOffsets_opposite.
  - (* bishop *)
    right. right. right. left.
    apply in_flat_map in Hin. destruct Hin as (d & Hd & Hin).
    unfold slidingDirs in Hd. apply in_app_or in Hd as [Hd|Hd]; [contradiction|].
    exists (- fst d, - snd d). split; [apply bishopDirs_opposite; exact Hd|].
    cbn [fst snd].
    rewrite (slide_is_seen r' c' p d false m); auto.
    + rewrite Ht. reflexivity.
    + apply in_or_app. right. exact Hd.
  - (* rook *)
    right. right. left.
    apply in_flat_map in Hin. destruct Hin as (d & Hd & Hin).
    unfold slidingDirs in Hd. apply in_app_or in Hd as [Hd|Hd]; [|contradiction].
    exists (- fst d, - snd d). split; [apply rookDirs_opposite; exact Hd|].
    cbn [fst snd].
    rewrite (slide_is_seen r' c' p d true m); auto.
    + rewrite Ht. reflexivity.
    + apply in_or_app. left. exact Hd.
  - (* queen *)
    apply in_flat_map in Hin. destruct Hin as (d & Hd & Hin).
    unfold slidingDirs in Hd. apply in_app_or in Hd as [Hd|Hd].
    + right. right. left.
      exists (- fst d, - snd d). split; [apply rookDirs_opposite; exact Hd|].
      cbn [fst snd].
      rewrite (slide_is_seen r' c' p d true m); auto.
      * rewrite Ht. reflexivity.
      * apply in_or_app. left. exact Hd.
    + right. right. right. left.
      exists (- fst d, - snd d). split; [apply bishopDirs_opposite; exact Hd|].
      cbn [fst snd].
      rewrite (slide_is_seen r' c' p d false m); auto.
      * rewrite Ht. reflexivity.
      * apply in_or_app. right. exact Hd.
  - (* king *)
    right. right. right. right. rewrite <- Ht.
    apply in_app_or in Hin as [Hin|Hin].
    + apply (step_is_seen r' c' p kingOffsets m); auto using kingOffsets_opposite.
    + exfalso. eapply Forall_forall in Hin; [|apply castleMoves_castle].
      destruct Hin as [_ He]. unfold targetOf in He. rewrite Hto in He. cbn [row col] in He.
      congruence.
Qed.
End DetectorAndGenerator.

Section GeneratorOffers.
Variable st : GameState.
Variables r' c' : Z.

Lemma pawn_capture_generated (pc : Color) (tr tc : Z) :
  tr = r' + direction pc ->
  tc = c' - 1 \/ tc = c' + 1 ->
  isValidSquare tr tc = true ->
  cellHasColor (getSq (board st) tr tc) (enemyOf pc) = true ->
  In (addMove r' c' tr tc None) (pawnMoves st r' c' pc).
Proof.
  intros -> Htc Hv Hcap. unfold pawnMoves. cbv zeta. apply in_or_app. right.
  cbn [flat_map]. rewrite app_nil_r. apply in_or_app.
  destruct Htc as [-> | ->]; [left | right]; rewrite Hv, Hcap;
    apply in_or_app; left; left; reflexivity.
Qed.

Lemma step_generated (enemyColor : Color) (offsets : list (Z * Z)) (o : Z * Z) :
  In o offsets ->
  isValidSquare (r' + fst o) (c' + snd o) = true ->
  cellHasColor (getSq (board st) (r' + fst o) (c' + snd o)) enemyColor = true ->
  In (addMove r' c' (r' + fst o) (c' + snd o) None) (stepMoves st r' c' enemyColor offsets).
Proof.
  intros Ho Hv Hcap. unfold stepMoves. apply in_flat_map. exists o. split; [exact Ho|].
  cbv zeta. rewrite Hv, Hcap, orb_true_r. left. reflexivity.
Qed.

(** A ray of the generator reaches the first piece on it when that piece is
    one it may capture. *)
Lemma slide_reaches (enemyColor : Color) (dr dc : Z) (q : Piece) :
  forall (n fuel : nat) (tr tc : Z),
    (n < fuel)%nat ->
    (forall j, 0 <= j < Z.of_nat n ->
               isValidSquare (tr + j * dr) (tc + j * dc) = true
               /\ getSq (board st) (tr + j * dr) (tc + j * dc) = None) ->
    isValidSquare (tr + Z.of_nat n * dr) (tc + Z.of_nat n * dc) = true ->
    getSq (board st) (tr + Z.of_nat n * dr) (tc + Z.of_nat n * dc) = Some q ->
    pcolor q = enemyColor ->
    In (addMove r' c' (tr + Z.of_nat n * dr) (tc + Z.of_nat n * dc) None)
       (slide st r' c' fuel enemyColor tr tc dr dc).
Proof.
  induction n as [|n IH]; intros fuel tr tc Hfuel Hpath Hv Hq Hc.
  - destruct fuel as [|fuel]; [lia|]. cbn [slide].
    cbn [Z.of_nat] in *. rewrite !Z.mul_0_l, !Z.add_0_r in *.
    rewrite Hv, Hq, Hc, Color_eqb_refl. left. reflexivity.
  - destruct fuel as [|fuel]; [lia|]. cbn [slide].
    destruct (Hpath 0 ltac:(lia)) as [Hv0 He0].
    rewrite !Z.mul_0_l, !Z.add_0_r in Hv0, He0. rewrite Hv0, He0.
    right.
    replace (tr + Z.of_nat (S n) * dr) with (tr + dr + Z.of_nat n * dr) in * by lia.
    replace (tc + Z.of_nat (S n) * dc) with (tc + dc + Z.of_nat n * dc) in * by lia.
    apply IH; [lia| | | |]; try assumption.
    intros j Hj. specialize (Hpath (j + 1) ltac:(lia)).
    replace (tr + (j + 1) * dr) with (tr + dr + j * dr) in Hpath by lia.
    replace (tc + (j + 1) * dc) with (tc + dc + j * dc) in Hpath by lia.
    exact Hpath.
Qed.
End GeneratorOffers.

Section DetectorIsExact.
Variable st : GameState.
Variable color : Color.
Variables r c : Z.
Hypothesis Hvalid : isValidSquare r c = true.
Hypothesis Hown : cellHasColor (getSq (board st) r c) color = true.

Lemma step_attack_is_a_capture (t : PieceType) (offsets : list (Z * Z)) (o : Z * Z) :
  (forall o, In o offsets -> In (- fst o, - snd o) offsets) ->
  In o offsets ->
  isValidSquare (r + fst o) (c + snd o) = true ->
  cellIs (getSq (board st) (r + fst o) (c + snd o)) (enemyOf color) t = true ->
  exists r' c' p,
    isValidSquare r' c' = true
    /\ getSq (board st) r' c' = Some p
    /\ pcolor p = enemyOf color /\ ptype p = t
    /\ In (addMove r' c' r c None) (stepMoves st r' c' (enemyOf (pcolor p)) offsets).
Proof.
  intros Hopp Ho Hv Hcell. apply cellIs_spec in Hcell.
  exists (r + fst o), (c + snd o), (mkPiece (enemyOf color) t).
  split; [exact Hv|]. split; [exact Hcell|]. split; [reflexivity|]. split; [reflexivity|].
  cbn [pcolor]. rewrite enemyOf_enemyOf.
  pose proof (step_generated st (r + fst o) (c + snd o) color offsets
                (- fst o, - snd o) (Hopp o Ho)) as H.
  cbn [fst snd] in H.
  replace (r + fst o + - fst o) with r in H by lia.
  replace (c + snd o + - snd o) with c in H by lia.
  exact (H Hvalid Hown).
Qed.

Lemma ray_attack_is_a_capture (orth : bool) (d : Z * Z) :
  In d (rookDirs ++ bishopDirs) ->
  rayAttacked 8 (board st) (enemyOf color) orth (r + fst d) (c + snd d) (fst d) (snd d) = true ->
  exists r' c' p,
    isValidSquare r' c' = true
    /\ getSq (board st) r' c' = Some p
    /\ pcolor p = enemyOf color
    /\ (ptype p = Queen \/ (ptype p = Rook /\ orth = true)
        \/ (ptype p = Bishop /\ orth = false))
    /\ In (addMove r' c' r c None)
          (slide st r' c' 8 (enemyOf (pcolor p)) (r' + - fst d) (c' + - snd d)
                 (- fst d) (- snd d)).
Proof.
  intros Hd Hray. apply ray_found in Hray.
  destruct Hray as (n & p & Hn & Hpath & Hv & Hp & Hc & Ht).
  destruct (own_cell _ _ Hown) as (q & Hq & Hqc).
  set (k := Z.of_nat n) in *.
  exists (r + fst d + k * fst d), (c + snd d + k * snd d), p.
  split; [exact Hv|]. split; [exact Hp|]. split; [exact Hc|]. split; [exact Ht|].
  rewrite Hc, enemyOf_enemyOf.
  pose proof (slide_reaches st (r + fst d + k * fst d) (c + snd d + k * snd d) color
                (- fst d) (- snd d) q n 8
                (r + fst d + k * fst d + - fst d) (c + snd d + k * snd d + - snd d) Hn) as H.
  fold k in H.
  replace (r + fst d + k * fst d + - fst d + k * - fst d) with r in H by lia.
  replace (c + snd d + k * snd d + - snd d + k * - snd d) with c in H by lia.
  apply H; auto.
  intros j Hj. specialize (Hpath (k - 1 - j) ltac:(lia)).
  replace (r + fst d + k * fst d + - fst d + j * - fst d)
    with (r + fst d + (k - 1 - j) * fst d) by lia.
  replace (c + snd d + k * snd d + - snd d + j * - snd d)
    with (c + snd d + (k - 1 - j) * snd d) by lia.
  exact Hpath.
Qed.

(** Every attack that the detector reports on an occupied square is a
    capture that the generator offers a piece of the other side. *)
Lemma attack_is_a_capture :
  isSquareAttacked r c color (board st) = true ->
  exists r' c' p m,
    isValidSquare r' c' = true
    /\ getSq (board st) r' c' = Some p
    /\ pcolor p = enemyOf color
    /\ In m (getPseudoLegalMoves st r' c' p)
    /\ mto m = mkSquare r c
    /\ special m = None.
Proof.
  intros H. apply isSquareAttacked_cases in H.
  destruct H as [H|[H|[H|[H|H]]]].
  - destruct H as (ac & Hac & Hv & Hcell). apply cellIs_spec in Hcell.
    exists (match color with White => r - 1 | Black => r + 1 end), ac,
           (mkPiece (enemyOf color) Pawn),
           (addMove (match color with White => r - 1 | Black => r + 1 end) ac r c None).
    split; [exact Hv|]. split; [exact Hcell|]. split; [reflexivity|].
    split; [|split; reflexivity].
    unfold getPseudoLegalMoves. cbn [pcolor ptype]. cbv zeta.
    apply pawn_capture_generated.
    + destruct color; cbn [enemyOf direction]; lia.
    + lia.
    + exact Hvalid.
    + rewrite enemyOf_enemyOf. exact Hown.
  - destruct H as (o & Ho & Hv & Hcell).
    destruct (step_attack_is_a_capture Knight knightOffsets o knightOffsets_opposite
                Ho Hv Hcell) as (r' & c' & p & Hv' & Hp & Hc & Ht & Hin).
    exists r', c', p, (addMove r' c' r c None).
    split; [exact Hv'|]. split; [exact Hp|]. split; [exact Hc|].
    split; [|split; reflexivity].
    unfold getPseudoLegalMoves. rewrite Ht. exact Hin.
  - destruct H as (d & Hd & Hray).
    destruct (ray_attack_is_a_capture true d ltac:(apply in_or_app; left; exact Hd) Hray)
      as (r' & c' & p & Hv' & Hp & Hc & Ht & Hin).
    exists r', c', p, (addMove r' c' r c None).
    split; [exact Hv'|]. split; [exact Hp|]. split; [exact Hc|].
    split; [|split; reflexivity].
    unfold getPseudoLegalMoves. cbv zeta.
    assert (Hdirs : In (- fst d, - snd d) (slidingDirs (ptype p))).
    { unfold slidingDirs. apply in_or_app. left.
      destruct Ht as [Ht|[[Ht _]|[_ Ht]]]; [| |discriminate]; rewrite Ht;
        apply rookDirs_opposite; exact Hd. }
    assert (Hflat : In (addMove r' c' r c None)
              (flat_map (fun d0 : Z * Z =>
                           slide st r' c' 8 (enemyOf (pcolor p)) (r' + fst d0) (c' + snd d0)
                                 (fst d0) (snd d0))
                        (slidingDirs (ptype p)))).
    { apply in_flat_map. exists (- fst d, - snd d). split; [exact Hdirs | exact Hin]. }
    destruct Ht as [Ht|[[Ht _]|[_ Ht]]]; [| |discriminate]; rewrite Ht in *; exact Hflat.
  - destruct H as (d & Hd & Hray).
    destruct (ray_attack_is_a_capture false d ltac:(apply in_or_app; right; exact Hd) Hray)
      as (r' & c' & p & Hv' & Hp & Hc & Ht & Hin).
    exists r', c', p, (addMove r' c' r c None).
    split; [exact Hv'|]. split; [exact Hp|]. split; [exact Hc|].
    split; [|split; reflexivity].
    unfold getPseudoLegalMoves. cbv zeta.
    assert (Hdirs : In (- fst d, - snd d) (slidingDirs (ptype p))).
    { unfold slidingDirs. apply in_or_app. right.
      destruct Ht as [Ht|[[_ Ht]|[Ht _]]]; [|discriminate|]; rewrite Ht;
        apply bishopDirs_opposite; exact Hd. }
    assert (Hflat : In (addMove r' c' r c None)
              (flat_map (fun d0 : Z * Z =>
                           slide st r' c' 8 (enemyOf (pcolor p)) (r' + fst d0) (c' + snd d0)
                                 (fst d0) (snd d0))
                        (slidingDirs (ptype p)))).
    { apply in_flat_map. exists (- fst d, - snd d). split; [exact Hdirs | exact Hin]. }
    destruct Ht as [Ht|[[_ Ht]|[Ht _]]]; [|discriminate|]; rewrite Ht in *; exact Hflat.
  - destruct H as (o & Ho & Hv & Hcell).
    destruct (step_attack_is_a_capture King kingOffsets o kingOffsets_opposite
                Ho Hv Hcell) as (r' & c' & p & Hv' & Hp & Hc & Ht & Hin).
    exists r', c', p, (addMove r' c' r c None).
    split; [exact Hv'|]. split; [exact Hp|]. split; [exact Hc|].
    split; [|split; reflexivity].
    unfold getPseudoLegalMoves. rewrite Ht. cbv zeta. apply in_or_app. left. exact Hin.
Qed.
End DetectorIsExact.

(** X18.  The attack detector and the move generator agree.  On a square of
    the board that holds a piece of one side, [isSquareAttacked] answers yes
    exactly when [getPseudoLegalMoves] offers some piece of the other side a
    move onto that square (an en-passant capture lands on the empty square
    behind a pawn and is no such move). *)
Theorem attack_detector_is_exact (st : GameState) (color : Color) (r c : Z) :
  isValidSquare r c = true ->
  cellHasColor (getSq (board st) r c) color = true ->
  isSquareAttacked r c color (board st) = true <->
  exists s p m,
    In s allSquares
    /\ getSq (board st) (row s) (col s) = Some p
    /\ pcolor p = enemyOf color
    /\ In m (getPseudoLegalMoves st (row s) (col s) p)
    /\ mto m = mkSquare r c
    /\ special m <> Some EnPassant.
Proof.
  intros Hvalid Hown. split.
  - intros H.
    destruct (attack_is_a_capture st color r c Hvalid Hown H)
      as (r' & c' & p & m & Hv & Hp & Hc & Hin & Hto & Hsp).
    exists (mkSquare r' c'), p, m. cbn [row col].
    split; [apply valid_in_allSquares; exact Hv|].
    repeat split; try assumption. congruence.
  - intros (s & p & m & Hs & Hp & Hc & Hin & Hto & Hsp).
    exact (capture_is_seen st color r c Hown (row s) (col s) p m
             (allSquares_valid s Hs) Hp Hc Hin Hto Hsp).
Qed.

Lemma attack_detector_is_exact_witness :
  isSquareAttacked 7 0 White mateBoard = true <->
  exists s p m,
    In s allSquares
    /\ getSq mateBoard (row s) (col s) = Some p
    /\ pcolor p = Black
    /\ In m (getPseudoLegalMoves (set_board mateBoard (initGame Pvp)) (row s) (col s) p)
    /\ mto m = mkSquare 7 0
    /\ special m <> Some EnPassant.
Proof.
  apply (attack_detector_is_exact (set_board mateBoard (initGame Pvp)) White 7 0);
    reflexivity.
Defined.

(** An en-passant capture lands on the en-passant target. *)
Lemma pseudo_enpassant_target (st : GameState) (r c : Z) (piece : Piece) (m : Move) :
  In m (getPseudoLegalMoves st r c piece) ->
  special m = Some EnPassant ->
  enPassantTarget st = Some (mto m).
Proof.
  intros Hin Hsp. destruct (pseudo_enpassant st r c piece m Hin Hsp) as (Ht & _).
  unfold getPseudoLegalMoves in Hin. rewrite Ht in Hin. cbv zeta in Hin.
  unfold pawnMoves in Hin. cbv zeta in Hin.
  apply in_app_or in Hin as [Hin|Hin].
  - exfalso.
    destruct (isValidSquare (r + direction (pcolor piece)) c && _); [|contradiction].
    destruct Hin as [<-|Hin]; [discriminate|].
    destruct (_ || _); [|contradiction].
    destruct (_ && _); [|contradiction].
    destruct Hin as [<-|[]]. discriminate.
  - cbn [flat_map] in Hin. rewrite app_nil_r in Hin.
    assert (Hdiag : forall tc,
               In m (if isValidSquare (r + direction (pcolor piece)) tc
                     then (if cellHasColor (getSq (board st) (r + direction (pcolor piece)) tc)
                                           (enemyOf (pcolor piece))
                           then [addMove r c (r + direction (pcolor piece)) tc None] else [])
                          ++ match enPassantTarget st with
                             | Some ep =>
                                 if (r + direction (pcolor piece) =? row ep) && (tc =? col ep)
                                 then [addMove r c (r + direction (pcolor piece)) tc
                                               (Some EnPassant)]
                                 else []
                             | None => []
                             end
                     else []) ->
               enPassantTarget st = Some (mto m)).
    { intros tc H. destruct (isValidSquare _ tc); [|contradiction].
      apply in_app_or in H as [H|H].
      - destruct (cellHasColor (getSq (board st) (r + direction (pcolor piece)) tc)
                               (enemyOf (pcolor piece))); [|contradiction].
        destruct H as [<-|[]]. discriminate.
      - destruct (enPassantTarget st) as [ep|]; [|contradiction].
        destruct ((r + direction (pcolor piece) =? row ep) && (tc =? col ep)) eqn:E;
          [|contradiction].
        destruct H as [<-|[]]. cbn [mto addMove].
        apply andb_true_iff in E as [E1 E2]. apply Z.eqb_eq in E1, E2.
        rewrite E1, E2. destruct ep; reflexivity. }
    apply in_app_or in Hin as [Hin|Hin]; exact (Hdiag _ Hin).
Qed.

(** The target that a committed legal move leaves is an empty square. *)
Lemma committed_target_is_empty (st : GameState) (color : Color) (m : Move) (piece : Piece)
      (choice : option PieceType) (ep : Square) :
  In m (getLegalMoves st color) ->
  enPassantTarget (commitMove m piece choice st) = Some ep ->
  getSq (board (commitMove m piece choice st)) (row ep) (col ep) = None.
Proof.
  intros Hlegal Hep.
  destruct (legal_move_origin st color m Hlegal) as (piece' & Hp & Hc & Hv & Hin).
  unfold commitMove in Hep. cbv zeta in Hep. cbn [enPassantTarget] in Hep.
  unfold epAfter in Hep. destruct (isSpecial m DoublePush) eqn:Hdp; [|discriminate].
  apply isSpecial_spec in Hdp. injection Hep as <-. cbn [row col].
  destruct (pseudo_doublepush st _ _ piece' m Hin Hdp) as (_ & Hto & _ & He1 & _ & _).
  assert (Hdiv : (row (mfrom m) + row (mto m)) / 2 = row (mfrom m) + direction (pcolor piece')).
  { rewrite Hto. cbn [row].
    replace (row (mfrom m) + (row (mfrom m) + direction (pcolor piece') * 2))
      with ((row (mfrom m) + direction (pcolor piece')) * 2) by lia.
    apply Z.div_mul. discriminate. }
  rewrite Hdiv, commitMove_frame; [exact He1|].
  unfold touchedSquares. cbv zeta. rewrite Hto. cbn [row col].
  replace (isSpecial m EnPassant) with false
    by (symmetry; apply not_true_is_false; rewrite isSpecial_spec; congruence).
  replace (isSpecial m CastleKs) with false
    by (symmetry; apply not_true_is_false; rewrite isSpecial_spec; congruence).
  replace (isSpecial m CastleQs) with false
    by (symmetry; apply not_true_is_false; rewrite isSpecial_spec; congruence).
  cbn [app In]. intros [E|[E|[]]]; inversion E; destruct (pcolor piece');
    cbn [direction] in *; lia.
Qed.

(** X19.  A legal move never leaves the king to be taken.  When there is
    one king of the mover's colour and [makeMove] commits a legal move that
    is no castling move and no promotion, then in the position it leaves
    no move that the generator offers a piece of the other side lands on
    the square of that king. *)
Theorem king_is_never_left_en_prise (st : GameState) (color : Color) (m : Move)
        (k0 : Square) :
  In m (getLegalMoves st color) ->
  ~ isCastle m ->
  kingSquares (board st) color = [k0] ->
  exists piece st',
    getSq (board st) (row (mfrom m)) (col (mfrom m)) = Some piece
    /\ st' = commitMove m piece None st
    /\ (needsPromotionChoice m piece None = false ->
        makeMove m None st = Returned st'
        /\ forall s p reply k,
             In s allSquares ->
             getSq (board st') (row s) (col s) = Some p ->
             pcolor p = enemyOf color ->
             In reply (getPseudoLegalMoves st' (row s) (col s) p) ->
             In k (kingSquares (board st') color) ->
             mto reply <> k).
Proof.
  intros Hlegal Hnc Hone.
  destruct (makeMove_keeps_king_safe st color m Hlegal
              ltac:(intros E; apply Hnc; left; exact E)
              ltac:(intros E; apply Hnc; right; exact E))
    as (piece & Hp & Hc & Hsafe).
  exists piece, (commitMove m piece None st).
  split; [exact Hp|]. split; [reflexivity|].
  intros Hneed. destruct (Hsafe Hneed) as (Hmake & _ & _ & Hkings).
  split; [exact Hmake|].
  intros s p reply k Hs Hps Hpc Hreply Hk Hto.
  pose proof (Hkings k0 Hone k Hk) as Hfree.
  pose proof Hk as Hk'. apply kingSquares_In in Hk' as [Hkin Hkcell].
  assert (Hown : cellHasColor (getSq (board (commitMove m piece None st)) (row k) (col k))
                              color = true).
  { rewrite Hkcell. cbn. apply Color_eqb_refl. }
  assert (Hsp : special reply <> Some EnPassant).
  { intros Hsp.
    pose proof (pseudo_enpassant_target _ _ _ p reply Hreply Hsp) as Hep.
    rewrite Hto in Hep.
    pose proof (committed_target_is_empty st color m piece None k Hlegal Hep) as He.
    congruence. }
  assert (Hseen : isSquareAttacked (row k) (col k) color
                                   (board (commitMove m piece None st)) = true).
  { apply (capture_is_seen (commitMove m piece None st) color (row k) (col k) Hown
             (row s) (col s) p reply (allSquares_valid s Hs) Hps Hpc Hreply); [|exact Hsp].
    rewrite Hto. destruct k; reflexivity. }
  congruence.
Qed.

Lemma king_is_never_left_en_prise_witness :
  exists piece st',
    getSq initialBoard 6 4 = Some piece
    /\ st' = commitMove e2e4 piece None (initGame Pvp)
    /\ (needsPromotionChoice e2e4 piece None = false ->
        makeMove e2e4 None (initGame Pvp) = Returned st'
        /\ forall s p reply k,
             In s allSquares ->
             getSq (board st') (row s) (col s) = Some p ->
             pcolor p = enemyOf White ->
             In reply (getPseudoLegalMoves st' (row s) (col s) p) ->
             In k (kingSquares (board st') White) ->
             mto reply <> k).
Proof.
  apply (king_is_never_left_en_prise (initGame Pvp) White e2e4 (mkSquare 7 4)).
  - vm_compute. in_list.
  - intros [H|H]; discriminate H.
  - reflexivity.
Defined.

(* ================================================================== *)
(** * Further properties of the FEN writer: the line determines the
      position *)
(* ================================================================== *)

Lemma splitOn_append (sep : ascii) (p rest : string) :
  freeOf sep p = true ->
  splitOn sep (append p (String sep rest)) = p :: splitOn sep rest.
Proof.
  unfold freeOf. induction p as [|ch p IH]; cbn [append splitOn list_ascii_of_string forallb].
  - intros _. rewrite Ascii.eqb_refl. reflexivity.
  - intros H. apply andb_true_iff in H as [Hch Hp]. apply negb_true_iff in Hch.
    rewrite Hch, (IH Hp). reflexivity.
Qed.

Lemma splitOn_free (sep : ascii) (p : string) :
  freeOf sep p = true -> splitOn sep p = [p].
Proof.
  unfold freeOf. induction p as [|ch p IH]; cbn [splitOn list_ascii_of_string forallb].
  - reflexivity.
  - intros H. apply andb_true_iff in H as [Hch Hp]. apply negb_true_iff in Hch.
    rewrite Hch, (IH Hp). reflexivity.
Qed.

Lemma freeOf_append (sep : ascii) (s1 s2 : string) :
  freeOf sep (append s1 s2) = freeOf sep s1 && freeOf sep s2.
Proof.
  unfold freeOf. induction s1 as [|ch s1 IH]; simpl; [reflexivity|].
  rewrite IH. apply andb_assoc.
Qed.

Lemma freeOf_digits (sep : ascii) (d : Decimal.uint) :
  (forall ch, In ch ["0"; "1"; "2"; "3"; "4"; "5"; "6"; "7"; "8"; "9"; "-"]%char ->
              Ascii.eqb ch sep = false) ->
  freeOf sep (NilEmpty.string_of_uint d) = true.
Proof.
  intros Hsep. unfold freeOf.
  induction d; cbn [NilEmpty.string_of_uint list_ascii_of_string forallb]; [reflexivity|..];
    rewrite IHd, andb_true_r; apply negb_true_iff; apply Hsep; cbn [In]; tauto.
Qed.

Lemma freeOf_numStr (sep : ascii) (z : Z) :
  (forall ch, In ch ["0"; "1"; "2"; "3"; "4"; "5"; "6"; "7"; "8"; "9"; "-"]%char ->
              Ascii.eqb ch sep = false) ->
  freeOf sep (numStr z) = true.
Proof.
  intros Hsep.
  assert (H0 : Ascii.eqb "0" sep = false) by (apply Hsep; cbn [In]; tauto).
  assert (Hm : Ascii.eqb "-" sep = false) by (apply Hsep; cbn [In]; tauto).
  pose proof (freeOf_digits sep) as Hd.
  unfold numStr, NilZero.string_of_int, NilZero.string_of_uint.
  destruct (Z.to_int z) as [d|d]; destruct d;
    try (apply Hd; exact Hsep);
    unfold freeOf; cbn [list_ascii_of_string forallb]; rewrite ?H0, ?Hm; cbn [negb andb];
    try reflexivity; try (apply (Hd (_ d)); exact Hsep);
    fold (freeOf sep (NilEmpty.string_of_uint (Decimal.D0 d))); auto.
Qed.

Lemma freeOf_rankText (sep : ascii) (b : Board) (r : Z) :
  sep = " "%char \/ sep = "/"%char -> freeOf sep (rankText b r) = true.
Proof.
  intros Hsep. unfold rankText.
  induction (rankTokens (map (getSq b r) range8)) as [|t ts IH]; [reflexivity|].
  cbn [map]. rewrite concat_empty_cons, freeOf_append, IH, andb_true_r.
  destruct t as [n|[[] []]]; try (destruct Hsep as [-> | ->]; reflexivity).
  apply freeOf_numStr. intros ch Hch. cbn [In] in Hch.
  destruct Hsep as [-> | ->]; intuition (subst; reflexivity).
Qed.

Lemma freeOf_placementField (b : Board) : freeOf " " (placementField b) = true.
Proof.
  unfold placementField, range8. cbn [map String.concat].
  rewrite !freeOf_append, !freeOf_rankText by (left; reflexivity). reflexivity.
Qed.

Lemma splitOn_placementField (b : Board) :
  splitOn "/" (placementField b) = map (rankText b) range8.
Proof.
  unfold placementField, range8. cbn [map String.concat append].
  rewrite !splitOn_append by (apply freeOf_rankText; right; reflexivity).
  rewrite splitOn_free by (apply freeOf_rankText; right; reflexivity).
  reflexivity.
Qed.

Lemma readRank_append (s1 s2 : string) :
  readRank (append s1 s2) = readRank s1 ++ readRank s2.
Proof.
  unfold readRank. induction s1 as [|ch s1 IH]; cbn [append list_ascii_of_string flat_map];
    [reflexivity|].
  rewrite IH, app_assoc. reflexivity.
Qed.

Lemma readRank_token (t : FenToken) :
  runWithin 8 t -> readRank (tokenText t) = expand t.
Proof.
  destruct t as [n|[[] []]]; try reflexivity.
  cbn [runWithin]. intros Hn.
  assert (H : n = 1 \/ n = 2 \/ n = 3 \/ n = 4 \/ n = 5 \/ n = 6 \/ n = 7 \/ n = 8) by lia.
  destruct H as [-> | [-> | [-> | [-> | [-> | [-> | [-> | ->]]]]]]]; reflexivity.
Qed.

Lemma readRank_tokens (ts : list FenToken) :
  Forall (runWithin 8) ts ->
  readRank (tokensText ts) = flat_map expand ts.
Proof.
  unfold tokensText. induction 1 as [|t ts Ht Hts IH]; [reflexivity|].
  cbn [map flat_map]. rewrite concat_empty_cons, readRank_append, IH, readRank_token by exact Ht.
  reflexivity.
Qed.

Lemma expand_rankTokens (cells : list Cell) : flat_map expand (rankTokens cells) = cells.
Proof.
  induction cells as [|x cells IH]; [reflexivity|].
  pose proof (rankTokens_runs cells) as Hruns.
  destruct x as [p|]; cbn [rankTokens].
  - cbn [flat_map expand app]. rewrite IH. reflexivity.
  - destruct (rankTokens cells) as [|[n|q] ts]; cbn [flat_map expand] in *.
    + rewrite <- IH. reflexivity.
    + apply Forall_inv in Hruns. cbn [runWithin] in Hruns.
      replace (Z.to_nat (n + 1)) with (S (Z.to_nat n)) by lia.
      cbn [repeat app]. rewrite IH. reflexivity.
    + rewrite <- IH. reflexivity.
Qed.

Lemma readRank_rankText (b : Board) (r : Z) :
  readRank (rankText b r) = map (getSq b r) range8.
Proof.
  unfold rankText. fold (tokensText (rankTokens (map (getSq b r) range8))).
  rewrite readRank_tokens, expand_rankTokens; [reflexivity|].
  apply (rankTokens_runs (map (getSq b r) range8)).
Qed.

Lemma length8 {A : Type} (l : list A) :
  length l = 8%nat -> exists a b c d e f g h, l = [a; b; c; d; e; f; g; h].
Proof.
  intros H.
  destruct l as [|a [|b [|c [|d [|e [|f [|g [|h [|i l]]]]]]]]]; try discriminate H.
  repeat eexists.
Qed.

Lemma board_cells (b : Board) :
  eightByEight b = true -> map (fun r => map (getSq b r) range8) range8 = b.
Proof.
  unfold eightByEight. intros H. apply andb_true_iff in H as [Hlen Hrows].
  apply Nat.eqb_eq in Hlen. rewrite forallb_forall in Hrows.
  destruct (length8 b Hlen) as (r0 & r1 & r2 & r3 & r4 & r5 & r6 & r7 & ->).
  assert (Hrow : forall cells, In cells [r0; r1; r2; r3; r4; r5; r6; r7] ->
                               exists a b c d e f g h, cells = [a; b; c; d; e; f; g; h]).
  { intros cells Hin. apply length8. apply Nat.eqb_eq. apply Hrows. exact Hin. }
  destruct (Hrow r0 ltac:(cbn [In]; tauto)) as (? & ? & ? & ? & ? & ? & ? & ? & ->).
  destruct (Hrow r1 ltac:(cbn [In]; tauto)) as (? & ? & ? & ? & ? & ? & ? & ? & ->).
  destruct (Hrow r2 ltac:(cbn [In]; tauto)) as (? & ? & ? & ? & ? & ? & ? & ? & ->).
  destruct (Hrow r3 ltac:(cbn [In]; tauto)) as (? & ? & ? & ? & ? & ? & ? & ? & ->).
  destruct (Hrow r4 ltac:(cbn [In]; tauto)) as (? & ? & ? & ? & ? & ? & ? & ? & ->).
  destruct (Hrow r5 ltac:(cbn [In]; tauto)) as (? & ? & ? & ? & ? & ? & ? & ? & ->).
  destruct (Hrow r6 ltac:(cbn [In]; tauto)) as (? & ? & ? & ? & ? & ? & ? & ? & ->).
  destruct (Hrow r7 ltac:(cbn [In]; tauto)) as (? & ? & ? & ? & ? & ? & ? & ? & ->).
  reflexivity.
Qed.

(** The first three fields of the line, read back. *)
Lemma boardToFEN_read (st : GameState) :
  eightByEight (board st) = true ->
  readPlacement (fenField 0 (boardToFEN st)) = board st
  /\ readSide (fenField 1 (boardToFEN st)) = Some (turn st)
  /\ readRights (fenField 2 (boardToFEN st)) = castlingRights st.
Proof.
  intros Hshape.
  assert (Hline : exists rest,
             boardToFEN st
             = append (placementField (board st))
                 (String " " (append (sideField (turn st))
                    (String " " (append (castlingToken (castlingRights st))
                       (String " " rest)))))).
  { unfold boardToFEN. cbv zeta. rewrite placement_spec.
    destruct (enPassantTarget st) as [ep|]; eexists;
      rewrite !append_assoc; cbn [append]; rewrite ?append_assoc; reflexivity. }
  destruct Hline as [rest Hline]. unfold fenField. rewrite Hline.
  rewrite splitOn_append by apply freeOf_placementField.
  rewrite splitOn_append by (destruct (turn st); reflexivity).
  rewrite splitOn_append by (destruct (castlingRights st) as [[[] []] [[] []]]; reflexivity).
  cbn [nth]. split; [|split].
  - unfold readPlacement. rewrite splitOn_placementField, map_map.
    etransitivity; [|exact (board_cells (board st) Hshape)].
    apply map_ext. intros r. apply readRank_rankText.
  - destruct (turn st); reflexivity.
  - destruct (castlingRights st) as [[[] []] [[] []]]; reflexivity.
Qed.

(** X20.  The line determines the position.  Two states with boards of
    eight rows of eight cells for which [boardToFEN] writes the same line
    have the same board, the same side to move and the same castling
    rights: no two positions are sent to the engine as one. *)
Theorem boardToFEN_determines_position (st1 st2 : GameState) :
  eightByEight (board st1) = true ->
  eightByEight (board st2) = true ->
  boardToFEN st1 = boardToFEN st2 ->
  board st1 = board st2
  /\ turn st1 = turn st2
  /\ castlingRights st1 = castlingRights st2.
Proof.
  intros H1 H2 Heq.
  destruct (boardToFEN_read st1 H1) as (Hb1 & Ht1 & Hr1).
  destruct (boardToFEN_read st2 H2) as (Hb2 & Ht2 & Hr2).
  rewrite Heq in Hb1, Ht1, Hr1.
  split; [congruence|]. split; congruence.
Qed.

Lemma boardToFEN_determines_position_witness :
  board (initGame Pvp) = board (initGame Solo)
  /\ turn (initGame Pvp) = turn (initGame Solo)
  /\ castlingRights (initGame Pvp) = castlingRights (initGame Solo).
Proof.
  apply (boardToFEN_determines_position (initGame Pvp) (initGame Solo)); reflexivity.
Defined.

(* ================================================================== *)
(** * Further properties of play: what holds of every position of a game *)
(* ================================================================== *)

Lemma forallb_updNth {A : Type} (P : A -> bool) (f : A -> A) (l : list A) :
  (forall x, P (f x) = P x) ->
  forall n, forallb P (updNth n f l) = forallb P l.
Proof.
  intros Hf. induction l as [|x xs IH]; intros [|n]; cbn [updNth forallb]; try reflexivity.
  - rewrite Hf. reflexivity.
  - rewrite IH. reflexivity.
Qed.

Lemma eightByEight_setSq (b : Board) (r c : Z) (v : Cell) :
  eightByEight (setSq b r c v) = eightByEight b.
Proof.
  unfold eightByEight, setSq. destruct ((r <? 0) || (c <? 0)); [reflexivity|].
  rewrite length_updNth. f_equal. apply forallb_updNth.
  intros cells. rewrite length_updNth. reflexivity.
Qed.

Lemma eightByEight_fullGrid (b : Board) : eightByEight b = true -> fullGrid b = true.
Proof.
  unfold eightByEight. intros H. apply andb_true_iff in H as [Hlen Hrows].
  apply Nat.eqb_eq in Hlen. rewrite forallb_forall in Hrows.
  destruct (length8 b Hlen) as (r0 & r1 & r2 & r3 & r4 & r5 & r6 & r7 & ->).
  assert (Hrow : forall cells, In cells [r0; r1; r2; r3; r4; r5; r6; r7] ->
                               exists a b c d e f g h, cells = [a; b; c; d; e; f; g; h]).
  { intros cells Hin. apply length8. apply Nat.eqb_eq. apply Hrows. exact Hin. }
  destruct (Hrow r0 ltac:(cbn [In]; tauto)) as (? & ? & ? & ? & ? & ? & ? & ? & ->).
  destruct (Hrow r1 ltac:(cbn [In]; tauto)) as (? & ? & ? & ? & ? & ? & ? & ? & ->).
  destruct (Hrow r2 ltac:(cbn [In]; tauto)) as (? & ? & ? & ? & ? & ? & ? & ? & ->).
  destruct (Hrow r3 ltac:(cbn [In]; tauto)) as (? & ? & ? & ? & ? & ? & ? & ? & ->).
  destruct (Hrow r4 ltac:(cbn [In]; tauto)) as (? & ? & ? & ? & ? & ? & ? & ? & ->).
  destruct (Hrow r5 ltac:(cbn [In]; tauto)) as (? & ? & ? & ? & ? & ? & ? & ? & ->).
  destruct (Hrow r6 ltac:(cbn [In]; tauto)) as (? & ? & ? & ? & ? & ? & ? & ? & ->).
  destruct (Hrow r7 ltac:(cbn [In]; tauto)) as (? & ? & ? & ? & ? & ? & ? & ? & ->).
  reflexivity.
Qed.

Lemma commitMove_shape (m : Move) (piece : Piece) (choice : option PieceType)
      (st : GameState) :
  eightByEight (board (commitMove m piece choice st)) = eightByEight (board st).
Proof.
  unfold commitMove, relocateRook. cbv zeta. cbn [board].
  destruct choice; destruct (isSpecial m CastleQs); destruct (isSpecial m CastleKs);
    destruct (isSpecial m EnPassant); rewrite !eightByEight_setSq; reflexivity.
Qed.

Ltac cell_reads_in H Hfull :=
  repeat (rewrite getSq_setSq_full in H
            by (first [ repeat apply fullGrid_setSq; exact Hfull
                      | apply isValidSquare_spec; lia ])).

Ltac decide_eqbs_in H :=
  repeat match type of H with
  | context [?a =? ?b] => destruct (Z.eqb_spec a b)
  end;
  cbn [andb] in H.

(** With castling rights a king that castles starts from its home square. *)
Lemma castling_starts_at_home (st : GameState) (color : Color) (m : Move) :
  kingsAtHome st ->
  In m (getLegalMoves st color) ->
  isCastle m ->
  mfrom m = homeSquare color.
Proof.
  intros Hhome Hlegal Hcastle.
  destruct (legal_move_origin st color m Hlegal) as (piece & Hp & Hc & Hv & Hin).
  destruct (pseudo_castle st _ _ piece m Hin Hcastle) as [Hk _].
  destruct (pseudo_castle_path st _ _ piece m Hin) as [Hks Hqs].
  apply Hhome.
  - unfold holdsRight. apply orb_true_iff. rewrite Hc in Hks, Hqs.
    destruct Hcastle as [H|H]; [left; apply (Hks H) | right; apply (Hqs H)].
  - replace (mfrom m) with (mkSquare (row (mfrom m)) (col (mfrom m)))
      by (destruct (mfrom m); reflexivity).
    apply valid_in_allSquares. exact Hv.
  - rewrite Hp. destruct piece as [pc pt]. cbn [pcolor ptype] in *. congruence.
Qed.

(** Where the kings of the board that [makeMove] leaves come from. *)
Lemma commitMove_kings (st : GameState) (m : Move) (piece : Piece)
      (choice : option PieceType) (color : Color) (s : Square) :
  fullGrid (board st) = true ->
  kingsAtHome st ->
  In m (getLegalMoves st (turn st)) ->
  getSq (board st) (row (mfrom m)) (col (mfrom m)) = Some piece ->
  choice <> Some King ->
  isValidSquare (row s) (col s) = true ->
  getSq (board (commitMove m piece choice st)) (row s) (col s) = Some (mkPiece color King) ->
  getSq (board st) (row s) (col s) = Some (mkPiece color King)
  \/ (color = turn st /\ ptype piece = King)
  \/ (exists cc, (cc = 0 \/ cc = 7)
                 /\ getSq (board st) (row (mfrom m)) cc = Some (mkPiece color King)).
Proof.
  intros Hfull Hhome Hlegal Hp Hchoice Hs H.
  pose proof (castling_starts_at_home st (turn st) m Hhome Hlegal) as Hstart.
  destruct (legal_move_origin st (turn st) m Hlegal) as (piece' & Hp' & Hc & Hv & Hin).
  assert (piece' = piece) by congruence. subst piece'. clear Hp'.
  pose proof (pseudo_lands st _ _ piece m Hin) as Hlands.
  pose proof (pseudo_enpassant st _ _ piece m Hin) as Hep.
  pose proof (pseudo_castle st _ _ piece m Hin) as Hcas.
  clear Hin Hlegal.
  assert (Hmoved : Some piece = Some (mkPiece color King) ->
                   color = turn st /\ ptype piece = King).
  { intros E. injection E as ->. cbn in *. auto. }
  assert (Hpromoted : forall t, choice = Some t ->
                                Some (mkPiece (turn st) t) <> Some (mkPiece color King)).
  { intros t -> E. injection E as _ ->. congruence. }
  destruct m as [[fr fc] [tr tc] sp]. destruct s as [sr sc].
  unfold isCastle, landsWell, targetOf in *.
  cbn [mfrom mto special row col] in *.
  apply isValidSquare_spec in Hv, Hs.
  unfold commitMove, relocateRook, isSpecial in H. cbv zeta in H.
  cbn [mfrom mto special row col board] in H.
  destruct sp as [[]|].
  - (* double push *)
    destruct Hlands as [[[E|E] _]|[_ [Hland _]]]; try discriminate.
    apply isValidSquare_spec in Hland.
    destruct choice as [t|]; [specialize (Hpromoted t eq_refl)|];
      cell_reads_in H Hfull; decide_eqbs_in H; try discriminate; auto; congruence.
  - (* en passant *)
    destruct Hlands as [[[E|E] _]|[_ [Hland _]]]; try discriminate.
    apply isValidSquare_spec in Hland.
    destruct choice as [t|]; [specialize (Hpromoted t eq_refl)|];
      cell_reads_in H Hfull; decide_eqbs_in H; try discriminate; auto; congruence.
  - (* castling on the king's side *)
    specialize (Hstart (or_introl eq_refl)).
    destruct (Hcas (or_introl eq_refl)) as [Hk Hto]. cbn in Hto. injection Hto as -> ->.
    assert (fc = 4) by (destruct (turn st); cbn in Hstart; congruence). subst fc.
    destruct choice as [t|]; [specialize (Hpromoted t eq_refl)|];
      cell_reads_in H Hfull; decide_eqbs_in H; subst; try discriminate; auto;
      try congruence; try lia;
      right; right; exists 7; auto.
  - (* castling on the queen's side *)
    specialize (Hstart (or_intror eq_refl)).
    destruct (Hcas (or_intror eq_refl)) as [Hk Hto]. cbn in Hto. injection Hto as -> ->.
    assert (fc = 4) by (destruct (turn st); cbn in Hstart; congruence). subst fc.
    destruct choice as [t|]; [specialize (Hpromoted t eq_refl)|];
      cell_reads_in H Hfull; decide_eqbs_in H; subst; try discriminate; auto;
      try congruence; try lia;
      right; right; exists 0; auto.
  - (* an ordinary move *)
    destruct Hlands as [[[E|E] _]|[_ [Hland _]]]; try discriminate.
    apply isValidSquare_spec in Hland.
    destruct choice as [t|]; [specialize (Hpromoted t eq_refl)|];
      cell_reads_in H Hfull; decide_eqbs_in H; try discriminate; auto; congruence.
Qed.

Lemma holdsRight_within (cr' cr : CastlingRights) (color : Color) :
  rightsWithin cr' cr -> holdsRight cr' color = true -> holdsRight cr color = true.
Proof.
  unfold holdsRight. intros Hw H. destruct (Hw color) as [Hk Hq].
  apply orb_true_iff in H. apply orb_true_iff. destruct H; auto.
Qed.

Lemma wellFormed_pending (p : option Move) (st : GameState) :
  wellFormed st -> wellFormed (set_pendingPromotion p st).
Proof. intros H. exact H. Qed.

Lemma commitMove_wellFormed (st : GameState) (m : Move) (piece : Piece)
      (choice : option PieceType) :
  wellFormed st ->
  In m (getLegalMoves st (turn st)) ->
  getSq (board st) (row (mfrom m)) (col (mfrom m)) = Some piece ->
  choice <> Some King ->
  wellFormed (commitMove m piece choice st).
Proof.
  intros (Hshape & Hhome & Hcount & Hsorted & Hmoves & Hclock) Hlegal Hp Hchoice.
  pose proof (eightByEight_fullGrid _ Hshape) as Hfull.
  destruct (legal_move_origin st (turn st) m Hlegal) as (piece' & Hp' & Hc & Hv & _).
  assert (piece' = piece) by congruence. subst piece'. clear Hp'.
  split; [|split; [|split; [|split; [|split]]]].
  - rewrite commitMove_shape. exact Hshape.
  - intros color s Hright Hin Hking.
    pose proof (updateRights_within (castlingRights st) (turn st) (ptype piece)
                  (col (mfrom m))) as (Hwithin & _ & _ & Hking_moved).
    change (castlingRights (commitMove m piece choice st))
      with (updateRights (castlingRights st) (turn st) (ptype piece) (col (mfrom m)))
      in Hright.
    destruct (commitMove_kings st m piece choice color s Hfull Hhome Hlegal Hp Hchoice
                (allSquares_valid s Hin) Hking) as [Hold|[[-> Hk]|(cc & Hcc & Hcorner)]].
    + apply Hhome; [|exact Hin | exact Hold].
      exact (holdsRight_within _ _ color Hwithin Hright).
    + exfalso. unfold holdsRight in Hright. rewrite (Hking_moved Hk) in Hright.
      discriminate Hright.
    + exfalso.
      assert (Hcorner_home : mkSquare (row (mfrom m)) cc = homeSquare color).
      { apply Hhome.
        - exact (holdsRight_within _ _ color Hwithin Hright).
        - apply valid_in_allSquares. apply isValidSquare_spec in Hv.
          apply isValidSquare_spec. lia.
        - exact Hcorner. }
      destruct color; cbn in Hcorner_home; injection Hcorner_home as _ E; lia.
  - rewrite (commitMove_conserves st (turn st) m piece choice Hfull Hlegal); [exact Hcount| |exact Hp].
    intros Hcastle. rewrite (castling_starts_at_home st (turn st) m Hhome Hlegal Hcastle).
    destruct (turn st); reflexivity.
  - unfold commitMove. cbv zeta. cbn [capturedPieces].
    destruct (isSpecial m EnPassant); repeat apply trackCapture_ledger; exact Hsorted.
  - unfold commitMove. cbv zeta. cbn [moveCount]. destruct (turn st); lia.
  - unfold commitMove. cbv zeta. cbn [halfMoveClock]. destruct (_ || _); lia.
Qed.

Lemma initGame_wellFormed (mode : GameMode) : wellFormed (initGame mode).
Proof.
  split; [reflexivity|].
  split; [|split; [reflexivity|split; [split; constructor|split; cbn; lia]]].
  intros color s _ Hin H. cbn [board initGame] in H.
  unfold allSquares, range8 in Hin. cbn [flat_map map app In] in Hin.
  repeat (destruct Hin as [<-|Hin];
          [cbn in H; destruct color; try discriminate H; reflexivity|]).
  contradiction.
Qed.

Lemma Reachable_wellFormed (st : GameState) : Reachable st -> wellFormed st.
Proof.
  intros Hreach.
  induction Hreach as [mode | st st' m choice _ IH Hlegal Hchoice Hmake
                            | st st' m type _ IH Hpend Hlegal Htype Hresolve].
  - apply initGame_wellFormed.
  - destruct (legal_move_origin st (turn st) m Hlegal) as (piece & Hp & _).
    unfold makeMove in Hmake. rewrite Hp in Hmake.
    destruct (needsPromotionChoice m piece choice);
      [destruct (autoPromotes st)|]; injection Hmake as <-.
    + apply commitMove_wellFormed; auto. discriminate.
    + apply wellFormed_pending. exact IH.
    + apply commitMove_wellFormed; auto.
  - destruct (legal_move_origin st (turn st) m Hlegal) as (piece & Hp & _).
    unfold handlePromotionChoice, makeMove in Hresolve. rewrite Hpend, Hp in Hresolve.
    cbn [needsPromotionChoice] in Hresolve. injection Hresolve as <-.
    apply wellFormed_pending. apply commitMove_wellFormed; auto. congruence.
Qed.

(** X21.  What holds of every position of a game.  In every position that
    play reaches from the opening position - by [makeMove] on legal moves
    of the side to move and by [handlePromotionChoice] on a pending legal
    move, the promotion piece being no king - the board has eight rows of
    eight cells; the pieces on the board and on the two lists of captured
    pieces are 32 together; each list holds pieces of its own colour; the
    move counter is at least 1 and the half-move clock at least 0; and a
    side that holds a castling right has no king off its king's home square,
    so that every legal castling move starts on the e-file of the home
    row. *)
Theorem reachable_positions_are_well_formed (st : GameState) :
  Reachable st ->
  wellFormed st
  /\ forall m, In m (getLegalMoves st (turn st)) -> isCastle m ->
               mfrom m = homeSquare (turn st).
Proof.
  intros Hreach.
  pose proof (Reachable_wellFormed st Hreach) as Hwf.
  split; [exact Hwf|].
  intros m Hlegal Hcastle.
  exact (castling_starts_at_home st (turn st) m (proj1 (proj2 Hwf)) Hlegal Hcastle).
Qed.

Lemma reachable_positions_are_well_formed_witness :
  wellFormed (commitMove e2e4 (mkPiece White Pawn) None (initGame Pvp)).
Proof.
  apply (reachable_positions_are_well_formed
           (commitMove e2e4 (mkPiece White Pawn) None (initGame Pvp))).
  apply (reach_move (initGame Pvp) _ e2e4 None (reach_init Pvp)).
  - vm_compute. in_list.
  - discriminate.
  - reflexivity.
Defined.

(* ================================================================== *)
(** * Further properties of the search: one ply is one move *)
(* ================================================================== *)

(** X22.  The search plays the moves that [makeMove] plays.  For a legal
    move of the side to move, the board, the castling rights and the
    en-passant target that [minimax] hands to the next ply are the ones
    that [makeMove] leaves when it commits the move, a pawn on the last row
    becoming a queen; and that is what [makeMove] does when the move needs
    no promotion choice or the computer is to move in a solo game. *)
Theorem search_plays_as_makeMove (st : GameState) (m : Move) :
  In m (getLegalMoves st (turn st)) ->
  exists piece st',
    getSq (board st) (row (mfrom m)) (col (mfrom m)) = Some piece
    /\ st' = commitMove m piece
               (if needsPromotionChoice m piece None then Some Queen else None) st
    /\ searchBoard (board st) m = board st'
    /\ searchRights (board st) (castlingRights st) (turn st) m = castlingRights st'
    /\ epAfter m = enPassantTarget st'
    /\ (autoPromotes st = true \/ needsPromotionChoice m piece None = false ->
        makeMove m None st = Returned st').
Proof.
  intros Hlegal.
  destruct (legal_move_origin st (turn st) m Hlegal) as (piece & Hp & Hc & _).
  exists piece, (commitMove m piece
                   (if needsPromotionChoice m piece None then Some Queen else None) st).
  split; [exact Hp|]. split; [reflexivity|]. split; [|split; [|split]].
  - unfold searchBoard, commitMove. cbv zeta. cbn [board]. rewrite Hp.
    unfold needsPromotionChoice. rewrite Hc.
    destruct (PieceType_eqb (ptype piece) Pawn
              && ((row (mto m) =? 0) || (row (mto m) =? 7))); reflexivity.
  - unfold searchRights, commitMove. cbv zeta. cbn [castlingRights]. rewrite Hp. reflexivity.
  - reflexivity.
  - intros Hauto. unfold makeMove. rewrite Hp.
    destruct (needsPromotionChoice m piece None) eqn:Hneed; [|reflexivity].
    destruct Hauto as [-> | H]; [reflexivity | discriminate H].
Qed.

Lemma search_plays_as_makeMove_witness :
  exists piece st',
    getSq initialBoard 6 4 = Some piece
    /\ st' = commitMove e2e4 piece
               (if needsPromotionChoice e2e4 piece None then Some Queen else None)
               (initGame Pvp)
    /\ searchBoard initialBoard e2e4 = board st'
    /\ searchRights initialBoard allRights White e2e4 = castlingRights st'
    /\ epAfter e2e4 = enPassantTarget st'
    /\ (autoPromotes (initGame Pvp) = true \/ needsPromotionChoice e2e4 piece None = false ->
        makeMove e2e4 None (initGame Pvp) = Returned st').
Proof.
  apply (search_plays_as_makeMove (initGame Pvp) e2e4). vm_compute. in_list.
Defined.

(* ================================================================== *)
(** * Further properties of play: the players stay within the game *)
(* ================================================================== *)

(** With the kings at home a legal move lands on the board: a castling move
    starts on the e-file and goes two columns. *)
Lemma legal_move_lands_on_board (st : GameState) (color : Color) (m : Move) :
  kingsAtHome st ->
  In m (getLegalMoves st color) ->
  isValidSquare (row (mto m)) (col (mto m)) = true.
Proof.
  intros Hhome Hlegal.
  destruct (legal_move_origin st color m Hlegal) as (piece & _ & _ & _ & Hin).
  destruct (pseudo_lands st _ _ piece m Hin) as [[Hcastle _]|[_ [Hland _]]];
    [|exact Hland].
  pose proof (castling_starts_at_home st color m Hhome Hlegal Hcastle) as Hstart.
  destruct (pseudo_castle st _ _ piece m Hin Hcastle) as [_ Hto].
  rewrite Hto, Hstart. cbn [row col].
  destruct color, (isSpecial m CastleKs); reflexivity.
Qed.

(** So [selectSquare] finds the square of every highlight it draws. *)
Lemma selectSquare_returns (r c : Z) (st : GameState) :
  kingsAtHome st -> selectSquare r c st = Returned (Some (mkSquare r c)).
Proof.
  intros Hhome. unfold selectSquare. cbv zeta.
  replace (forallb _ _) with true; [reflexivity|].
  symmetry. apply forallb_forall. intros m Hm. apply filter_In in Hm as [Hm _].
  exact (legal_move_lands_on_board st (turn st) m Hhome Hm).
Qed.

(** Whatever [selectSquare] does, the position stays. *)
Lemma selectOwn_state (r c : Z) (st st' : GameState) (sel' : option Square) :
  selectOwn r c st = Returned (sel', st') -> st' = st.
Proof.
  unfold selectOwn.
  destruct (cellHasColor (getSq (board st) r c) (turn st)).
  - destruct (selectSquare r c st); [|discriminate]. intros H. inversion H. reflexivity.
  - intros H. inversion H. reflexivity.
Qed.

(** Off the positions of a game the highlights can miss the board.  With
    white's king on g1 and the king-side right held, the generator offers
    the castling move to the column beside the grid, the filter passes it,
    and the click on the king stops with the TypeError of
    [targetSq.appendChild]. *)
Example click_on_stray_king_throws :
  In (mkMove (mkSquare 7 6) (mkSquare 7 8) (Some CastleKs))
     (getLegalMoves (set_board strayKingBoard (initGame Pvp)) White)
  /\ handleSquareClick false None 7 6 (set_board strayKingBoard (initGame Pvp))
     = Thrown TypeError.
Proof. split; [vm_compute; in_list | vm_compute; reflexivity]. Qed.

(** X17.  In a position of a game a click on a square of the board never
    stops with a TypeError - the highlights that [selectSquare] draws are
    all on the board -, and it changes the position only by a legal move of
    the side to move, of whichever mode the game is, from the selected
    square to the clicked one, handed to [makeMove] without a promotion
    choice; after such a move nothing is selected.  A square is only ever
    selected by a click on a piece of the side to move, and a click on a
    finished game changes nothing. *)
Theorem click_plays_only_legal_moves (isGameOver : bool) (sel : option Square) (r c : Z)
        (st : GameState) :
  Reachable st ->
  isValidSquare r c = true ->
  exists sel' st',
    handleSquareClick isGameOver sel r c st = Returned (sel', st')
    /\ (isGameOver = true -> sel' = sel /\ st' = st)
    /\ (st' = st
        \/ exists from m,
             sel = Some from
             /\ In m (getLegalMoves st (turn st))
             /\ mfrom m = from /\ mto m = mkSquare r c
             /\ makeMove m None st = Returned st'
             /\ sel' = None)
    /\ (isGameOver = false ->
        forall s, sel' = Some s ->
                  st' = st /\ s = mkSquare r c
                  /\ cellHasColor (getSq (board st) r c) (turn st) = true).
Proof.
  intros Hreach _.
  pose proof (Reachable_wellFormed st Hreach) as (_ & Hhome & _).
  assert (Hown : exists sel',
            selectOwn r c st = Returned (sel', st)
            /\ forall s, sel' = Some s ->
                         st = st /\ s = mkSquare r c
                         /\ cellHasColor (getSq (board st) r c) (turn st) = true).
  { unfold selectOwn. rewrite (selectSquare_returns r c st Hhome).
    destruct (cellHasColor (getSq (board st) r c) (turn st)).
    - eexists. split; [reflexivity|]. intros s H. injection H as <-. auto.
    - eexists. split; [reflexivity|]. discriminate. }
  unfold handleSquareClick. destruct isGameOver.
  { exists sel, st.
    split; [reflexivity|]. split; [auto|]. split; [left; reflexivity|]. discriminate. }
  destruct sel as [from|].
  2:{ destruct Hown as (sel' & Hsel & Hs). exists sel', st.
      split; [exact Hsel|]. split; [discriminate|]. split; [left; reflexivity|].
      intros _. exact Hs. }
  destruct ((row from =? r) && (col from =? c)).
  { exists None, st.
    split; [reflexivity|]. split; [discriminate|]. split; [left; reflexivity|].
    intros _ s Hs. discriminate Hs. }
  destruct (find (fromTo from r c) (getLegalMoves st (turn st))) as [move|] eqn:Hfind.
  - apply find_some in Hfind. destruct Hfind as [Hin Hft].
    destruct (legal_move_origin st (turn st) move Hin) as (piece & Hp & _).
    unfold fromTo in Hft. rewrite !andb_true_iff, !Z.eqb_eq in Hft.
    destruct Hft as [[[H1 H2] H3] H4].
    assert (Hret : exists st', makeMove move None st = Returned st').
    { unfold makeMove. rewrite Hp.
      destruct (needsPromotionChoice _ _ _); [destruct (autoPromotes st)|];
        eexists; reflexivity. }
    destruct Hret as [st' Hst']. rewrite Hst'. exists None, st'.
    split; [reflexivity|]. split; [discriminate|]. split.
    + right. exists from, move. repeat split; auto.
      * destruct (mfrom move), from; cbn in *; congruence.
      * destruct (mto move); cbn in *; congruence.
    + intros _ s Hs. discriminate Hs.
  - destruct Hown as (sel' & Hsel & Hs). exists sel', st.
    split; [exact Hsel|]. split; [discriminate|]. split; [left; reflexivity|].
    intros _. exact Hs.
Qed.

Lemma click_plays_only_legal_moves_witness :
  exists sel' st',
    handleSquareClick false None 6 4 (initGame Pvp) = Returned (sel', st')
    /\ (false = true -> sel' = None /\ st' = initGame Pvp)
    /\ (st' = initGame Pvp
        \/ exists from m,
             None = Some from
             /\ In m (getLegalMoves (initGame Pvp) (turn (initGame Pvp)))
             /\ mfrom m = from /\ mto m = mkSquare 6 4
             /\ makeMove m None (initGame Pvp) = Returned st'
             /\ sel' = None)
    /\ (false = false ->
        forall s, sel' = Some s ->
                  st' = initGame Pvp /\ s = mkSquare 6 4
                  /\ cellHasColor (getSq (board (initGame Pvp)) 6 4) (turn (initGame Pvp))
                     = true).
Proof.
  apply (click_plays_only_legal_moves false None 6 4 (initGame Pvp)).
  - apply reach_init.
  - reflexivity.
Defined.

(** The move [fallbackAIMove] hands to [makeMove]. *)
Lemma fallbackAIMove_plays (config : Config) (u1 u2 : Q) (st : GameState) :
  (0 <= u2)%Q /\ (u2 < 1)%Q ->
  getLegalMoves st Black <> [] ->
  exists m,
    In m (getLegalMoves st Black)
    /\ fallbackAIMove config u1 u2 st = makeMove m None st.
Proof.
  intros [Hu2 Hu2'] Hne. unfold fallbackAIMove.
  destruct (getLegalMoves st Black) as [|m0 ms] eqn:Hmoves; [congruence|].
  rewrite <- Hmoves in *.
  unfold chosenMove. rewrite scoredSorted_spec. cbn [fst snd].
  set (scored := sortScored _).
  assert (Hperm : Permutation scored
                    (map (fun m => mkScored m
                            (fst (minimax (depth config - 1) (searchBoard (board st) m)
                                          NegInf PosInf false White (castlingRights st)
                                          (epAfter m) st)))
                         (getLegalMoves st Black))) by apply sortScored_perm.
  assert (Hsc : scored <> []).
  { intros E. rewrite E in Hperm. apply Permutation_nil in Hperm.
    apply map_eq_nil in Hperm. contradiction. }
  destruct (chooseScored_spec config scored u1 u2 Hsc Hu2 Hu2')
    as (best & rest & sub & i & sm & _ & Hch & _ & Hnth & _ & _ & Hbl & Htop).
  rewrite Hch. cbn [option_map].
  exists (sm_move sm). split; [|reflexivity].
  assert (Hsub : forall x, In x sub -> In x scored).
  { destruct (Qlt_le_dec u1 (blunderRate config)) as [Hlt|Hge].
    - rewrite (Hbl Hlt). intros x Hx. rewrite <- (firstn_skipn (length scored / 2) scored).
      apply in_or_app. right. exact Hx.
    - rewrite (Htop (Qle_not_lt _ _ Hge)). intros x Hx. apply filter_In in Hx. apply Hx. }
  apply nth_error_In in Hnth. apply Hsub in Hnth.
  eapply Permutation_in in Hnth; [|exact Hperm].
  apply in_map_iff in Hnth. destruct Hnth as (m & <- & Hm). exact Hm.
Qed.

(** X23.  The players stay within the game.  From a position of a game, a
    click leads to a position of a game, and so does [fallbackAIMove] when
    black is to move, with a tier of depth at least 1 and a draw of
    [[0, 1)]: whatever the user clicks and whatever the computer draws, the
    invariants of play go on holding. *)
Theorem players_stay_within_the_game (st : GameState) :
  Reachable st ->
  (forall isGameOver sel r c sel' st',
      handleSquareClick isGameOver sel r c st = Returned (sel', st') -> Reachable st')
  /\ (turn st = Black ->
      forall config u1 u2 st',
        (1 <= depth config)%nat ->
        (0 <= u2)%Q /\ (u2 < 1)%Q ->
        fallbackAIMove config u1 u2 st = Returned st' -> Reachable st').
Proof.
  intros Hreach. split.
  - intros isGameOver sel r c sel' st' H. unfold handleSquareClick in H.
    destruct isGameOver; [injection H as _ <-; exact Hreach|].
    destruct sel as [from|];
      [|apply selectOwn_state in H; rewrite H; exact Hreach].
    destruct ((row from =? r) && (col from =? c)); [injection H as _ <-; exact Hreach|].
    destruct (find (fromTo from r c) (getLegalMoves st (turn st))) as [move|] eqn:Hfind;
      [|apply selectOwn_state in H; rewrite H; exact Hreach].
    apply find_some in Hfind. destruct Hfind as [Hin _].
    destruct (makeMove move None st) as [st1|e] eqn:Hmake; [|discriminate H].
    injection H as _ <-.
    apply (reach_move st st1 move None Hreach Hin); [discriminate | exact Hmake].
  - intros Ht config u1 u2 st' _ Hu2 H.
    destruct (getLegalMoves st Black) as [|m0 ms] eqn:Hmoves.
    + unfold fallbackAIMove in H. rewrite Hmoves in H. injection H as <-. exact Hreach.
    + destruct (fallbackAIMove_plays config u1 u2 st Hu2) as (m & Hin & Hplay).
      * rewrite Hmoves. discriminate.
      * rewrite Hplay in H. rewrite <- Ht in Hin.
        apply (reach_move st st' m None Hreach Hin); [discriminate | exact H].
Qed.

Lemma players_stay_within_the_game_witness :
  Reachable (commitMove e2e4 (mkPiece White Pawn) None (initGame Solo)).
Proof.
  apply (proj1 (players_stay_within_the_game (initGame Solo) (reach_init Solo))
               false (Some (mkSquare 6 4)) 4 4 None).
  vm_compute. reflexivity.
Defined.
